(** * bib_to_html: LaTeX-to-Unicode normalisation and bibliography rendering

    A shallow embedding of [scripts/bib_to_html.py].  Python strings are
    sequences of Unicode code points and are modelled as [list Z]; a record
    of the bibliography (a Python dict from field name to text) is a
    [gmap string (list Z)]. *)

From Stdlib Require Import ZArith List Ascii String Lia Permutation Sorted DecimalString DecimalPos.
From stdpp Require Import gmap strings list sorting.

Open Scope Z_scope.

(** ** Text *)

Abbreviation str := (list Z).

(** An ASCII literal of the source, as code points. *)
Definition lit (s : string) : str :=
  List.map (fun a => Z.of_N (N_of_ascii a)) (list_ascii_of_string s).

Definition BACKSLASH : Z := 92.
Definition LBRACE : Z := 123.
Definition RBRACE : Z := 125.
Definition DQUOTE : Z := 34.

(** [s.startswith(p)] *)
Fixpoint starts_with (p s : str) : bool :=
  match p, s with
  | [], _ => true
  | _ :: _, [] => false
  | a :: p', b :: s' => (a =? b) && starts_with p' s'
  end.

(** [y in v] on strings: [y] occurs in [v] as a substring. *)
Fixpoint contains (y v : str) : bool :=
  starts_with y v || match v with [] => false | _ :: v' => contains y v' end.

(** A matcher looks at the text from the current position on and, when the
    pattern matches there, gives the replacement and the number of code
    points the match covers (at least one for every pattern of the program). *)
Definition matcher := str -> option (str * nat).

(** Left-to-right rewriting of all non-overlapping matches, which is what
    [re.sub] and [str.replace] do: at a position where the pattern matches
    the replacement is emitted and the scan resumes after the match;
    elsewhere the code point is copied.  [skip] counts the code points of
    the current match that are still to be passed over. *)
Fixpoint rewrite_from (m : matcher) (skip : nat) (s : str) : str :=
  match s with
  | [] => []
  | c :: t =>
      match skip with
      | S k => rewrite_from m k t
      | O =>
          match m s with
          | Some (r, n) => r ++ rewrite_from m (Nat.pred n) t
          | None => c :: rewrite_from m O t
          end
      end
  end.

Definition literal (old new : str) : matcher :=
  fun s => if starts_with old s then Some (new, length old) else None.

(** [s.replace(old, new)].  For an empty [old] Python puts [new] before
    every code point and at the end. *)
Definition replace (old new s : str) : str :=
  match old with
  | [] => new ++ flat_map (fun c => c :: new) s
  | _ :: _ => rewrite_from (literal old new) O s
  end.

(** [str.isspace] on one code point, which is also the class [\s] of [re]
    on text patterns. *)
Definition is_space (c : Z) : bool :=
  ((9 <=? c) && (c <=? 13)) || ((28 <=? c) && (c <=? 32))
  || (c =? 133) || (c =? 160) || (c =? 5760)
  || ((8192 <=? c) && (c <=? 8202))
  || (c =? 8232) || (c =? 8233) || (c =? 8239) || (c =? 8287) || (c =? 12288).

(** The class [[A-Za-z]]. *)
Definition is_letter (c : Z) : bool :=
  ((65 <=? c) && (c <=? 90)) || ((97 <=? c) && (c <=? 122)).

Fixpoint lstrip (drop : Z -> bool) (s : str) : str :=
  match s with
  | [] => []
  | c :: t => if drop c then lstrip drop t else s
  end.

Definition rstrip (drop : Z -> bool) (s : str) : str :=
  rev (lstrip drop (rev s)).

(** [s.strip()] is [strip is_space s]; [s.strip(chars)] is
    [strip (fun c => member c chars) s]. *)
Definition strip (drop : Z -> bool) (s : str) : str :=
  rstrip drop (lstrip drop s).

Definition member (c : Z) (chars : str) : bool :=
  existsb (Z.eqb c) chars.

(** [str.lower] on the ASCII letters.  Other code points are left as they
    are: the program only compares the lowered text with the ASCII words
    [http] and [arxiv], and no code point outside ASCII lowers to text that
    begins with a letter of these words, except U+0130, whose lowering is
    [i] followed by U+0307 and so never completes either word. *)
Definition lower_char (c : Z) : Z :=
  if (65 <=? c) && (c <=? 90) then c + 32 else c.

Definition lower (s : str) : str := List.map lower_char s.

(** ** Text normaliser *)

Definition _ACCENT_COMBINING : list (Z * Z) :=
  [ (DQUOTE, 776)  (* diaeresis *)
  ; (39, 769)      (* ' acute *)
  ; (96, 768)      (* ` grave *)
  ; (94, 770)      (* ^ circumflex *)
  ; (126, 771)     (* ~ tilde *)
  ; (99, 807)      (* c cedilla *)
  ; (107, 808)     (* k ogonek *)
  ; (72, 779)      (* H double acute *)
  ; (114, 778)     (* r ring above *)
  ; (61, 772)      (* = macron *)
  ; (46, 775)      (* . dot above *)
  ; (117, 774)     (* u breve *)
  ; (118, 780)     (* v caron *)
  ; (100, 803)     (* d dot below *)
  ; (98, 817)      (* b macron below *)
  ].

(** [dict.get] on a table kept in its order of definition. *)
Fixpoint table_get {V} (k : Z) (t : list (Z * V)) : option V :=
  match t with
  | [] => None
  | (k', v) :: t' => if k =? k' then Some v else table_get k t'
  end.

Definition _SPECIAL_MACROS : list (str * str) :=
  [ (lit "\ss", [223]); (lit "\SS", [7838])
  ; (lit "\ae", [230]); (lit "\AE", [198])
  ; (lit "\oe", [339]); (lit "\OE", [338])
  ; (lit "\aa", [229]); (lit "\AA", [197])
  ; (lit "\o", [248]);  (lit "\O", [216])
  ; (lit "\l", [322]);  (lit "\L", [321])
  ].

Definition _DASH_QUOTES : list (str * str) :=
  [ (lit "---", [8212])  (* em dash *)
  ; (lit "--", [8211])   (* en dash *)
  ; (lit "``", [8220])
  ; (lit "''", [8221])
  ].

(** [for old, new in table: s = s.replace(old, new)] *)
Definition replace_each (table : list (str * str)) (s : str) : str :=
  fold_left (fun acc '(old, new) => replace old new acc) table s.

(** The character class of both accent patterns: the double quote, then
    the fourteen code points of the literal below. *)
Definition accent_class : str :=
  DQUOTE :: lit "'`^~ckHr=.uvdb".

(** The callback [_accent_braced(m)]: base letter, then the combining mark
    of the accent, or nothing when the table has none. *)
Definition _accent_braced (accent base : Z) : str :=
  base :: match table_get accent _ACCENT_COMBINING with
          | Some combining => [combining]
          | None => []
          end.

(** The pattern backslash, accent, open brace, letter, close brace. *)
Definition braced_pattern : matcher :=
  fun s =>
    match s with
    | b :: a :: o :: l :: c :: _ =>
        if (b =? BACKSLASH) && member a accent_class && (o =? LBRACE)
           && is_letter l && (c =? RBRACE)
        then Some (_accent_braced a l, 5%nat) else None
    | _ => None
    end.

(** The pattern backslash, accent, letter. *)
Definition unbraced_pattern : matcher :=
  fun s =>
    match s with
    | b :: a :: l :: _ =>
        if (b =? BACKSLASH) && member a accent_class && is_letter l
        then Some (_accent_braced a l, 3%nat) else None
    | _ => None
    end.

Definition special_macros (s : str) : str := replace_each _SPECIAL_MACROS s.
Definition accents_braced (s : str) : str := rewrite_from braced_pattern O s.
Definition accents_unbraced (s : str) : str := rewrite_from unbraced_pattern O s.
Definition strip_braces (s : str) : str := replace [RBRACE] [] (replace [LBRACE] [] s).
Definition dash_quotes (s : str) : str := replace_each _DASH_QUOTES s.

(** The steps of [latex_to_unicode] before the final normalisation. *)
Definition markup_steps (s : str) : str :=
  dash_quotes (strip_braces (accents_unbraced (accents_braced (special_macros s)))).

(** ** Author formatter *)

(** Length of the longest run of code points satisfying [f] at the start. *)
Fixpoint run (f : Z -> bool) (s : str) : nat :=
  match s with
  | [] => O
  | c :: t => if f c then S (run f t) else O
  end.

(** One letter of a pattern compiled with [re.IGNORECASE]; [c] is the
    lower-case ASCII letter of the pattern. *)
Definition ci (c x : Z) : bool := (x =? c) || (x =? c - 32).

(** The pattern [\s+and\s+] with [re.IGNORECASE], tried at the start of
    [s]: the length of the match.  Both runs of whitespace are greedy, and
    giving back whitespace never helps, as [a] is no whitespace. *)
Definition and_separator (s : str) : option nat :=
  let k := run is_space s in
  match k, skipn k s with
  | S _, a :: n :: d :: s' =>
      let j := run is_space s' in
      match j with
      | S _ => if ci 97 a && ci 110 n && ci 100 d then Some (k + 3 + j)%nat else None
      | O => None
      end
  | _, _ => None
  end.

(** [re.split] for a pattern that matches no empty text: the pieces between
    the non-overlapping matches found from left to right.  [cur] holds the
    current piece in reverse. *)
Fixpoint split_from (m : str -> option nat) (skip : nat) (cur : str) (s : str) : list str :=
  match s with
  | [] => [rev cur]
  | c :: t =>
      match skip with
      | S k => split_from m k cur t
      | O =>
          match m s with
          | Some n => rev cur :: split_from m (Nat.pred n) [] t
          | None => split_from m O (c :: cur) t
          end
      end
  end.

Definition re_split (m : str -> option nat) (s : str) : list str :=
  split_from m O [] s.

(** The pattern [\s+] replaced by one space. *)
Definition whitespace_run : matcher :=
  fun s => match run is_space s with
           | O => None
           | S k => Some ([32], S k)
           end.

Definition collapse_whitespace (s : str) : str :=
  rewrite_from whitespace_run O s.

(** [p.split(c, 1)] when [c] occurs in [p]: the text before the first [c]
    and the text after it. *)
Fixpoint split_once (c : Z) (p : str) : option (str * str) :=
  match p with
  | [] => None
  | x :: t =>
      if x =? c then Some ([], t)
      else match split_once c t with
           | Some (l, r) => Some (x :: l, r)
           | None => None
           end
  end.

(** [sep.join(parts)] *)
Fixpoint join (sep : str) (parts : list str) : str :=
  match parts with
  | [] => []
  | [p] => p
  | p :: rest => p ++ sep ++ join sep rest
  end.

(** [html.escape(s)], quotes included. *)
Definition escape_char (c : Z) : str :=
  if c =? 38 then lit "&amp;"
  else if c =? 60 then lit "&lt;"
  else if c =? 62 then lit "&gt;"
  else if c =? DQUOTE then lit "&quot;"
  else if c =? 39 then lit "&#x27;"
  else [c].

Definition html_escape (s : str) : str := flat_map escape_char s.

Definition NO_AUTHOR : str := lit "No author specified".
Definition NO_TITLE : str := lit "No title specified".

(** ** Records and ordering *)

Abbreviation entry := (gmap string str).

(** [entry.get(k, d)] *)
Definition get_default (e : entry) (k : string) (d : str) : str :=
  default d (e !! k).

(** [x or y] where [x] is the result of [entry.get(k)]: the field when it
    is present and not empty. *)
Definition nonempty (o : option str) : option str :=
  match o with
  | Some (c :: t) => Some (c :: t)
  | _ => None
  end.

(** Text of a value put into an f-string: [None] prints as its name. *)
Definition format_value (o : option str) : str :=
  match o with
  | Some s => s
  | None => lit "None"
  end.

(** Python's order on strings: lexicographic on code points. *)
Fixpoint str_leb (a b : str) : bool :=
  match a, b with
  | [], _ => true
  | _ :: _, [] => false
  | x :: a', y :: b' => (x <? y) || ((x =? y) && str_leb a' b')
  end.

(** The value of [_year_sort_key]: [NumericKey n] is the tuple [(0, n)] and
    [TextKey s] the tuple [(1, s)]. *)
Inductive sort_key :=
  | NumericKey (n : Z)
  | TextKey (s : str).

(** Order of the tuples: first component, then second. *)
Definition key_leb (a b : sort_key) : bool :=
  match a, b with
  | NumericKey m, NumericKey n => m <=? n
  | NumericKey _, TextKey _ => true
  | TextKey _, NumericKey _ => false
  | TextKey s, TextKey t => str_leb s t
  end.

(** [sorted(l, key=key)]: the sort is stable, so the result is the one of
    an insertion that puts an element before the first one whose key is not
    smaller. *)
Fixpoint insert_by {A K} (leb : K -> K -> bool) (key : A -> K) (x : A) (l : list A) : list A :=
  match l with
  | [] => [x]
  | y :: l' => if leb (key x) (key y) then x :: l else y :: insert_by leb key x l'
  end.

Definition sorted_by {A K} (leb : K -> K -> bool) (key : A -> K) (l : list A) : list A :=
  foldr (insert_by leb key) [] l.

(** [int(s)]: whitespace around the number is dropped (the whitespace of
    [str.strip] except the four separators U+001C to U+001F), then come an
    optional sign and decimal digits, with single underscores between
    digits.  A digit is any code point of the Unicode category Nd; these
    come in runs of ten, from the zero to the nine, and [DIGIT_ZEROS] lists
    the zeros.  A number of more than [MAX_STR_DIGITS] digits is refused
    (the default limit of CPython from 3.11 on).  [None] stands for the
    [ValueError]. *)
Definition int_space (c : Z) : bool :=
  is_space c && negb ((28 <=? c) && (c <=? 31)).

Definition DIGIT_ZEROS : list Z :=
  [ 48; 1632; 1776; 1984; 2406; 2534; 2662; 2790; 2918; 3046; 3174; 3302
  ; 3430; 3558; 3664; 3792; 3872; 4160; 4240; 6112; 6160; 6470; 6608; 6784
  ; 6800; 6992; 7088; 7232; 7248; 42528; 43216; 43264; 43472; 43504; 43600
  ; 44016; 65296; 66720; 68912; 69734; 69872; 69942; 70096; 70384; 70736
  ; 70864; 71248; 71360; 71472; 71904; 72016; 72784; 73040; 73120; 92768
  ; 92864; 93008; 120782; 120792; 120802; 120812; 120822; 123200; 123632
  ; 125264; 130032 ].

Definition digit_value (c : Z) : option Z :=
  match List.find (fun z => (z <=? c) && (c <=? z + 9)) DIGIT_ZEROS with
  | Some z => Some (c - z)
  | None => None
  end.

Fixpoint digits (acc : Z) (after_digit : bool) (s : str) : option Z :=
  match s with
  | [] => if after_digit then Some acc else None
  | c :: t =>
      if c =? 95 then (if after_digit then digits acc false t else None)
      else match digit_value c with
           | Some d => digits (10 * acc + d) true t
           | None => None
           end
  end.

Definition MAX_STR_DIGITS : nat := 4300.

Definition py_int (s : str) : option Z :=
  match strip int_space s with
  | [] => None
  | c :: t =>
      let signed := (c =? 45) || (c =? 43) in
      let body := if signed then t else c :: t in
      if Nat.ltb MAX_STR_DIGITS (length (List.filter (fun x => negb (x =? 95)) body))
      then None
      else if c =? 45 then option_map Z.opp (digits 0 false body)
           else digits 0 false body
  end.

(** [str(n)] for an integer. *)
Definition str_of_Z (n : Z) : str :=
  lit (NilZero.string_of_int (Z.to_int n)).

(** ** Grouping by year *)

Abbreviation groups := (list (str * list entry)).

(** [grouped_by_year[y].append(e)] on a [defaultdict(list)], which keeps
    its keys in the order of their first insertion. *)
Fixpoint group_add (y : str) (e : entry) (g : groups) : groups :=
  match g with
  | [] => [(y, [e])]
  | (k, es) :: g' =>
      if decide (k = y) then (k, es ++ [e]) :: g' else (k, es) :: group_add y e g'
  end.

(** [grouped_by_year[y]] for a key of the dict. *)
Fixpoint group_get (y : str) (g : groups) : list entry :=
  match g with
  | [] => []
  | (k, es) :: g' => if decide (k = y) then es else group_get y g'
  end.

Definition year_of (e : entry) : str := get_default e "year" (lit "Undated").

Definition grouped_by_year (entries : list entry) : groups :=
  fold_left (fun g e => group_add (year_of e) e g) entries [].

(** [sum(len(v) for v in grouped_by_year.values())] *)
Definition total_pubs (g : groups) : Z :=
  fold_right (fun kv acc => Z.of_nat (length (snd kv)) + acc) 0 g.

(** ** Markup *)

(** A double-quoted attribute value. *)
Definition quoted (s : str) : str := DQUOTE :: s ++ [DQUOTE].

Definition year_header (year : str) : str :=
  lit "<h3 class=" ++ quoted (lit "year-header") ++ lit ">" ++ year ++ lit "</h3>".

Definition list_open (current_number : Z) : str :=
  lit "<ol class=" ++ quoted (lit "publication-list") ++ lit " reversed start="
  ++ quoted (str_of_Z current_number) ++ lit ">".

(** The link of a record: the [url] field when not empty, overridden by a
    [doi] field that is not empty. *)
Definition link_url (e : entry) : option str :=
  let link := nonempty (e !! "url") in
  match nonempty (e !! "doi") with
  | Some doi =>
      if negb (starts_with (lit "http") (lower doi))
      then Some (lit "https://doi.org/" ++ doi)
      else Some doi
  | None => link
  end.

Definition title_html (link : option str) (title : str) : str :=
  match nonempty link with
  | Some url =>
      lit "<a class=" ++ quoted (lit "pub-title") ++ lit " href=" ++ quoted (html_escape url)
      ++ lit " target=" ++ quoted (lit "_blank") ++ lit " rel="
      ++ quoted (lit "noopener noreferrer") ++ lit ">" ++ title ++ lit "</a>"
  | None =>
      lit "<span class=" ++ quoted (lit "pub-title") ++ lit ">" ++ title ++ lit "</span>"
  end.

Definition STRIP_CHARS : str := lit " ,.".

(** ** Files and the console *)

(** The part of the machine the program touches: the files that exist, by
    path, each with its text as it is stored; for a path, the text of the
    exception that opening it for reading and decoding it as UTF-8 raises,
    if it raises one (no permission, bytes that are not UTF-8); whether a
    path can be opened for writing; how much text the device still takes
    ([None]: as much as is written); the line separator of the platform
    ([os.linesep]); for a line, the text of the exception that printing
    it raises, if it raises one (the encoding of the console has no code
    for one of its characters); the lines printed so far. *)
Record World := mkWorld {
  files : gmap string str;
  read_error : string -> option str;
  can_write : string -> bool;
  room : option nat;
  linesep : str;
  print_error : str -> option str;
  stdout : list str
}.

(** The result of a statement: it finished with a value or raised an
    exception, kept as the text [str(e)]. *)
Inductive outcome (A : Type) :=
  | Returned (a : A)
  | Raised (e : str).
Arguments Returned {A} a.
Arguments Raised {A} e.

Definition IO (A : Type) : Type := World -> World * outcome A.

#[export] Instance IO_ret : MRet IO :=
  fun A (a : A) w => (w, Returned a).

#[export] Instance IO_bind : MBind IO :=
  fun A B (k : A -> IO B) (c : IO A) w =>
    match c w with
    | (w', Returned a) => k a w'
    | (w', Raised e) => (w', Raised e)
    end.

(** [try: body / except Exception as e: handler(e)].  An exception of the
    handler is not caught. *)
Definition try_except {A} (body : IO A) (handler : str -> IO A) : IO A :=
  fun w => match body w with
           | (w', Returned a) => (w', Returned a)
           | (w', Raised e) => handler e w'
           end.

(** A value computed in memory that may raise. *)
Definition lift {A} (o : outcome A) : IO A := fun w => (w, o).

(** The texts of the errors of the operating system. *)
Definition NO_SUCH_FILE (path : string) : str :=
  lit "[Errno 2] No such file or directory: '" ++ lit path ++ lit "'".

Definition PERMISSION_DENIED (path : string) : str :=
  lit "[Errno 13] Permission denied: '" ++ lit path ++ lit "'".

Definition NO_SPACE : str := lit "[Errno 28] No space left on device".

(** Reading in text mode: a carriage return followed by a line feed, and a
    carriage return alone, are read as one line feed. *)
Definition newline_pattern : matcher :=
  fun s =>
    match s with
    | 13 :: 10 :: _ => Some ([10], 2%nat)
    | 13 :: _ => Some ([10], 1%nat)
    | _ => None
    end.

Definition universal_newlines (stored : str) : str :=
  rewrite_from newline_pattern O stored.

(** [with open(path, 'r', encoding='utf-8') as f: f.read()] *)
Definition read_text (path : string) : IO str :=
  fun w => match files w !! path with
           | None => (w, Raised (NO_SUCH_FILE path))
           | Some stored =>
               match read_error w path with
               | Some e => (w, Raised e)
               | None => (w, Returned (universal_newlines stored))
               end
           end.

Definition set_file (path : string) (text : str) (w : World) : World :=
  mkWorld (<[path := text]> (files w)) (read_error w) (can_write w) (room w)
          (linesep w) (print_error w) (stdout w).

(** [with open(path, 'w', encoding='utf-8') as f: f.write(text)].  Opening
    the file for writing empties it; the text then goes to the file with
    every line feed written as the line separator of the platform, all of
    it or, when the device is full, its first part before the error. *)
Definition write_text (path : string) (text : str) : IO unit :=
  fun w =>
    if can_write w path then
      let data := replace [10] (linesep w) text in
      let w1 := set_file path [] w in
      match room w with
      | None => (set_file path data w1, Returned tt)
      | Some k =>
          if (length data <=? k)%nat then (set_file path data w1, Returned tt)
          else (set_file path (take k data) w1, Raised NO_SPACE)
      end
    else (w, Raised (PERMISSION_DENIED path)).

(** [print(line)]: the line is encoded for the console as a whole, so a
    line that cannot be encoded raises and nothing of it is printed. *)
Definition printed (line : str) (w : World) : World :=
  mkWorld (files w) (read_error w) (can_write w) (room w) (linesep w)
          (print_error w) (stdout w ++ [line]).

Definition print (line : str) : IO unit :=
  fun w => match print_error w line with
           | Some e => (w, Raised e)
           | None => (printed line w, Returned tt)
           end.

(** ** Configuration *)

Definition BIBTEX_FILE : string := "files/references.bib".
Definition TEMPLATE_FILE : string := "publications_template.html".
Definition OUTPUT_FILE : string := "publications.html".
Definition PLACEHOLDER : str := lit "PLACEHOLDER".

(** The check mark and the cross of the two messages. *)
Definition SUCCESS_MESSAGE : str :=
  [9989] ++ lit " Success! '" ++ lit OUTPUT_FILE ++ lit "' has been updated.".

Definition failure_message (e : str) : str :=
  [10060] ++ lit " An unexpected error occurred: " ++ e.

(** One year of the page: the heading, the first number of the reversed
    list and the items of the list. *)
Record block := mkBlock {
  block_year : str;
  block_start : Z;
  block_items : list str
}.

Definition block_lines (b : block) : list str :=
  [year_header (block_year b); list_open (block_start b)]
  ++ block_items b ++ [lit "</ol>"].

Section Program.

(** [unicodedata.normalize('NFC', _)], a function of Python's library. *)
Variable nfc : str -> str.

(** The builtin [int] on text, [None] when it raises. *)
Variable int_of_str : str -> option Z.

(** [bibtexparser.load] on the text of the bibliography file: the records,
    or the exception of the parser. *)
Variable load : str -> outcome (list entry).

Definition latex_to_unicode (text : str) : str :=
  match text with
  | [] => text
  | _ :: _ => nfc (markup_steps text)
  end.

(** The body of the loop over [parts]: [None] when the part is skipped. *)
Definition format_name (p : str) : option str :=
  match strip is_space p with
  | [] => None
  | p1 =>
      let p2 := strip is_space (collapse_whitespace (latex_to_unicode p1)) in
      Some match split_once 44 p2 with
           | Some (l, r) =>
               let family := strip is_space l in
               let given := strip is_space r in
               match family, given with
               | _ :: _, _ :: _ => given ++ [32] ++ family
               | _, _ => p2
               end
           | None => p2
           end
  end.

Definition norm_parts (authors_raw : str) : list str :=
  omap format_name (re_split and_separator (strip is_space authors_raw)).

Definition format_authors (authors_raw : str) : str :=
  match authors_raw with
  | [] => NO_AUTHOR
  | _ :: _ =>
      match norm_parts authors_raw with
      | [] => NO_AUTHOR
      | names => join (lit ", ") (List.map html_escape names)
      end
  end.

(** The venue before the year is taken out of it. *)
Definition derived_venue (e : entry) : str :=
  let venue_raw :=
    match nonempty (e !! "journal") with
    | Some j => j
    | None => match nonempty (e !! "booktitle") with
              | Some b => b
              | None => []
              end
    end in
  let venue := latex_to_unicode venue_raw in
  match venue with
  | [] =>
      if decide (lower (get_default e "archivePrefix" []) = lit "arxiv")
      then lit "arXiv:" ++ format_value (e !! "eprint")
      else venue
  | _ :: _ => venue
  end.

Definition strip_year (venue entry_year : str) : str :=
  match venue, entry_year with
  | _ :: _, _ :: _ =>
      strip (fun c => member c STRIP_CHARS) (replace entry_year [] venue)
  | _, _ => venue
  end.

Definition rendered_venue (e : entry) : str :=
  html_escape (strip_year (derived_venue e) (get_default e "year" [])).

Definition render_entry (e : entry) : str :=
  let authors := format_authors (get_default e "author" NO_AUTHOR) in
  let title := html_escape (latex_to_unicode (get_default e "title" NO_TITLE)) in
  lit "<li>" ++ title_html (link_url e) title
  ++ lit "<div class=" ++ quoted (lit "pub-authors") ++ lit ">" ++ authors ++ lit "</div>"
  ++ lit "<div class=" ++ quoted (lit "pub-venue") ++ lit ">" ++ rendered_venue e
  ++ lit "</div></li>".

Definition _year_sort_key (y : str) : sort_key :=
  match int_of_str y with
  | Some n => NumericKey (- n)
  | None => TextKey y
  end.

Definition sorted_years (keys : list str) : list str :=
  sorted_by key_leb _year_sort_key keys.

Definition papers_in_year (g : groups) (year : str) : list entry :=
  sorted_by str_leb (fun x : entry => get_default x "author" []) (group_get year g).

(** The loop over [sorted_years], with [current_number] threaded through. *)
Fixpoint year_blocks (g : groups) (years : list str) (current_number : Z) : list block :=
  match years with
  | [] => []
  | year :: rest =>
      let papers := papers_in_year g year in
      mkBlock year current_number (List.map render_entry papers)
      :: year_blocks g rest (current_number - Z.of_nat (length papers))
  end.

Definition blocks_of (entries : list entry) : list block :=
  let g := grouped_by_year entries in
  year_blocks g (sorted_years (List.map fst g)) (total_pubs g).

Definition html_lines (entries : list entry) : list str :=
  flat_map block_lines (blocks_of entries).

Definition generated_content (entries : list entry) : str :=
  join [10] (html_lines entries).

(** [template_html.replace(PLACEHOLDER, generated_content)] *)
Definition output_html (entries : list entry) (template_html : str) : str :=
  replace PLACEHOLDER (generated_content entries) template_html.

Definition main : IO unit :=
  try_except
    (bibfile ← read_text BIBTEX_FILE;
     entries ← lift (load bibfile);
     template_html ← read_text TEMPLATE_FILE;
     write_text OUTPUT_FILE (output_html entries template_html);;
     print SUCCESS_MESSAGE)
    (fun e => print (failure_message e)).

End Program.

(** The numbers a browser gives to the items of a reversed list of [n]
    items that starts at [start]. *)
Definition item_numbers (start : Z) (n : nat) : list Z :=
  List.map (fun i => start - Z.of_nat i) (seq 0 n).

Definition emitted_numbers (bs : list block) : list Z :=
  flat_map (fun b => item_numbers (block_start b) (length (block_items b))) bs.

(** The number written in ASCII decimal digits at the start of the text,
    and the text after it. *)
Fixpoint leading_number (acc : Z) (seen : bool) (s : str) : option Z * str :=
  match s with
  | c :: t =>
      if (48 <=? c) && (c <=? 57) then leading_number (10 * acc + (c - 48)) true t
      else (if seen then Some acc else None, s)
  | [] => (if seen then Some acc else None, [])
  end.

(** The tag that opens a reversed list of publications, up to the value
    of its attribute [start]. *)
Definition LIST_TAG : str :=
  lit "<ol class=" ++ quoted (lit "publication-list") ++ lit " reversed start="
  ++ [DQUOTE].

(** The start number that a piece of the page gives, when the piece is the
    tag that opens a reversed list of publications. *)
Definition list_start (piece : str) : option Z :=
  if starts_with LIST_TAG piece then
    match leading_number 0 false (skipn (length LIST_TAG) piece) with
    | (Some n, rest) => if bool_decide (rest = DQUOTE :: lit ">") then Some n else None
    | (None, _) => None
    end
  else None.

(** The numbers a browser shows beside the items of the page, read from
    its top: a reversed list that starts at [n] numbers its items [n],
    [n - 1] and so on; an item outside a list has no number.  [counter] is
    the number of the next item of the list that is open, if one is. *)
Fixpoint numbered (counter : option Z) (pieces : list str) : list Z :=
  match pieces with
  | [] => []
  | piece :: rest =>
      match list_start piece with
      | Some n => numbered (Some n) rest
      | None =>
          if starts_with (lit "<li>") piece then
            match counter with
            | Some n => n :: numbered (Some (n - 1)) rest
            | None => numbered None rest
            end
          else if bool_decide (piece = lit "</ol>") then numbered None rest
          else numbered counter rest
      end
  end.

Definition page_numbers (pieces : list str) : list Z := numbered None pieces.

(** ** Canonical composition of a letter and a mark

    The pairs of an ASCII letter and one of the fifteen combining marks of
    [_ACCENT_COMBINING] that have a precomposed character in the Unicode
    Character Database, per mark: the letter, then the precomposed code
    point.  A pair that is absent has none, and NFC leaves it as it is. *)
Definition COMPOSITES : list (Z * list (Z * Z)) :=
  [ (* diaeresis *)
    (776,
     [(65, 196); (69, 203); (72, 7718); (73, 207); (79, 214); (85, 220)
      ; (87, 7812); (88, 7820); (89, 376); (97, 228); (101, 235); (104, 7719)
      ; (105, 239); (111, 246); (116, 7831); (117, 252); (119, 7813)
      ; (120, 7821); (121, 255)]);
    (* acute *)
    (769,
     [(65, 193); (67, 262); (69, 201); (71, 500); (73, 205); (75, 7728)
      ; (76, 313); (77, 7742); (78, 323); (79, 211); (80, 7764); (82, 340)
      ; (83, 346); (85, 218); (87, 7810); (89, 221); (90, 377); (97, 225)
      ; (99, 263); (101, 233); (103, 501); (105, 237); (107, 7729); (108, 314)
      ; (109, 7743); (110, 324); (111, 243); (112, 7765); (114, 341)
      ; (115, 347); (117, 250); (119, 7811); (121, 253); (122, 378)]);
    (* grave *)
    (768,
     [(65, 192); (69, 200); (73, 204); (78, 504); (79, 210); (85, 217)
      ; (87, 7808); (89, 7922); (97, 224); (101, 232); (105, 236); (110, 505)
      ; (111, 242); (117, 249); (119, 7809); (121, 7923)]);
    (* circumflex *)
    (770,
     [(65, 194); (67, 264); (69, 202); (71, 284); (72, 292); (73, 206)
      ; (74, 308); (79, 212); (83, 348); (85, 219); (87, 372); (89, 374)
      ; (90, 7824); (97, 226); (99, 265); (101, 234); (103, 285); (104, 293)
      ; (105, 238); (106, 309); (111, 244); (115, 349); (117, 251); (119, 373)
      ; (121, 375); (122, 7825)]);
    (* tilde *)
    (771,
     [(65, 195); (69, 7868); (73, 296); (78, 209); (79, 213); (85, 360)
      ; (86, 7804); (89, 7928); (97, 227); (101, 7869); (105, 297); (110, 241)
      ; (111, 245); (117, 361); (118, 7805); (121, 7929)]);
    (* cedilla *)
    (807,
     [(67, 199); (68, 7696); (69, 552); (71, 290); (72, 7720); (75, 310)
      ; (76, 315); (78, 325); (82, 342); (83, 350); (84, 354); (99, 231)
      ; (100, 7697); (101, 553); (103, 291); (104, 7721); (107, 311)
      ; (108, 316); (110, 326); (114, 343); (115, 351); (116, 355)]);
    (* ogonek *)
    (808,
     [(65, 260); (69, 280); (73, 302); (79, 490); (85, 370); (97, 261)
      ; (101, 281); (105, 303); (111, 491); (117, 371)]);
    (* double acute *)
    (779,
     [(79, 336); (85, 368); (111, 337); (117, 369)]);
    (* ring above *)
    (778,
     [(65, 197); (85, 366); (97, 229); (117, 367); (119, 7832); (121, 7833)]);
    (* macron *)
    (772,
     [(65, 256); (69, 274); (71, 7712); (73, 298); (79, 332); (85, 362)
      ; (89, 562); (97, 257); (101, 275); (103, 7713); (105, 299); (111, 333)
      ; (117, 363); (121, 563)]);
    (* dot above *)
    (775,
     [(65, 550); (66, 7682); (67, 266); (68, 7690); (69, 278); (70, 7710)
      ; (71, 288); (72, 7714); (73, 304); (77, 7744); (78, 7748); (79, 558)
      ; (80, 7766); (82, 7768); (83, 7776); (84, 7786); (87, 7814); (88, 7818)
      ; (89, 7822); (90, 379); (97, 551); (98, 7683); (99, 267); (100, 7691)
      ; (101, 279); (102, 7711); (103, 289); (104, 7715); (109, 7745)
      ; (110, 7749); (111, 559); (112, 7767); (114, 7769); (115, 7777)
      ; (116, 7787); (119, 7815); (120, 7819); (121, 7823); (122, 380)]);
    (* breve *)
    (774,
     [(65, 258); (69, 276); (71, 286); (73, 300); (79, 334); (85, 364)
      ; (97, 259); (101, 277); (103, 287); (105, 301); (111, 335); (117, 365)]);
    (* caron *)
    (780,
     [(65, 461); (67, 268); (68, 270); (69, 282); (71, 486); (72, 542)
      ; (73, 463); (75, 488); (76, 317); (78, 327); (79, 465); (82, 344)
      ; (83, 352); (84, 356); (85, 467); (90, 381); (97, 462); (99, 269)
      ; (100, 271); (101, 283); (103, 487); (104, 543); (105, 464); (106, 496)
      ; (107, 489); (108, 318); (110, 328); (111, 466); (114, 345); (115, 353)
      ; (116, 357); (117, 468); (122, 382)]);
    (* dot below *)
    (803,
     [(65, 7840); (66, 7684); (68, 7692); (69, 7864); (72, 7716); (73, 7882)
      ; (75, 7730); (76, 7734); (77, 7746); (78, 7750); (79, 7884); (82, 7770)
      ; (83, 7778); (84, 7788); (85, 7908); (86, 7806); (87, 7816); (89, 7924)
      ; (90, 7826); (97, 7841); (98, 7685); (100, 7693); (101, 7865)
      ; (104, 7717); (105, 7883); (107, 7731); (108, 7735); (109, 7747)
      ; (110, 7751); (111, 7885); (114, 7771); (115, 7779); (116, 7789)
      ; (117, 7909); (118, 7807); (119, 7817); (121, 7925); (122, 7827)]);
    (* macron below *)
    (817,
     [(66, 7686); (68, 7694); (75, 7732); (76, 7738); (78, 7752); (82, 7774)
      ; (84, 7790); (90, 7828); (98, 7687); (100, 7695); (104, 7830)
      ; (107, 7733); (108, 7739); (110, 7753); (114, 7775); (116, 7791)
      ; (122, 7829)])
  ].

Definition canonical_composite (l m : Z) : option Z :=
  match table_get m COMPOSITES with
  | Some row => table_get l row
  | None => None
  end.

(** What NFC makes of a letter followed by a mark. *)
Definition precomposed (l m : Z) : str :=
  match canonical_composite l m with
  | Some c => [c]
  | None => [l; m]
  end.

(** [nfc] composes a letter and a mark as the database says. *)
Definition composes_pairs (nfc : str -> str) : Prop :=
  forall l m, is_letter l = true -> In m (List.map snd _ACCENT_COMBINING) ->
    nfc [l; m] = precomposed l m.

(** NFC on text in which every mark of the table follows an ASCII letter
    and no letter carries two marks: each such pair is composed, all else
    is kept. *)
Definition compose_pattern : matcher :=
  fun s =>
    match s with
    | l :: m :: _ =>
        match canonical_composite l m with
        | Some c => Some ([c], 2%nat)
        | None => None
        end
    | _ => None
    end.

Definition nfc_letters (s : str) : str := rewrite_from compose_pattern O s.

(** The two forms of an accent command. *)
Definition braced_form (accent letter : Z) : str :=
  [BACKSLASH; accent; LBRACE; letter; RBRACE].

Definition unbraced_form (accent letter : Z) : str :=
  [BACKSLASH; accent; letter].

Definition LETTERS : str :=
  List.map Z.of_nat (seq 65 26 ++ seq 97 26).

(** ** Notions of the specification *)

(** The text begins with the name of the HTTP or the HTTPS scheme, upper and
    lower case taken as the same. *)
Definition http_scheme_prefix (d : str) : Prop :=
  exists p rest, d = p ++ rest /\ (lower p = lit "http" \/ lower p = lit "https").

(** A separator of names: the word [and], in any case, with whitespace on
    both sides. *)
Definition name_separator (sep : str) : Prop :=
  exists w1 w w2,
    sep = w1 ++ w ++ w2
    /\ w1 <> [] /\ w2 <> []
    /\ Forall (fun c => is_space c = true) w1
    /\ Forall (fun c => is_space c = true) w2
    /\ lower w = lit "and".

(** The pieces put back together with the separators between them. *)
Fixpoint weave (parts seps : list str) : str :=
  match parts, seps with
  | p :: ps, s :: ss => p ++ s ++ weave ps ss
  | p :: _, [] => p
  | [], _ => []
  end.

(** [x] may come before [y] in a list sorted by [key]. *)
Definition ordered_by {A K} (leb : K -> K -> bool) (key : A -> K) (x y : A) : Prop :=
  leb (key x) (key y) = true.

(** Reading the file fails with the exception of text [e]: the file is
    missing, or it is there and cannot be read or decoded. *)
Inductive read_failure (w : World) (path : string) : str -> Prop :=
  | file_missing :
      files w !! path = None -> read_failure w path (NO_SUCH_FILE path)
  | file_unreadable stored e :
      files w !! path = Some stored -> read_error w path = Some e ->
      read_failure w path e.

(** Reading the file gives [text]. *)
Definition reads (w : World) (path : string) (text : str) : Prop :=
  exists stored,
    files w !! path = Some stored /\ read_error w path = None
    /\ text = universal_newlines stored.

(** The failures of the run that come before any text goes to the output
    file: the bibliography cannot be read, the parser raises, the template
    cannot be read, the output file cannot be opened.  The text is that of
    the exception. *)
Inductive fails_before_write (load : str -> outcome (list entry)) (w : World) : str -> Prop :=
  | input_unreadable e :
      read_failure w BIBTEX_FILE e ->
      fails_before_write load w e
  | input_malformed bibfile e :
      reads w BIBTEX_FILE bibfile -> load bibfile = Raised e ->
      fails_before_write load w e
  | template_unreadable bibfile entries e :
      reads w BIBTEX_FILE bibfile -> load bibfile = Returned entries ->
      read_failure w TEMPLATE_FILE e ->
      fails_before_write load w e
  | output_unwritable bibfile entries template_html :
      reads w BIBTEX_FILE bibfile -> load bibfile = Returned entries ->
      reads w TEMPLATE_FILE template_html ->
      can_write w OUTPUT_FILE = false ->
      fails_before_write load w (PERMISSION_DENIED OUTPUT_FILE).

(** What the handler of the run does with the exception of text [e]: the
    failure line is printed and the run returns, or printing it raises,
    nothing is printed and that exception leaves the run. *)
Definition reported (e : str) (w : World) : World * outcome unit :=
  match print_error w (failure_message e) with
  | None => (printed (failure_message e) w, Returned tt)
  | Some x => (w, Raised x)
  end.

(** What the run does once the output file is written: the success line
    is printed, or printing it raises and the handler gets that
    exception. *)
Definition completed (w : World) : World * outcome unit :=
  match print_error w SUCCESS_MESSAGE with
  | None => (printed SUCCESS_MESSAGE w, Returned tt)
  | Some x => reported x w
  end.

(** The device takes the whole text. *)
Definition fits (w : World) (text : str) : Prop :=
  match room w with
  | None => True
  | Some k => (length text <= k)%nat
  end.

(** ** Records as the parser gives them

    The records come from [bibtexparser.load], a library that is not part
    of the program.  It files every field of an entry under its name in
    lower case, whatever the case of the name in the bibliography file,
    and adds the two keys [ENTRYTYPE] and [ID]. *)
Definition upper_ascii (a : ascii) : bool :=
  (65 <=? Z.of_N (N_of_ascii a)) && (Z.of_N (N_of_ascii a) <=? 90).

Fixpoint has_upper (k : string) : bool :=
  match k with
  | EmptyString => false
  | String a k' => upper_ascii a || has_upper k'
  end.

Definition parsed_key (k : string) : bool :=
  String.eqb k "ENTRYTYPE" || String.eqb k "ID" || negb (has_upper k).

Definition parsed_record (e : entry) : bool :=
  forallb (fun kv => parsed_key (fst kv)) (map_to_list e).

(** ** The macro step as one scan *)

(** The first entry of the table, in its order, that occurs at the start of
    the text. *)
Fixpoint first_match (table : list (str * str)) : matcher :=
  fun s =>
    match table with
    | [] => None
    | (old, new) :: rest =>
        if starts_with old s then Some (new, length old) else first_match rest s
    end.

(** One pass over the text that, at each position, replaces the first
    entry of the table that occurs there. *)
Definition scan (table : list (str * str)) (s : str) : str :=
  rewrite_from (first_match table) O s.

Definition macro_scan (s : str) : str := scan _SPECIAL_MACROS s.

(** A macro is a backslash and letters; what replaces it holds neither a
    backslash nor a letter, and is not empty. *)
Definition macro_entry (e : str * str) : bool :=
  match fst e with
  | b :: w => (b =? BACKSLASH) && forallb is_letter w
  | [] => false
  end
  && match snd e with
     | [] => false
     | new => forallb (fun c => negb (is_letter c) && negb (c =? BACKSLASH)) new
     end.

(** No entry comes after an entry that is a prefix of it, so the first
    entry that occurs at a position is the longest one. *)
Fixpoint no_shadowing (table : list (str * str)) : bool :=
  match table with
  | [] => true
  | (old, _) :: rest =>
      forallb (fun e => negb (starts_with old (fst e))) rest && no_shadowing rest
  end.

(** The counter of the loop: every list starts at the counter, which then
    goes down by the number of items of the list. *)
Fixpoint counter_threaded (current_number : Z) (bs : list block) : Prop :=
  match bs with
  | [] => True
  | b :: rest =>
      block_start b = current_number
      /\ counter_threaded (current_number - Z.of_nat (length (block_items b))) rest
  end.

(** ** Notions for the further properties *)

(** A code point that starts no macro, accent command, dash or quote. *)
Definition quiet (c : Z) : bool :=
  negb ((c =? BACKSLASH) || (c =? 45) || (c =? 96) || (c =? 39)).

(** The text without its braces. *)
Definition unbrace (s : str) : str :=
  List.filter (fun c => negb ((c =? LBRACE) || (c =? RBRACE))) s.

(** A code point that is not markup in HTML text or in a quoted attribute:
    none of the less-than sign, the greater-than sign and the two
    quotes. *)
Definition no_markup (c : Z) : Prop :=
  c <> 60 /\ c <> 62 /\ c <> DQUOTE /\ c <> 39.

(** What a run of [n] hyphens becomes: an em dash for every three, then an
    en dash for two left over or the hyphen left over. *)
Definition dashes (n : nat) : str :=
  repeat 8212 (n / 3)
  ++ match (n mod 3)%nat with
     | O => []
     | S O => [45]
     | _ => [8211]
     end.

(** [text.split('\n')]: the lines of a text. *)
Definition line_feed : str -> option nat :=
  fun s => match s with
           | 10 :: _ => Some 1%nat
           | _ => None
           end.

Definition lines (text : str) : list str := re_split line_feed text.

(** * Properties *)

(** ** Text *)

Lemma member_In (c : Z) (s : str) : member c s = true <-> In c s.
Proof.
  unfold member. rewrite existsb_exists. split.
  - intros (x & Hx & Heq). apply Z.eqb_eq in Heq. now subst.
  - intros H. exists c. split; [assumption | apply Z.eqb_refl].
Qed.

Lemma is_letter_bounds (l : Z) :
  is_letter l = true <-> (65 <= l <= 90 \/ 97 <= l <= 122).
Proof. unfold is_letter. lia. Qed.

Lemma is_letter_LETTERS (l : Z) : is_letter l = true -> In l LETTERS.
Proof.
  rewrite is_letter_bounds. intros H. unfold LETTERS.
  apply in_map_iff. exists (Z.to_nat l). split; [lia |].
  apply in_app_iff. rewrite !in_seq. lia.
Qed.

Lemma rewrite_from_skip (m : matcher) (k : nat) (s : str) :
  rewrite_from m k s = rewrite_from m O (skipn k s).
Proof.
  revert s. induction k as [| k IH]; intros [| c t]; simpl; auto.
Qed.

(** ** Accent commands *)

(** Every accent of the class has its mark in the table. *)
Lemma accent_class_has_mark (a : Z) :
  member a accent_class = true ->
  exists m, table_get a _ACCENT_COMBINING = Some m /\ In m (List.map snd _ACCENT_COMBINING).
Proof.
  rewrite member_In. intros H.
  repeat (destruct H as [<- | H]; [eexists; split; [reflexivity | simpl; tauto] |]).
  destruct H.
Qed.

(** Both forms of every accent command, run through each step. *)
Lemma accent_forms_checked :
  forallb (fun a =>
    forallb (fun l =>
      match table_get a _ACCENT_COMBINING with
      | Some m =>
          bool_decide (special_macros (braced_form a l) = braced_form a l)
          && bool_decide (special_macros (unbraced_form a l) = unbraced_form a l)
          && bool_decide (accents_braced (braced_form a l) = [l; m])
          && bool_decide (accents_unbraced [l; m] = [l; m])
          && bool_decide (accents_braced (unbraced_form a l) = unbraced_form a l)
          && bool_decide (accents_unbraced (unbraced_form a l) = [l; m])
          && bool_decide (markup_steps (braced_form a l) = [l; m])
          && bool_decide (markup_steps (unbraced_form a l) = [l; m])
      | None => false
      end) LETTERS) accent_class = true.
Proof. vm_compute. reflexivity. Qed.

(** C1: for every accent of the supported set and every ASCII letter, the
    braced and the unbraced command give the same text, namely the letter
    composed with the mark of the accent: the precomposed character when
    the database has one, the letter and the mark otherwise.  Neither form
    is processed twice: the braced pass leaves the unbraced command alone,
    the unbraced pass leaves the result of the braced pass alone, and the
    macro step touches neither.  The diaeresis on O gives U+00D6 in both
    forms. *)
Theorem accent_forms_agree (nfc : str -> str) (a l : Z) :
  composes_pairs nfc ->
  member a accent_class = true ->
  is_letter l = true ->
  exists m,
    table_get a _ACCENT_COMBINING = Some m
    /\ latex_to_unicode nfc (braced_form a l) = latex_to_unicode nfc (unbraced_form a l)
    /\ latex_to_unicode nfc (braced_form a l) = precomposed l m
    /\ latex_to_unicode nfc (unbraced_form a l) = precomposed l m
    /\ special_macros (braced_form a l) = braced_form a l
    /\ special_macros (unbraced_form a l) = unbraced_form a l
    /\ accents_braced (braced_form a l) = [l; m]
    /\ accents_unbraced (accents_braced (braced_form a l)) = accents_braced (braced_form a l)
    /\ accents_braced (unbraced_form a l) = unbraced_form a l
    /\ accents_unbraced (unbraced_form a l) = [l; m]
    /\ latex_to_unicode nfc (braced_form DQUOTE 79) = [214]
    /\ latex_to_unicode nfc (unbraced_form DQUOTE 79) = [214].
Proof.
  intros Hnfc Ha Hl.
  destruct (accent_class_has_mark a Ha) as (m & Hm & Hin).
  pose proof accent_forms_checked as Hall.
  rewrite forallb_forall in Hall. specialize (Hall a (proj1 (member_In _ _) Ha)).
  rewrite forallb_forall in Hall. specialize (Hall l (is_letter_LETTERS l Hl)).
  rewrite Hm in Hall.
  rewrite !andb_true_iff, !bool_decide_eq_true in Hall.
  destruct Hall as (((((((E1 & E2) & E3) & E4) & E5) & E6) & E7) & E8).
  assert (Hb : latex_to_unicode nfc (braced_form a l) = precomposed l m).
  { change (nfc (markup_steps (braced_form a l)) = precomposed l m).
    rewrite E7. now apply Hnfc. }
  assert (Hu : latex_to_unicode nfc (unbraced_form a l) = precomposed l m).
  { change (nfc (markup_steps (unbraced_form a l)) = precomposed l m).
    rewrite E8. now apply Hnfc. }
  exists m. repeat split; try congruence.
  - unfold latex_to_unicode, braced_form.
    change (nfc (markup_steps (braced_form DQUOTE 79)) = [214]).
    replace (markup_steps (braced_form DQUOTE 79)) with [79; 776] by (vm_compute; reflexivity).
    rewrite Hnfc; [reflexivity | reflexivity | simpl; tauto].
  - unfold latex_to_unicode, unbraced_form.
    change (nfc (markup_steps (unbraced_form DQUOTE 79)) = [214]).
    replace (markup_steps (unbraced_form DQUOTE 79)) with [79; 776] by (vm_compute; reflexivity).
    rewrite Hnfc; [reflexivity | reflexivity | simpl; tauto].
Qed.

Lemma nfc_letters_composes_pairs : composes_pairs nfc_letters.
Proof.
  intros l m _ _. unfold nfc_letters, precomposed. simpl.
  destruct (canonical_composite l m); reflexivity.
Qed.

Lemma accent_forms_agree_witness :
  exists m,
    table_get DQUOTE _ACCENT_COMBINING = Some m
    /\ latex_to_unicode nfc_letters (braced_form DQUOTE 79)
       = latex_to_unicode nfc_letters (unbraced_form DQUOTE 79)
    /\ latex_to_unicode nfc_letters (braced_form DQUOTE 79) = precomposed 79 m
    /\ latex_to_unicode nfc_letters (unbraced_form DQUOTE 79) = precomposed 79 m
    /\ special_macros (braced_form DQUOTE 79) = braced_form DQUOTE 79
    /\ special_macros (unbraced_form DQUOTE 79) = unbraced_form DQUOTE 79
    /\ accents_braced (braced_form DQUOTE 79) = [79; m]
    /\ accents_unbraced (accents_braced (braced_form DQUOTE 79))
       = accents_braced (braced_form DQUOTE 79)
    /\ accents_braced (unbraced_form DQUOTE 79) = unbraced_form DQUOTE 79
    /\ accents_unbraced (unbraced_form DQUOTE 79) = [79; m]
    /\ latex_to_unicode nfc_letters (braced_form DQUOTE 79) = [214]
    /\ latex_to_unicode nfc_letters (unbraced_form DQUOTE 79) = [214].
Proof.
  apply (accent_forms_agree nfc_letters DQUOTE 79).
  - exact nfc_letters_composes_pairs.
  - reflexivity.
  - reflexivity.
Defined.

(** ** Links *)

Lemma starts_with_app (p s : str) : starts_with p (p ++ s) = true.
Proof. induction p as [| a p IH]; simpl; [reflexivity |]. now rewrite Z.eqb_refl. Qed.

Lemma starts_with_prefix (p s : str) :
  starts_with p s = true <-> exists r, s = p ++ r.
Proof.
  split.
  - revert s. induction p as [| a p IH]; intros s H.
    + now exists s.
    + destruct s as [| b s]; [discriminate |]. simpl in H.
      apply andb_true_iff in H. destruct H as [Hab H].
      apply Z.eqb_eq in Hab. subst b.
      destruct (IH s H) as [r ->]. now exists r.
  - intros [r ->]. apply starts_with_app.
Qed.

(** The test of the program on a DOI is the test of the specification. *)
Lemma http_test_scheme_prefix (d : str) :
  starts_with (lit "http") (lower d) = true <-> http_scheme_prefix d.
Proof.
  split.
  - intros H.
    destruct d as [| c1 [| c2 [| c3 [| c4 rest]]]]; cbn in H;
      rewrite ?andb_false_r in H; try discriminate.
    exists [c1; c2; c3; c4], rest. split; [reflexivity |]. left.
    repeat (apply andb_true_iff in H; destruct H as [?%Z.eqb_eq H]).
    cbn. congruence.
  - intros (p & rest & -> & [H | H]); unfold lower in *;
      rewrite map_app, H; reflexivity.
Qed.

Lemma link_url_doi (e : entry) (d : str) :
  e !! "doi" = Some d -> d <> [] ->
  link_url e = if starts_with (lit "http") (lower d) then Some d
               else Some (lit "https://doi.org/" ++ d).
Proof.
  intros Hd Hne. unfold link_url. rewrite Hd.
  destruct d as [| c t]; [congruence |]. cbn [nonempty].
  destruct (starts_with (lit "http") (lower (c :: t))); reflexivity.
Qed.

(** C2: when the doi field is present and not empty it alone decides the
    link, whatever the url field holds: a doi that begins with the HTTP(S)
    scheme name, in any case, is the link itself, and any other doi is put
    after https://doi.org/.  With url http://example.com and doi 10.1/x the
    link is https://doi.org/10.1/x. *)
Theorem doi_overrides_url (e : entry) (d : str) :
  e !! "doi" = Some d -> d <> [] ->
  (http_scheme_prefix d -> link_url e = Some d)
  /\ (~ http_scheme_prefix d -> link_url e = Some (lit "https://doi.org/" ++ d))
  /\ (forall u, link_url (<["url" := u]> e) = link_url e)
  /\ link_url {[ "url" := lit "http://example.com"; "doi" := lit "10.1/x" ]}
     = Some (lit "https://doi.org/10.1/x").
Proof.
  intros Hd Hne. pose proof (link_url_doi e d Hd Hne) as Hlink.
  pose proof (http_test_scheme_prefix d) as Htest.
  split; [| split; [| split]].
  - intros Hs. apply Htest in Hs. now rewrite Hs in Hlink.
  - intros Hs. destruct (starts_with (lit "http") (lower d)); [| assumption].
    exfalso. apply Hs, Htest. reflexivity.
  - intros u. rewrite Hlink. apply link_url_doi; [| assumption].
    rewrite lookup_insert_ne; [assumption | discriminate].
  - reflexivity.
Qed.

Lemma doi_overrides_url_witness :
  let e : entry := {[ "url" := lit "http://example.com"; "doi" := lit "HTTPS://doi.org/10.1/x" ]} in
  let d := lit "HTTPS://doi.org/10.1/x" in
  (http_scheme_prefix d -> link_url e = Some d)
  /\ (~ http_scheme_prefix d -> link_url e = Some (lit "https://doi.org/" ++ d))
  /\ (forall u, link_url (<["url" := u]> e) = link_url e)
  /\ link_url {[ "url" := lit "http://example.com"; "doi" := lit "10.1/x" ]}
     = Some (lit "https://doi.org/10.1/x").
Proof.
  apply (doi_overrides_url
           {[ "url" := lit "http://example.com"; "doi" := lit "HTTPS://doi.org/10.1/x" ]}
           (lit "HTTPS://doi.org/10.1/x")).
  - reflexivity.
  - discriminate.
Defined.

(** ** Sorting *)

Section Sorting.
Context {A K : Type} (leb : K -> K -> bool) (key : A -> K).
Hypothesis leb_total : forall a b, leb a b = true \/ leb b a = true.
Hypothesis leb_trans : forall a b c, leb a b = true -> leb b c = true -> leb a c = true.

Lemma insert_by_Permutation (x : A) (l : list A) :
  Permutation (x :: l) (insert_by leb key x l).
Proof.
  induction l as [| y l IH]; simpl; [reflexivity |].
  destruct (leb (key x) (key y)); [reflexivity |].
  rewrite perm_swap. now constructor.
Qed.

Lemma sorted_by_Permutation (l : list A) : Permutation l (sorted_by leb key l).
Proof.
  induction l as [| x l IH]; simpl; [reflexivity |].
  rewrite <- insert_by_Permutation. now constructor.
Qed.

Lemma sorted_by_length (l : list A) : length (sorted_by leb key l) = length l.
Proof. symmetry. apply Permutation_length, sorted_by_Permutation. Qed.

Lemma insert_by_sorted (x : A) (l : list A) :
  StronglySorted (ordered_by leb key) l -> StronglySorted (ordered_by leb key) (insert_by leb key x l).
Proof.
  induction 1 as [| y l Hs IH Hall]; simpl.
  - repeat constructor.
  - destruct (leb (key x) (key y)) eqn:Hxy.
    + constructor; [now constructor |]. constructor; [assumption |].
      eapply Forall_impl; [exact Hall |]. intros z Hz. unfold ordered_by in *. eauto.
    + constructor; [assumption |].
      rewrite <- insert_by_Permutation. constructor; [| assumption].
      unfold ordered_by. destruct (leb_total (key x) (key y)); congruence.
Qed.

Lemma sorted_by_sorted (l : list A) : StronglySorted (ordered_by leb key) (sorted_by leb key l).
Proof.
  induction l as [| x l IH]; simpl; [constructor | now apply insert_by_sorted].
Qed.
End Sorting.

Lemma str_leb_total (a b : str) : str_leb a b = true \/ str_leb b a = true.
Proof.
  revert b. induction a as [| x a IH]; intros [| y b]; simpl; auto.
  destruct (IH b) as [H | H]; rewrite H; lia.
Qed.

Lemma str_leb_trans (a b c : str) :
  str_leb a b = true -> str_leb b c = true -> str_leb a c = true.
Proof.
  revert b c. induction a as [| x a IH]; intros [| y b] [| z c]; simpl; try congruence.
  intros H1 H2.
  apply orb_true_iff in H1. apply orb_true_iff in H2. apply orb_true_iff.
  rewrite andb_true_iff in *.
  destruct H1 as [H1 | [H1 H1']], H2 as [H2 | [H2 H2']]; try (left; lia).
  right. split; [lia | eauto].
Qed.

Lemma key_leb_total (a b : sort_key) : key_leb a b = true \/ key_leb b a = true.
Proof. destruct a, b; simpl; auto using str_leb_total; lia. Qed.

Lemma key_leb_trans (a b c : sort_key) :
  key_leb a b = true -> key_leb b c = true -> key_leb a c = true.
Proof.
  destruct a, b, c; simpl; try congruence; try lia. apply str_leb_trans.
Qed.

(** A list sorted by the key of the program is its numeric part, by
    falling value, followed by its other part, by rising text. *)
Lemma year_key_sorted_split (int_of_str : str -> option Z) (r : list str) :
  StronglySorted (ordered_by key_leb (_year_sort_key int_of_str)) r ->
  exists nums texts,
    r = nums ++ texts
    /\ Forall (fun y => is_Some (int_of_str y)) nums
    /\ Forall (fun y => int_of_str y = None) texts
    /\ StronglySorted (fun x y => forall m n,
           int_of_str x = Some m -> int_of_str y = Some n -> n <= m) nums
    /\ StronglySorted (fun x y => str_leb x y = true) texts.
Proof.
  induction 1 as [| y r Hs IH Hall].
  - exists [], []. repeat split; constructor.
  - destruct IH as (nums & texts & -> & Hn & Ht & Sn & St).
    unfold ordered_by, _year_sort_key in Hall.
    destruct (int_of_str y) as [v |] eqn:Hy.
    + exists (y :: nums), texts. repeat split; try assumption.
      * constructor; [eauto | assumption].
      * constructor; [assumption |].
        apply Forall_app in Hall. destruct Hall as [Hall _].
        eapply Forall_impl; [exact Hall |].
        intros z Hz m n Hm Hzn. simpl in Hz. rewrite Hzn in Hz.
        assert (m = v) by congruence. simpl in Hz. lia.
    + destruct nums as [| z nums].
      * exists [], (y :: texts). repeat split; try assumption; try constructor;
          try assumption.
        simpl in Hall. apply Forall_forall. intros z Hin.
        rewrite Forall_forall in Hall, Ht. specialize (Hall z Hin).
        rewrite (Ht z Hin) in Hall. exact Hall.
      * exfalso. inversion Hall as [| ? ? Hz _]; subst.
        inversion Hn as [| ? ? [v Hv] _]; subst. rewrite Hv in Hz. discriminate.
Qed.

(** C4: the sorted keys are the keys that parse as integers, by falling
    value, followed by the other keys, by rising text; they are the given
    keys in another order.  The keys 2021, 2023, Undated, 2022 come out as
    2023, 2022, 2021, Undated. *)
Theorem year_keys_order (int_of_str : str -> option Z) (keys : list str) :
  (exists nums texts,
      sorted_years int_of_str keys = nums ++ texts
      /\ Forall (fun y => is_Some (int_of_str y)) nums
      /\ Forall (fun y => int_of_str y = None) texts
      /\ StronglySorted (fun x y => forall m n,
             int_of_str x = Some m -> int_of_str y = Some n -> n <= m) nums
      /\ StronglySorted (fun x y => str_leb x y = true) texts)
  /\ Permutation keys (sorted_years int_of_str keys)
  /\ sorted_years py_int [lit "2021"; lit "2023"; lit "Undated"; lit "2022"]
     = [lit "2023"; lit "2022"; lit "2021"; lit "Undated"].
Proof.
  split; [| split].
  - apply year_key_sorted_split. unfold sorted_years.
    apply (sorted_by_sorted key_leb (_year_sort_key int_of_str));
      [apply key_leb_total | apply key_leb_trans].
  - apply sorted_by_Permutation.
  - vm_compute. reflexivity.
Qed.

(** ** Grouping and numbering *)

Lemma group_add_keys (y : str) (e : entry) (g : groups) :
  List.map fst (group_add y e g)
  = if bool_decide (y ∈ List.map fst g) then List.map fst g
    else List.map fst g ++ [y].
Proof.
  induction g as [| [k es] g IH]; cbn [group_add List.map fst].
  - rewrite bool_decide_eq_false_2; [reflexivity | apply not_elem_of_nil].
  - destruct (decide (k = y)) as [-> | Hne]; cbn [List.map fst].
    + rewrite bool_decide_eq_true_2; [reflexivity | apply list_elem_of_here].
    + rewrite IH. destruct (bool_decide (y ∈ List.map fst g)) eqn:Hin.
      * apply bool_decide_eq_true_1 in Hin.
        rewrite bool_decide_eq_true_2; [reflexivity | now apply list_elem_of_further].
      * apply bool_decide_eq_false_1 in Hin.
        rewrite bool_decide_eq_false_2; [reflexivity |].
        rewrite elem_of_cons. intros [-> | H]; [now apply Hne | now apply Hin].
Qed.

Lemma group_add_NoDup (y : str) (e : entry) (g : groups) :
  NoDup (List.map fst g) -> NoDup (List.map fst (group_add y e g)).
Proof.
  intros Hnd. rewrite group_add_keys.
  destruct (bool_decide (y ∈ List.map fst g)) eqn:Hin; [assumption |].
  apply bool_decide_eq_false_1 in Hin.
  apply NoDup_app. repeat split; [assumption | | apply NoDup_singleton].
  intros x Hx Hy. apply list_elem_of_singleton in Hy. now subst x.
Qed.

Lemma group_add_total (y : str) (e : entry) (g : groups) :
  total_pubs (group_add y e g) = total_pubs g + 1.
Proof.
  induction g as [| [k es] g IH]; simpl; [reflexivity |].
  destruct (decide (k = y)); simpl.
  - rewrite length_app. simpl. lia.
  - rewrite IH. lia.
Qed.

Lemma grouped_by_year_invariant (entries : list entry) (g : groups) :
  NoDup (List.map fst g) ->
  NoDup (List.map fst (fold_left (fun g e => group_add (year_of e) e g) entries g))
  /\ total_pubs (fold_left (fun g e => group_add (year_of e) e g) entries g)
     = total_pubs g + Z.of_nat (length entries).
Proof.
  revert g. induction entries as [| e entries IH]; intros g Hnd; simpl.
  - split; [assumption | lia].
  - destruct (IH (group_add (year_of e) e g) (group_add_NoDup _ _ _ Hnd)) as [H1 H2].
    split; [assumption |]. rewrite H2, group_add_total. lia.
Qed.

(** Every record lands in one group: the groups hold as many records as
    were read, and no year has two groups. *)
Lemma grouped_by_year_total (entries : list entry) :
  NoDup (List.map fst (grouped_by_year entries))
  /\ total_pubs (grouped_by_year entries) = Z.of_nat (length entries).
Proof.
  destruct (grouped_by_year_invariant entries [] (NoDup_nil_2)) as [H1 H2].
  split; [exact H1 | exact H2].
Qed.

(** The sizes of the groups of the given years, added up. *)
Lemma group_sizes_keys (g : groups) :
  NoDup (List.map fst g) ->
  Z.of_nat (sum_list_with (fun y => length (group_get y g)) (List.map fst g)) = total_pubs g.
Proof.
  induction g as [| [k es] g IH]; simpl; [reflexivity |].
  intros Hnd. apply NoDup_cons in Hnd. destruct Hnd as [Hk Hnd'].
  rewrite decide_True by reflexivity.
  rewrite <- (IH Hnd'). rewrite Nat2Z.inj_add. f_equal. f_equal.
  clear IH Hnd'. induction (List.map fst g) as [| y ys IHy]; simpl; [reflexivity |].
  rewrite decide_False by (intros ->; apply Hk; apply list_elem_of_here).
  rewrite IHy; [reflexivity |]. intros Hin. apply Hk. now apply list_elem_of_further.
Qed.

Lemma map_seq_shift (c : Z) (k n i : nat) :
  List.map (fun j => c + Z.of_nat k - Z.of_nat j) (seq (k + i) n)
  = List.map (fun j => c - Z.of_nat j) (seq i n).
Proof.
  revert i. induction n as [| n IH]; intros i; simpl; [reflexivity |].
  f_equal; [lia |].
  replace (S (k + i)) with (k + S i)%nat by lia. apply IH.
Qed.

Lemma item_numbers_app (n k : nat) :
  item_numbers (Z.of_nat (k + n)) (k + n)
  = item_numbers (Z.of_nat (k + n)) k ++ item_numbers (Z.of_nat n) n.
Proof.
  unfold item_numbers. rewrite seq_app, List.map_app. f_equal.
  rewrite <- (map_seq_shift (Z.of_nat n) k n 0), Nat.add_0_r.
  apply map_ext. intros j. lia.
Qed.

Lemma year_blocks_numbers (nfc : str -> str) (g : groups) (years : list str) :
  let total := sum_list_with (fun y => length (group_get y g)) years in
  emitted_numbers (year_blocks nfc g years (Z.of_nat total))
  = item_numbers (Z.of_nat total) total.
Proof.
  induction years as [| y years IH]; [reflexivity |].
  cbn [sum_list_with year_blocks emitted_numbers flat_map block_start block_items].
  unfold papers_in_year. rewrite length_map, sorted_by_length.
  fold (emitted_numbers (year_blocks nfc g years
    (Z.of_nat (length (group_get y g) + sum_list_with (fun y => length (group_get y g)) years)
     - Z.of_nat (length (group_get y g))))).
  replace (Z.of_nat (length (group_get y g) + sum_list_with (fun y => length (group_get y g)) years)
           - Z.of_nat (length (group_get y g)))
    with (Z.of_nat (sum_list_with (fun y => length (group_get y g)) years)) by lia.
  cbn zeta in IH. rewrite IH. symmetry. apply item_numbers_app.
Qed.

Lemma year_blocks_years (nfc : str -> str) (g : groups) (years : list str) (c : Z) :
  List.map block_year (year_blocks nfc g years c) = years.
Proof.
  revert c. induction years as [| y years IH]; intros c; simpl; [reflexivity |].
  now rewrite IH.
Qed.

Lemma year_blocks_threaded (nfc : str -> str) (g : groups) (years : list str) (c : Z) :
  counter_threaded c (year_blocks nfc g years c).
Proof.
  revert c. induction years as [| y years IH]; intros c; [exact I |].
  cbn [year_blocks counter_threaded block_start block_items].
  split; [reflexivity |]. rewrite length_map. apply IH.
Qed.

Lemma item_numbers_range (t : nat) (n : Z) :
  In n (item_numbers (Z.of_nat t) t) <-> 1 <= n <= Z.of_nat t.
Proof.
  unfold item_numbers. rewrite in_map_iff. split.
  - intros (i & <- & Hi). apply in_seq in Hi. lia.
  - intros H. exists (Z.to_nat (Z.of_nat t - n)). split; [lia |]. apply in_seq. lia.
Qed.

Lemma item_numbers_NoDup (start : Z) (t : nat) : NoDup (item_numbers start t).
Proof.
  unfold item_numbers. apply NoDup_fmap_2_strong; [| apply NoDup_seq].
  intros i j _ _ H. lia.
Qed.

(** *** The numbers as the page shows them *)

Lemma leading_number_digit (acc : Z) (seen : bool) (a : ascii) (t : string) (r : str) :
  48 <= Z.of_N (N_of_ascii a) <= 57 ->
  leading_number acc seen (lit (String a t) ++ r)
  = leading_number (10 * acc + (Z.of_N (N_of_ascii a) - 48)) true (lit t ++ r).
Proof.
  intros H. change (lit (String a t)) with (Z.of_N (N_of_ascii a) :: lit t).
  cbn [app leading_number].
  replace (48 <=? Z.of_N (N_of_ascii a)) with true by (symmetry; apply Z.leb_le; lia).
  replace (Z.of_N (N_of_ascii a) <=? 57) with true by (symmetry; apply Z.leb_le; lia).
  reflexivity.
Qed.

Lemma leading_number_acc (u : Decimal.uint) (p : positive) (r : str) :
  leading_number (Z.pos p) true (lit (NilEmpty.string_of_uint u) ++ DQUOTE :: r)
  = (Some (Z.pos (Pos.of_uint_acc u p)), DQUOTE :: r).
Proof.
  revert p. induction u as [| u IH | u IH | u IH | u IH | u IH | u IH | u IH | u IH | u IH | u IH];
    intros p; [reflexivity | ..];
    cbn [NilEmpty.string_of_uint Pos.of_uint_acc];
    rewrite leading_number_digit by (vm_compute; split; discriminate);
    rewrite <- IH; f_equal;
    match goal with
    | |- context [Z.of_N (N_of_ascii ?a)] =>
        let v := eval vm_compute in (Z.of_N (N_of_ascii a)) in
        change (Z.of_N (N_of_ascii a)) with v
    end; lia.
Qed.

Lemma leading_number_uint (u : Decimal.uint) (seen : bool) (r : str) :
  u <> Decimal.Nil \/ seen = true ->
  leading_number 0 seen (lit (NilEmpty.string_of_uint u) ++ DQUOTE :: r)
  = (Some (Z.of_N (Pos.of_uint u)), DQUOTE :: r).
Proof.
  revert seen.
  induction u as [| u IH | u IH | u IH | u IH | u IH | u IH | u IH | u IH | u IH | u IH];
    intros seen H;
    [destruct H as [H | ->]; [congruence | reflexivity] | ..];
    cbn [NilEmpty.string_of_uint Pos.of_uint];
    rewrite leading_number_digit by (vm_compute; split; discriminate).
  - rewrite <- (IH true) by now right. reflexivity.
  - apply (leading_number_acc u 1).
  - apply (leading_number_acc u 2).
  - apply (leading_number_acc u 3).
  - apply (leading_number_acc u 4).
  - apply (leading_number_acc u 5).
  - apply (leading_number_acc u 6).
  - apply (leading_number_acc u 7).
  - apply (leading_number_acc u 8).
  - apply (leading_number_acc u 9).
Qed.

(** Reading back the decimal digits of a number that is not negative gives
    the number. *)
Lemma leading_number_str_of_Z (n : Z) (r : str) :
  0 <= n ->
  leading_number 0 false (str_of_Z n ++ DQUOTE :: r) = (Some n, DQUOTE :: r).
Proof.
  intros Hn. unfold str_of_Z. destruct n as [| p | p]; [reflexivity | | lia].
  cbn [Z.to_int NilZero.string_of_int].
  pose proof (DecimalPos.Unsigned.of_to p) as Hp.
  destruct (Pos.to_uint p) as [| u | u | u | u | u | u | u | u | u | u] eqn:E;
    [discriminate | ..]; cbn [NilZero.string_of_uint];
    rewrite leading_number_uint by (left; discriminate);
    rewrite Hp; reflexivity.
Qed.

Lemma list_start_list_open (n : Z) : 0 <= n -> list_start (list_open n) = Some n.
Proof.
  intros Hn. unfold list_start.
  assert (E : list_open n = LIST_TAG ++ str_of_Z n ++ DQUOTE :: lit ">").
  { unfold list_open, LIST_TAG, quoted.
    repeat first [rewrite <- app_assoc | rewrite <- app_comm_cons]. reflexivity. }
  rewrite E, starts_with_app, drop_app_length, leading_number_str_of_Z by assumption.
  now rewrite bool_decide_eq_true_2.
Qed.

Lemma list_start_other (a b : Z) (r : str) :
  b <> 111 -> list_start (a :: b :: r) = None.
Proof.
  intros Hb. unfold list_start.
  replace (starts_with LIST_TAG (a :: b :: r)) with false; [reflexivity |].
  change LIST_TAG with (60 :: 111 :: skipn 2 LIST_TAG). cbn [starts_with].
  replace (111 =? b) with false by (symmetry; apply Z.eqb_neq; congruence).
  now rewrite andb_false_r.
Qed.

Section Page.
Variable nfc : str -> str.

(** The items of a list take the numbers from the counter down. *)
Lemma numbered_items (papers : list entry) (n : Z) (rest : list str) :
  numbered (Some n) (List.map (render_entry nfc) papers ++ rest)
  = item_numbers n (length papers)
    ++ numbered (Some (n - Z.of_nat (length papers))) rest.
Proof.
  revert n. induction papers as [| e papers IH]; intros n.
  - cbn [List.map app length item_numbers seq]. now rewrite Z.sub_0_r.
  - cbn [List.map app numbered length].
    change (render_entry nfc e) with (60 :: 108 :: skipn 2 (render_entry nfc e)) at 1.
    rewrite list_start_other by discriminate.
    change (starts_with (lit "<li>") (render_entry nfc e)) with true. cbv iota.
    rewrite IH. unfold item_numbers. cbn [seq List.map app].
    rewrite Z.sub_0_r. f_equal.
    rewrite <- seq_shift, List.map_map. f_equal.
    + apply map_ext. intros i. lia.
    + f_equal. f_equal. lia.
Qed.

Lemma omap_list_start_items (papers : list entry) :
  omap list_start (List.map (render_entry nfc) papers) = [].
Proof.
  induction papers as [| e papers IH]; [reflexivity |].
  cbn [List.map omap list_omap].
  change (render_entry nfc e) with (60 :: 108 :: skipn 2 (render_entry nfc e)).
  rewrite list_start_other by discriminate. exact IH.
Qed.

(** The page of the loop, read back: the start numbers it shows are those
    of the counter, and its items carry the numbers of the lists. *)
Lemma year_blocks_page (g : groups) (years : list str) (n : Z) (counter : option Z) :
  Z.of_nat (sum_list_with (fun y => length (group_get y g)) years) <= n ->
  numbered counter (flat_map block_lines (year_blocks nfc g years n))
  = emitted_numbers (year_blocks nfc g years n)
  /\ omap list_start (flat_map block_lines (year_blocks nfc g years n))
     = List.map block_start (year_blocks nfc g years n).
Proof.
  revert n counter. induction years as [| y years IH]; intros n counter Hn; [split; reflexivity |].
  cbn [sum_list_with] in Hn.
  cbn [year_blocks flat_map emitted_numbers List.map block_start block_items].
  unfold block_lines at 1 3. cbn [block_year block_start block_items app].
  assert (Hlen : length (papers_in_year g y) = length (group_get y g)).
  { unfold papers_in_year. apply sorted_by_length. }
  assert (H0 : 0 <= n) by lia.
  destruct (IH (n - Z.of_nat (length (papers_in_year g y))) None ltac:(rewrite Hlen; lia))
    as [IH1 IH2].
  split.
  - cbn [numbered].
    change (year_header y) with (60 :: 104 :: skipn 2 (year_header y)) at 1.
    rewrite list_start_other by discriminate.
    change (starts_with (lit "<li>") (year_header y)) with false. cbv iota.
    rewrite bool_decide_eq_false_2 by discriminate.
    rewrite list_start_list_open by assumption.
    rewrite <- app_assoc, numbered_items. rewrite length_map. f_equal.
    cbn [app numbered]. exact IH1.
  - cbn [omap list_omap].
    change (year_header y) with (60 :: 104 :: skipn 2 (year_header y)) at 1.
    rewrite list_start_other by discriminate.
    rewrite list_start_list_open by assumption.
    f_equal. rewrite <- app_assoc, omap_app, omap_list_start_items.
    cbn [app omap list_omap]. exact IH2.
Qed.

End Page.

(** C3: the counter starts at the number of records, every list starts at
    the counter and the counter then goes down by the size of the list.
    The page is, per year block, the heading, the tag that opens the
    reversed list with the counter written in decimal digits as the value
    of [start], the items, and the closing tag.  Read back from the page,
    the start numbers are those of the counter, and the numbers a browser
    gives to the items, from the top of the page, are the total, the total
    less one, and so on down to one: every number from one to the number
    of records once.  The lists follow the sorted years.  Two records of
    2023 and one of 2022 give a list that starts at 3 and a list that
    starts at 1, and the numbers 3, 2, 1. *)
Theorem numbering_covers_all (nfc : str -> str) (int_of_str : str -> option Z)
    (entries : list entry) :
  let bs := blocks_of nfc int_of_str entries in
  let total := length entries in
  let page := html_lines nfc int_of_str entries in
  counter_threaded (Z.of_nat total) bs
  /\ emitted_numbers bs = item_numbers (Z.of_nat total) total
  /\ NoDup (emitted_numbers bs)
  /\ (forall n, In n (emitted_numbers bs) <-> 1 <= n <= Z.of_nat total)
  /\ List.map block_year bs
     = sorted_years int_of_str (List.map fst (grouped_by_year entries))
  /\ page
     = flat_map (fun b =>
         [ lit "<h3 class=" ++ quoted (lit "year-header") ++ lit ">" ++ block_year b
           ++ lit "</h3>"
         ; lit "<ol class=" ++ quoted (lit "publication-list") ++ lit " reversed start="
           ++ quoted (str_of_Z (block_start b)) ++ lit ">" ]
         ++ block_items b ++ [lit "</ol>"]) bs
  /\ generated_content nfc int_of_str entries = join [10] page
  /\ omap list_start page = List.map block_start bs
  /\ page_numbers page = item_numbers (Z.of_nat total) total
  /\ NoDup (page_numbers page)
  /\ (forall n, In n (page_numbers page) <-> 1 <= n <= Z.of_nat total)
  /\ (let example : list entry :=
        [ {[ "year" := lit "2022" ]}; {[ "year" := lit "2023" ]}; {[ "year" := lit "2023" ]} ] in
      List.map block_year (blocks_of nfc py_int example) = [lit "2023"; lit "2022"]
      /\ List.map block_start (blocks_of nfc py_int example) = [3; 1]
      /\ List.map (fun b => length (block_items b)) (blocks_of nfc py_int example) = [2%nat; 1%nat]
      /\ emitted_numbers (blocks_of nfc py_int example) = [3; 2; 1]
      /\ List.filter (starts_with (lit "<ol")) (html_lines nfc py_int example)
         = [ lit "<ol class=" ++ quoted (lit "publication-list") ++ lit " reversed start="
             ++ quoted (lit "3") ++ lit ">"
           ; lit "<ol class=" ++ quoted (lit "publication-list") ++ lit " reversed start="
             ++ quoted (lit "1") ++ lit ">" ]
      /\ page_numbers (html_lines nfc py_int example) = [3; 2; 1]).
Proof.
  intros bs total page.
  destruct (grouped_by_year_total entries) as [Hnd Htot].
  assert (Hperm : sum_list_with (fun y => length (group_get y (grouped_by_year entries)))
                    (sorted_years int_of_str (List.map fst (grouped_by_year entries)))
                  = length entries).
  { pose proof (group_sizes_keys _ Hnd) as Hsum. rewrite Htot in Hsum.
    apply Nat2Z.inj in Hsum. rewrite <- Hsum.
    apply sum_list_with_Permutation_proper. symmetry. apply sorted_by_Permutation. }
  assert (Hnum : emitted_numbers bs = item_numbers (Z.of_nat total) total).
  { subst bs total. unfold blocks_of.
    pose proof (year_blocks_numbers nfc (grouped_by_year entries)
                  (sorted_years int_of_str (List.map fst (grouped_by_year entries)))) as H.
    cbn zeta in H. rewrite Hperm in H. rewrite Htot. exact H. }
  assert (Hpage : page_numbers page = emitted_numbers bs
                  /\ omap list_start page = List.map block_start bs).
  { subst bs total page. unfold page_numbers, html_lines, blocks_of.
    apply year_blocks_page. rewrite Hperm, Htot. lia. }
  destruct Hpage as [Hshown Hstarts].
  split; [| split; [| split; [| split; [| split; [| split; [| split; [| split;
    [| split; [| split; [| split]]]]]]]]]].
  - subst bs total. unfold blocks_of.
    rewrite <- (proj2 (grouped_by_year_total entries)). apply year_blocks_threaded.
  - exact Hnum.
  - rewrite Hnum. apply item_numbers_NoDup.
  - rewrite Hnum. apply item_numbers_range.
  - subst bs. unfold blocks_of. apply year_blocks_years.
  - reflexivity.
  - reflexivity.
  - exact Hstarts.
  - now rewrite Hshown.
  - rewrite Hshown, Hnum. apply item_numbers_NoDup.
  - rewrite Hshown, Hnum. apply item_numbers_range.
  - vm_compute. repeat split.
Qed.

(** ** Splitting the authors *)

Lemma run_split (f : Z -> bool) (s : str) :
  s = firstn (run f s) s ++ skipn (run f s) s
  /\ Forall (fun c => f c = true) (firstn (run f s) s)
  /\ length (firstn (run f s) s) = run f s.
Proof.
  induction s as [| c t IH]; simpl.
  - repeat split. constructor.
  - destruct (f c) eqn:Hc; simpl.
    + destruct IH as (H1 & H2 & H3). repeat split.
      * congruence.
      * now constructor.
      * congruence.
    + repeat split. constructor.
Qed.

Lemma ci_lower (c x : Z) :
  97 <= c <= 122 -> ci c x = true -> lower_char x = c.
Proof.
  unfold ci, lower_char. intros Hc H.
  destruct ((65 <=? x) && (x <=? 90)) eqn:E; lia.
Qed.

(** A match of the pattern is a separator at the start of the text. *)
Lemma and_separator_spec (s : str) (k : nat) :
  and_separator s = Some k ->
  exists sep rest, s = sep ++ rest /\ length sep = k /\ name_separator sep /\ (1 <= k)%nat.
Proof.
  unfold and_separator. intros H.
  destruct (run_split is_space s) as (Hs & Hw1 & Hl1).
  destruct (run is_space s) as [| k1] eqn:Hk1; [discriminate |].
  destruct (skipn (S k1) s) as [| a [| n [| d s']]] eqn:Hskip; try discriminate.
  destruct (run_split is_space s') as (Hs' & Hw2 & Hl2).
  destruct (run is_space s') as [| k2] eqn:Hk2; [discriminate |].
  destruct (ci 97 a && ci 110 n && ci 100 d) eqn:Hand; [| discriminate].
  injection H as <-.
  apply andb_true_iff in Hand. destruct Hand as [Hand Hd].
  apply andb_true_iff in Hand. destruct Hand as [Ha Hn].
  exists (firstn (S k1) s ++ [a; n; d] ++ firstn (S k2) s'), (skipn (S k2) s').
  split; [| split; [| split]].
  - rewrite <- !app_assoc. simpl app at 2. rewrite <- Hs'. exact Hs.
  - rewrite !length_app, Hl1, Hl2. simpl. lia.
  - exists (firstn (S k1) s), [a; n; d], (firstn (S k2) s').
    repeat split; try assumption.
    + intros E. rewrite E in Hl1. discriminate.
    + intros E. rewrite E in Hl2. discriminate.
    + cbn. rewrite (ci_lower 97 a), (ci_lower 110 n), (ci_lower 100 d) by (assumption || lia).
      reflexivity.
  - lia.
Qed.

Lemma split_from_skip (m : str -> option nat) (k : nat) (cur s : str) :
  split_from m k cur s = split_from m O cur (skipn k s).
Proof.
  revert s. induction k as [| k IH]; intros [| c t]; simpl; auto.
Qed.

Lemma split_from_weave (m : str -> option nat) (sep_ok : str -> Prop) :
  (forall s k, m s = Some k ->
     exists sep rest, s = sep ++ rest /\ length sep = k /\ sep_ok sep /\ (1 <= k)%nat) ->
  forall (n : nat) (s cur : str), (length s <= n)%nat ->
  exists seps,
    length (split_from m O cur s) = S (length seps)
    /\ Forall sep_ok seps
    /\ weave (split_from m O cur s) seps = rev cur ++ s.
Proof.
  intros Hm. induction n as [| n IH]; intros s cur Hlen.
  - destruct s; [| simpl in Hlen; lia].
    exists []. simpl. rewrite app_nil_r. repeat split. constructor.
  - destruct s as [| c t].
    + exists []. simpl. rewrite app_nil_r. repeat split. constructor.
    + cbn [split_from]. destruct (m (c :: t)) as [k |] eqn:Hk.
      * destruct (Hm _ _ Hk) as (sep & rest & Hs & Hl & Hok & Hk1).
        rewrite split_from_skip.
        assert (Hrest : skipn (Nat.pred k) t = rest).
        { change (skipn (Nat.pred k) t) with (skipn (S (Nat.pred k)) (c :: t)).
          replace (S (Nat.pred k)) with (length sep) by lia.
          rewrite Hs. rewrite drop_app_length. reflexivity. }
        rewrite Hrest.
        destruct (IH rest [] ) as (seps & H1 & H2 & H3).
        { apply (f_equal (@length Z)) in Hs. rewrite length_app in Hs. simpl in Hs, Hlen. lia. }
        exists (sep :: seps). split; [| split].
        -- simpl. now rewrite H1.
        -- now constructor.
        -- cbn [weave].
           destruct (split_from m 0 [] rest) as [| p ps] eqn:Hparts; [discriminate |].
           rewrite H3. simpl. now rewrite Hs.
      * destruct (IH t (c :: cur)) as (seps & H1 & H2 & H3); [simpl in Hlen; lia |].
        exists seps. repeat split; try assumption.
        rewrite H3. simpl. now rewrite <- app_assoc.
Qed.

Lemma split_from_no_match (m : str -> option nat) (s cur : str) :
  (forall t, t `suffix_of` s -> m t = None) ->
  split_from m O cur s = [rev cur ++ s].
Proof.
  revert cur. induction s as [| c t IH]; intros cur Hno; simpl.
  - now rewrite app_nil_r.
  - rewrite Hno by reflexivity. rewrite IH.
    + simpl. now rewrite <- app_assoc.
    + intros u Hu. apply Hno. now apply suffix_cons_r.
Qed.

Lemma and_separator_needs_space (s : str) :
  match s with [] => True | c :: _ => is_space c = false end ->
  and_separator s = None.
Proof.
  destruct s as [| c t]; intros H; unfold and_separator; simpl; [reflexivity |].
  now rewrite H.
Qed.

(** C5: the trimmed text is cut exactly at separators of names, that is at
    the word and, in any case, with whitespace on both sides: the pieces,
    with such separators put back between them, are the trimmed text.
    Text without whitespace is never cut, whatever letters it holds.  The
    authors J. Doe and K. Anderson are two names. *)
Theorem authors_split_at_and (nfc : str -> str) (raw : str) :
  let parts := re_split and_separator (strip is_space raw) in
  (exists seps,
      length parts = S (length seps)
      /\ Forall name_separator seps
      /\ weave parts seps = strip is_space raw)
  /\ norm_parts nfc raw = omap (format_name nfc) parts
  /\ (forall s, Forall (fun c => is_space c = false) s -> re_split and_separator s = [s])
  /\ re_split and_separator (lit "J. Doe and K. Anderson") = [lit "J. Doe"; lit "K. Anderson"]
  /\ re_split and_separator (lit "Anderson") = [lit "Anderson"]
  /\ length (norm_parts nfc (lit "J. Doe and K. Anderson")) = 2%nat
  /\ format_authors nfc_letters (lit "J. Doe and K. Anderson") = lit "J. Doe, K. Anderson".
Proof.
  intros parts. split; [| split; [| split; [| split; [| split; [| split]]]]].
  - subst parts. unfold re_split.
    destruct (split_from_weave and_separator name_separator and_separator_spec
                (length (strip is_space raw)) (strip is_space raw) [] (le_n _))
      as (seps & H1 & H2 & H3).
    exists seps. repeat split; assumption.
  - reflexivity.
  - intros s Hs. unfold re_split. rewrite split_from_no_match; [reflexivity |].
    intros t [u ->]. apply and_separator_needs_space.
    destruct t as [| c t]; [exact I |].
    apply Forall_app in Hs. destruct Hs as [_ Hs]. now inversion Hs.
  - vm_compute. reflexivity.
  - vm_compute. reflexivity.
  - vm_compute. reflexivity.
  - vm_compute. reflexivity.
Qed.

(** ** Replacing and stripping *)

Lemma rewrite_literal_here (old new s : str) :
  old <> [] ->
  rewrite_from (literal old new) O (old ++ s) = new ++ rewrite_from (literal old new) O s.
Proof.
  intros Hne. destruct old as [| c old']; [congruence |].
  cbn [app rewrite_from]. unfold literal at 1.
  change (c :: old' ++ s) with ((c :: old') ++ s). rewrite starts_with_app.
  f_equal. cbn [length Nat.pred]. rewrite rewrite_from_skip.
  now rewrite drop_app_length.
Qed.

Lemma rewrite_literal_before (old new a r : str) :
  (forall i, (i < length a)%nat -> starts_with old (skipn i (a ++ r)) = false) ->
  rewrite_from (literal old new) O (a ++ r) = a ++ rewrite_from (literal old new) O r.
Proof.
  induction a as [| c a IH]; intros Hno; [reflexivity |].
  cbn [app rewrite_from]. unfold literal at 1.
  pose proof (Hno O ltac:(simpl; lia)) as H0. cbn [skipn app] in H0.
  rewrite H0. f_equal. apply IH.
  intros i Hi. apply (Hno (S i)). simpl. lia.
Qed.

Lemma rewrite_literal_absent (old new s : str) :
  (forall i, starts_with old (skipn i s) = false) ->
  rewrite_from (literal old new) O s = s.
Proof.
  intros Hno. rewrite <- (app_nil_r s) at 1.
  rewrite rewrite_literal_before; [simpl; apply app_nil_r |].
  intros i _. rewrite app_nil_r. apply Hno.
Qed.

Lemma contains_false (y v : str) :
  contains y v = false -> forall i, starts_with y (skipn i v) = false.
Proof.
  revert y. induction v as [| c v IH]; intros y H i.
  - simpl in H. apply orb_false_iff in H. destruct H as [H _].
    now destruct i.
  - simpl in H. apply orb_false_iff in H. destruct H as [H1 H2].
    destruct i as [| i]; [exact H1 | simpl; now apply IH].
Qed.

Lemma contains_occurrence (y v : str) :
  contains y v = true <-> exists a b, v = a ++ y ++ b.
Proof.
  split.
  - induction v as [| c v IH]; simpl; intros H.
    + rewrite orb_false_r in H. apply starts_with_prefix in H.
      destruct H as [r Hr]. exists [], r. exact Hr.
    + apply orb_true_iff in H. destruct H as [H | H].
      * apply starts_with_prefix in H. destruct H as [r Hr]. exists [], r. exact Hr.
      * destruct (IH H) as (a & b & ->). exists (c :: a), b. reflexivity.
  - intros (a & b & ->). induction a as [| c a IH].
    + simpl app. destruct (y ++ b) eqn:E; simpl; rewrite <- ?E, starts_with_app; reflexivity.
    + simpl. rewrite IH. apply orb_true_r.
Qed.

(** A text that occurs once is taken out by [replace], and nothing else
    is. *)
Lemma replace_single (y a b : str) :
  y <> [] ->
  (forall i, starts_with y (skipn i (a ++ y ++ b)) = true -> i = length a) ->
  replace y [] (a ++ y ++ b) = a ++ b.
Proof.
  intros Hne Honly. unfold replace. destruct y as [| c y'] eqn:Ey; [congruence |].
  rewrite <- Ey in *. clear Ey.
  rewrite rewrite_literal_before.
  - rewrite rewrite_literal_here by assumption. simpl. f_equal.
    apply rewrite_literal_absent. intros i.
    destruct (starts_with y (skipn i b)) eqn:E; [| reflexivity].
    assert (E' : starts_with y (skipn (length a + length y + i) (a ++ y ++ b)) = true).
    { rewrite app_assoc, <- length_app, <- drop_drop, drop_app_length. exact E. }
    apply Honly in E'. destruct y; [congruence | simpl in E'; lia].
  - intros i Hi. destruct (starts_with y (skipn i (a ++ y ++ b))) eqn:E; [| reflexivity].
    apply Honly in E. lia.
Qed.

Lemma replace_absent (y v : str) :
  contains y v = false -> replace y [] v = v.
Proof.
  intros H. unfold replace. destruct y as [| c y'] eqn:Ey.
  - destruct v; discriminate.
  - apply rewrite_literal_absent. now apply contains_false.
Qed.

Lemma lstrip_head (drop : Z -> bool) (s : str) (c : Z) (t : str) :
  lstrip drop s = c :: t -> drop c = false.
Proof.
  induction s as [| x s IH]; simpl; [discriminate |].
  destruct (drop x) eqn:Hx; [exact IH |]. intros [= <- _]. exact Hx.
Qed.

Lemma lstrip_snoc (drop : Z -> bool) (s : str) (h : Z) :
  drop h = false -> lstrip drop (s ++ [h]) = lstrip drop s ++ [h].
Proof.
  intros Hh. induction s as [| x s IH]; simpl.
  - now rewrite Hh.
  - destruct (drop x); [exact IH | reflexivity].
Qed.

(** What [strip] leaves neither begins nor ends with a stripped code
    point. *)
Lemma strip_ends (drop : Z -> bool) (s : str) :
  (forall c t, strip drop s = c :: t -> drop c = false)
  /\ (forall t c, strip drop s = t ++ [c] -> drop c = false).
Proof.
  unfold strip, rstrip. split.
  - intros c t H. destruct (lstrip drop s) as [| h u] eqn:Hu; [discriminate |].
    pose proof (lstrip_head _ _ _ _ Hu) as Hh.
    simpl rev in H. rewrite lstrip_snoc, rev_app_distr in H by assumption.
    simpl in H. congruence.
  - intros t c H. apply (f_equal (@rev Z)) in H.
    rewrite rev_involutive, rev_app_distr in H. simpl in H.
    now apply lstrip_head in H.
Qed.

(** ** Venue *)

Lemma rendered_venue_year (nfc : str -> str) (e : entry) (y : str) :
  derived_venue nfc e <> [] -> e !! "year" = Some y -> y <> [] ->
  rendered_venue nfc e
  = html_escape (strip (fun c => member c STRIP_CHARS) (replace y [] (derived_venue nfc e))).
Proof.
  intros Hv Hy Hne. unfold rendered_venue, get_default. rewrite Hy. cbn [default].
  unfold strip_year. destruct (derived_venue nfc e); [congruence |].
  destruct y; [congruence | reflexivity].
Qed.

(** C8: for a record whose venue is not empty and whose year is known and
    occurs in the venue, the rendered venue is the venue with the year
    taken out and then the spaces, commas and periods at both ends
    stripped, escaped for HTML: what is left neither begins nor ends with
    one of the three, and a year that occurs once leaves the text before it
    and the text after it.  The venue Proc. of X 2023 with the year 2023
    becomes Proc. of X. *)
Theorem venue_year_removed (nfc : str -> str) (e : entry) (y : str) :
  derived_venue nfc e <> [] -> e !! "year" = Some y -> y <> [] ->
  contains y (derived_venue nfc e) = true ->
  let v := derived_venue nfc e in
  let w := strip (fun c => member c STRIP_CHARS) (replace y [] v) in
  rendered_venue nfc e = html_escape w
  /\ (forall c t, w = c :: t -> member c STRIP_CHARS = false)
  /\ (forall t c, w = t ++ [c] -> member c STRIP_CHARS = false)
  /\ (forall a b, v = a ++ y ++ b ->
        (forall i, starts_with y (skipn i v) = true -> i = length a) ->
        w = strip (fun c => member c STRIP_CHARS) (a ++ b))
  /\ rendered_venue nfc_letters {[ "journal" := lit "Proc. of X 2023"; "year" := lit "2023" ]}
     = lit "Proc. of X".
Proof.
  intros Hv Hy Hne _ v w.
  split; [| split; [| split; [| split]]].
  - now apply rendered_venue_year.
  - apply strip_ends.
  - apply strip_ends.
  - intros a b Hab Honly. subst w. rewrite Hab in Honly |- *.
    now rewrite replace_single.
  - vm_compute. reflexivity.
Qed.

Lemma venue_year_removed_witness :
  let e : entry := {[ "journal" := lit "Proc. of X 2023"; "year" := lit "2023" ]} in
  let y := lit "2023" in
  let v := derived_venue nfc_letters e in
  let w := strip (fun c => member c STRIP_CHARS) (replace y [] v) in
  rendered_venue nfc_letters e = html_escape w
  /\ (forall c t, w = c :: t -> member c STRIP_CHARS = false)
  /\ (forall t c, w = t ++ [c] -> member c STRIP_CHARS = false)
  /\ (forall a b, v = a ++ y ++ b ->
        (forall i, starts_with y (skipn i v) = true -> i = length a) ->
        w = strip (fun c => member c STRIP_CHARS) (a ++ b))
  /\ rendered_venue nfc_letters {[ "journal" := lit "Proc. of X 2023"; "year" := lit "2023" ]}
     = lit "Proc. of X".
Proof.
  apply (venue_year_removed nfc_letters
           {[ "journal" := lit "Proc. of X 2023"; "year" := lit "2023" ]} (lit "2023")).
  - vm_compute. discriminate.
  - reflexivity.
  - discriminate.
  - vm_compute. reflexivity.
Defined.

Lemma derived_venue_arxiv (nfc : str -> str) (e : entry) (a : str) :
  nonempty (e !! "journal") = None -> nonempty (e !! "booktitle") = None ->
  e !! "archivePrefix" = Some a -> lower a = lit "arxiv" ->
  derived_venue nfc e = lit "arXiv:" ++ format_value (e !! "eprint").
Proof.
  intros Hj Hb Ha Hl. unfold derived_venue, get_default.
  rewrite Hj, Hb, Ha. cbn [latex_to_unicode default].
  rewrite decide_True by exact Hl. reflexivity.
Qed.

Lemma parsed_record_key (e : entry) (k : string) :
  parsed_record e = true -> parsed_key k = false -> e !! k = None.
Proof.
  intros He Hk. destruct (e !! k) as [v |] eqn:E; [| reflexivity].
  apply elem_of_map_to_list, list_elem_of_In in E.
  unfold parsed_record in He. rewrite forallb_forall in He.
  specialize (He _ E). cbn [fst] in He. congruence.
Qed.

(** C10 against the program: the venue of an arXiv preprint is never
    synthesized.  The program asks the record for the key archivePrefix,
    with a capital P, and a record that comes from the parser has no such
    key, as the parser files the field under archiveprefix.  So the venue
    of every parsed record is the normalised journal or booktitle, and it
    is empty when both are missing or empty, whatever the record holds
    under archiveprefix and eprint; the rendered venue is then empty too,
    not arXiv:None.  The same record with the archive prefix filed under
    the key that the program asks for gets the venue arXiv: followed by
    the eprint, or by None without eprint. *)
Theorem arxiv_branch_unreached (nfc : str -> str) (e : entry) :
  parsed_record e = true ->
  e !! "archivePrefix" = None
  /\ derived_venue nfc e
     = latex_to_unicode nfc
         match nonempty (e !! "journal") with
         | Some j => j
         | None => match nonempty (e !! "booktitle") with
                   | Some b => b
                   | None => []
                   end
         end
  /\ (nonempty (e !! "journal") = None -> nonempty (e !! "booktitle") = None ->
        derived_venue nfc e = [] /\ rendered_venue nfc e = []
        /\ forall a, lower a = lit "arxiv" ->
             derived_venue nfc (<["archivePrefix" := a]> e)
             = lit "arXiv:" ++ format_value (e !! "eprint")).
Proof.
  intros He.
  assert (Hk : e !! "archivePrefix" = None) by (now apply parsed_record_key).
  assert (Hv : derived_venue nfc e
               = latex_to_unicode nfc
                   match nonempty (e !! "journal") with
                   | Some j => j
                   | None => match nonempty (e !! "booktitle") with
                             | Some b => b
                             | None => []
                             end
                   end).
  { unfold derived_venue, get_default. rewrite Hk. cbn [default].
    destruct (latex_to_unicode nfc _); [| reflexivity].
    rewrite decide_False by discriminate. reflexivity. }
  split; [exact Hk |]. split; [exact Hv |].
  intros Hj Hb. rewrite Hj, Hb in Hv. cbn [latex_to_unicode] in Hv.
  split; [exact Hv |]. split.
  - unfold rendered_venue. rewrite Hv. reflexivity.
  - intros a Ha.
    rewrite (derived_venue_arxiv nfc (<["archivePrefix" := a]> e) a).
    + now rewrite lookup_insert_ne by discriminate.
    + now rewrite lookup_insert_ne by discriminate.
    + now rewrite lookup_insert_ne by discriminate.
    + apply lookup_insert_eq.
    + exact Ha.
Qed.

(** The entry [@misc{k1, title = {T}, archivePrefix = {arXiv}, year = {2024}}]
    as the parser gives it. *)
Lemma arxiv_branch_unreached_witness :
  let e : entry :=
    {[ "ENTRYTYPE" := lit "misc"; "ID" := lit "k1"; "title" := lit "T";
       "archiveprefix" := lit "arXiv"; "year" := lit "2024" ]} in
  e !! "archiveprefix" = Some (lit "arXiv")
  /\ e !! "eprint" = None
  /\ derived_venue nfc_letters e = []
  /\ rendered_venue nfc_letters e = []
  /\ rendered_venue nfc_letters e <> lit "arXiv:None"
  /\ derived_venue nfc_letters (<["archivePrefix" := lit "arXiv"]> e) = lit "arXiv:None".
Proof.
  intros e.
  destruct (arxiv_branch_unreached nfc_letters e eq_refl) as (_ & _ & H).
  destruct (H eq_refl eq_refl) as (Hd & Hr & Ha).
  split; [reflexivity |]. split; [reflexivity |].
  split; [exact Hd |]. split; [exact Hr |].
  split; [rewrite Hr; discriminate |].
  exact (Ha (lit "arXiv") eq_refl).
Defined.
(** ** The run *)

Section Run.
Variable nfc : str -> str.
Variable int_of_str : str -> option Z.
Variable load : str -> outcome (list entry).

Lemma set_file_twice (path : string) (a b : str) (w : World) :
  set_file path b (set_file path a w) = set_file path b w.
Proof. unfold set_file. simpl. now rewrite insert_insert_eq. Qed.

(** The run, stage by stage. *)
Lemma main_stages (w : World) :
  main nfc int_of_str load w =
  match files w !! BIBTEX_FILE with
  | None => reported (NO_SUCH_FILE BIBTEX_FILE) w
  | Some stored_bib =>
      match read_error w BIBTEX_FILE with
      | Some e => reported e w
      | None =>
          match load (universal_newlines stored_bib) with
          | Raised e => reported e w
          | Returned entries =>
              match files w !! TEMPLATE_FILE with
              | None => reported (NO_SUCH_FILE TEMPLATE_FILE) w
              | Some stored_template =>
                  match read_error w TEMPLATE_FILE with
                  | Some e => reported e w
                  | None =>
                      let data :=
                        replace [10] (linesep w)
                          (output_html nfc int_of_str entries
                             (universal_newlines stored_template)) in
                      if can_write w OUTPUT_FILE then
                        match room w with
                        | None => completed (set_file OUTPUT_FILE data w)
                        | Some k =>
                            if (length data <=? k)%nat
                            then completed (set_file OUTPUT_FILE data w)
                            else reported NO_SPACE (set_file OUTPUT_FILE (take k data) w)
                        end
                      else reported (PERMISSION_DENIED OUTPUT_FILE) w
                  end
              end
          end
      end
  end.
Proof.
  unfold main, try_except, mbind, IO_bind, read_text, lift, write_text, print,
    completed, reported.
  destruct (files w !! BIBTEX_FILE) as [stored_bib |]; [| reflexivity].
  destruct (read_error w BIBTEX_FILE) as [e |]; [reflexivity |].
  destruct (load (universal_newlines stored_bib)) as [entries | e]; [| reflexivity].
  destruct (files w !! TEMPLATE_FILE) as [stored_template |]; [| reflexivity].
  destruct (read_error w TEMPLATE_FILE) as [e |]; [reflexivity |].
  cbn zeta. destruct (can_write w OUTPUT_FILE); [| reflexivity].
  destruct (room w) as [k |]; cbn [room set_file can_write files stdout print_error linesep].
  - destruct (length _ <=? k)%nat; rewrite set_file_twice;
      cbn [room set_file can_write files stdout print_error linesep];
      [destruct (print_error w SUCCESS_MESSAGE) |]; reflexivity.
  - rewrite set_file_twice. cbn [room set_file can_write files stdout print_error linesep].
    destruct (print_error w SUCCESS_MESSAGE); reflexivity.
Qed.

(** What the handler leaves: the files as they were, and a line more on the
    console or an exception of the print. *)
Lemma reported_spec (e : str) (w : World) :
  files (fst (reported e w)) = files w
  /\ read_error (fst (reported e w)) = read_error w
  /\ can_write (fst (reported e w)) = can_write w
  /\ room (fst (reported e w)) = room w
  /\ linesep (fst (reported e w)) = linesep w
  /\ ((snd (reported e w) = Returned tt
       /\ stdout (fst (reported e w)) = stdout w ++ [failure_message e])
      \/ (exists x, print_error w (failure_message e) = Some x
                    /\ snd (reported e w) = Raised x
                    /\ stdout (fst (reported e w)) = stdout w)).
Proof.
  unfold reported. destruct (print_error w (failure_message e)) as [x |] eqn:E.
  - repeat split. right. exists x. repeat split.
  - repeat split. left. repeat split.
Qed.

Lemma completed_spec (w : World) :
  files (fst (completed w)) = files w
  /\ read_error (fst (completed w)) = read_error w
  /\ can_write (fst (completed w)) = can_write w
  /\ room (fst (completed w)) = room w
  /\ linesep (fst (completed w)) = linesep w
  /\ ((snd (completed w) = Returned tt
       /\ exists line, stdout (fst (completed w)) = stdout w ++ [line])
      \/ (exists e x, print_error w (failure_message e) = Some x
                      /\ snd (completed w) = Raised x
                      /\ stdout (fst (completed w)) = stdout w)).
Proof.
  unfold completed. destruct (print_error w SUCCESS_MESSAGE) as [x |] eqn:E.
  - destruct (reported_spec x w) as (H1 & H2 & H3 & H4 & H5 & [[Hr Hs] | (y & Hy & Hr & Hs)]).
    + repeat split; try assumption. left. split; [assumption | eauto].
    + repeat split; try assumption. right. exists x, y. repeat split; assumption.
  - repeat split. left. split; [reflexivity | eexists; reflexivity].
Qed.

(** The run returns after one more line on the console, or the print of
    the handler raises and that exception leaves the run with nothing
    printed. *)
Lemma main_ends (w : World) :
  (snd (main nfc int_of_str load w) = Returned tt
   /\ exists line, stdout (fst (main nfc int_of_str load w)) = stdout w ++ [line])
  \/ (exists e x, print_error w (failure_message e) = Some x
                  /\ snd (main nfc int_of_str load w) = Raised x
                  /\ stdout (fst (main nfc int_of_str load w)) = stdout w).
Proof.
  assert (R : forall e w0, print_error w0 = print_error w -> stdout w0 = stdout w ->
    (snd (reported e w0) = Returned tt
     /\ exists line, stdout (fst (reported e w0)) = stdout w ++ [line])
    \/ (exists e' x, print_error w (failure_message e') = Some x
                     /\ snd (reported e w0) = Raised x
                     /\ stdout (fst (reported e w0)) = stdout w)).
  { intros e w0 Hp Hs.
    destruct (reported_spec e w0) as (_ & _ & _ & _ & _ & [[Hr Ho] | (x & Hx & Hr & Ho)]).
    - left. split; [assumption |]. rewrite Ho, Hs. eauto.
    - right. exists e, x. rewrite <- Hp, <- Hs. repeat split; assumption. }
  assert (C : forall w0, print_error w0 = print_error w -> stdout w0 = stdout w ->
    (snd (completed w0) = Returned tt
     /\ exists line, stdout (fst (completed w0)) = stdout w ++ [line])
    \/ (exists e x, print_error w (failure_message e) = Some x
                    /\ snd (completed w0) = Raised x
                    /\ stdout (fst (completed w0)) = stdout w)).
  { intros w0 Hp Hs.
    destruct (completed_spec w0) as (_ & _ & _ & _ & _ & [[Hr [line Ho]] | (e & x & Hx & Hr & Ho)]).
    - left. split; [assumption |]. rewrite Ho, Hs. eauto.
    - right. exists e, x. rewrite <- Hp, <- Hs. repeat split; assumption. }
  rewrite main_stages.
  destruct (files w !! BIBTEX_FILE) as [stored_bib |]; [| now apply R].
  destruct (read_error w BIBTEX_FILE) as [e |]; [now apply R |].
  destruct (load (universal_newlines stored_bib)) as [entries | e]; [| now apply R].
  destruct (files w !! TEMPLATE_FILE) as [stored_template |]; [| now apply R].
  destruct (read_error w TEMPLATE_FILE) as [e |]; [now apply R |].
  cbn zeta. destruct (can_write w OUTPUT_FILE); [| now apply R].
  destruct (room w) as [k |]; [destruct (length _ <=? k)%nat |];
    first [now apply R | now apply C].
Qed.

End Run.

(** C9, as the program has it.  A failure that comes before the write
    (reading the bibliography, parsing it, reading the template, opening
    the output file) is caught and handed to the handler, and every file
    is left as it was.  When all stages pass, the output file holds the
    whole text, computed in memory before the one write, and the success
    line is printed; if that print raises, the handler gets its
    exception.  A write that fails is handed to the handler as well, and
    the output file, emptied when it was opened, keeps the part of the
    text that reached it.  The handler prints the failure line; when that
    print raises too (the console cannot encode the line), nothing is
    printed and the exception leaves the run. *)
Theorem error_boundary (nfc : str -> str) (int_of_str : str -> option Z)
    (load : str -> outcome (list entry)) (w : World) :
  let result := main nfc int_of_str load w in
  (forall e, fails_before_write load w e ->
     result = reported e w /\ files (fst result) = files w)
  /\ (forall bibfile entries template_html,
        reads w BIBTEX_FILE bibfile -> load bibfile = Returned entries ->
        reads w TEMPLATE_FILE template_html ->
        can_write w OUTPUT_FILE = true ->
        let data :=
          replace [10] (linesep w) (output_html nfc int_of_str entries template_html) in
        (fits w data ->
           files (fst result) !! OUTPUT_FILE = Some data
           /\ (print_error w SUCCESS_MESSAGE = None ->
                 result = (printed SUCCESS_MESSAGE (set_file OUTPUT_FILE data w), Returned tt))
           /\ (forall x, print_error w SUCCESS_MESSAGE = Some x ->
                 result = reported x (set_file OUTPUT_FILE data w)))
        /\ (forall k, room w = Some k -> (k < length data)%nat ->
              result = reported NO_SPACE (set_file OUTPUT_FILE (take k data) w)
              /\ files (fst result) !! OUTPUT_FILE = Some (take k data)))
  /\ (forall e w0,
        (print_error w0 (failure_message e) = None ->
           reported e w0 = (printed (failure_message e) w0, Returned tt))
        /\ (forall x, print_error w0 (failure_message e) = Some x ->
              reported e w0 = (w0, Raised x)))
  /\ ((snd result = Returned tt /\ exists line, stdout (fst result) = stdout w ++ [line])
      \/ (exists e x, print_error w (failure_message e) = Some x
                      /\ snd result = Raised x
                      /\ stdout (fst result) = stdout w)).
Proof.
  intros result.
  split; [| split; [| split]].
  - subst result. rewrite main_stages.
    assert (Hrd : forall path (P : World * outcome unit -> Prop) e k,
      read_failure w path e ->
      P (reported e w) ->
      P match files w !! path with
        | None => reported (NO_SUCH_FILE path) w
        | Some stored => match read_error w path with
                         | Some e' => reported e' w
                         | None => k stored
                         end
        end).
    { intros path P e k [Hm | stored e' Hs He] HP.
      - now rewrite Hm.
      - now rewrite Hs, He. }
    assert (Hfiles : forall e, files (fst (reported e w)) = files w).
    { intros e. apply reported_spec. }
    intros e He.
    destruct He as [e H1 | b e (sb & Hb1 & Hb2 & ->) H2
                   | b es e (sb & Hb1 & Hb2 & ->) H2 H3
                   | b es t (sb & Hb1 & Hb2 & ->) H2 (st & Ht1 & Ht2 & ->) H4].
    + apply (Hrd BIBTEX_FILE
               (fun r => r = reported e w /\ files (fst r) = files w) e _ H1).
      split; [reflexivity | apply Hfiles].
    + rewrite Hb1, Hb2, H2. split; [reflexivity | apply Hfiles].
    + rewrite Hb1, Hb2, H2.
      apply (Hrd TEMPLATE_FILE
               (fun r => r = reported e w /\ files (fst r) = files w) e _ H3).
      split; [reflexivity | apply Hfiles].
    + rewrite Hb1, Hb2, H2, Ht1, Ht2. cbn zeta. rewrite H4.
      split; [reflexivity | apply Hfiles].
  - intros b es t (sb & Hb1 & Hb2 & ->) H2 (st & Ht1 & Ht2 & ->) H4 data.
    subst result. rewrite main_stages, Hb1, Hb2, H2, Ht1, Ht2. cbn zeta. rewrite H4.
    fold data. unfold fits. split.
    + intros Hfit.
      assert (E : match room w with
                  | Some k => if (length data <=? k)%nat
                              then completed (set_file OUTPUT_FILE data w)
                              else reported NO_SPACE (set_file OUTPUT_FILE (take k data) w)
                  | None => completed (set_file OUTPUT_FILE data w)
                  end = completed (set_file OUTPUT_FILE data w)).
      { destruct (room w) as [k |]; [| reflexivity].
        apply Nat.leb_le in Hfit. now rewrite Hfit. }
      rewrite E. split; [| split].
      * destruct (completed_spec (set_file OUTPUT_FILE data w)) as (Hf & _).
        rewrite Hf. apply lookup_insert_eq.
      * intros Hp. unfold completed. cbn [print_error set_file]. now rewrite Hp.
      * intros x Hp. unfold completed. cbn [print_error set_file]. now rewrite Hp.
    + intros k Hk Hlt. rewrite Hk.
      apply Nat.leb_gt in Hlt. rewrite Hlt. split; [reflexivity |].
      destruct (reported_spec NO_SPACE (set_file OUTPUT_FILE (take k data) w)) as (Hf & _).
      rewrite Hf. apply lookup_insert_eq.
  - intros e w0. unfold reported. split.
    + intros Hp. now rewrite Hp.
    + intros x Hp. now rewrite Hp.
  - apply main_ends.
Qed.

Lemma error_boundary_witness :
  let w := mkWorld {[ BIBTEX_FILE := lit "@misc{a, year = {2024}}";
                      OUTPUT_FILE := lit "old" ]}
                   (fun _ => None) (fun _ => true) None [10] (fun _ => None) [] in
  let load := fun _ : str => Returned [ ({[ "year" := lit "2024" ]} : entry) ] in
  let result := main nfc_letters py_int load w in
  result = reported (NO_SUCH_FILE TEMPLATE_FILE) w
  /\ files (fst result) = files w.
Proof.
  intros w load.
  destruct (error_boundary nfc_letters py_int load w) as (H & _).
  apply H.
  apply (template_unreadable load w (lit "@misc{a, year = {2024}}")
           [ ({[ "year" := lit "2024" ]} : entry) ]).
  - exists (lit "@misc{a, year = {2024}}"). repeat split; reflexivity.
  - reflexivity.
  - apply file_missing. reflexivity.
Defined.

(** C9 as stated fails in two ways.  A failure of the write: the device
    takes five code points, the error is reported, and the output file,
    which held other text, is left with the first five code points of the
    page.  A failure that is not reported: on a console whose encoding is
    ASCII the bibliography is missing, the print of the handler raises in
    its turn, no line is printed and that exception leaves the run. *)
Lemma error_boundary_counterexample :
  let load := fun _ : str => Returned [ ({[ "year" := lit "2024" ]} : entry) ] in
  (let w := mkWorld {[ BIBTEX_FILE := lit "@misc{a, year = {2024}}";
                       TEMPLATE_FILE := lit "<x>PLACEHOLDER</x>";
                       OUTPUT_FILE := lit "old" ]}
                    (fun _ => None) (fun _ => true) (Some 5%nat) [10] (fun _ => None) [] in
   let w' := fst (main nfc_letters py_int load w) in
   stdout w' = [failure_message NO_SPACE]
   /\ files w !! OUTPUT_FILE = Some (lit "old")
   /\ files w' !! OUTPUT_FILE = Some (lit "<x><h")
   /\ files w' !! OUTPUT_FILE <> files w !! OUTPUT_FILE)
  /\ (let cannot_encode :=
        lit "'ascii' codec can't encode character '\u274c' in position 0: ordinal not in range(128)" in
      let ascii_console := fun line : str =>
        if existsb (fun c => 127 <? c) line then Some cannot_encode else None in
      let w := mkWorld ∅ (fun _ => None) (fun _ => true) None [10] ascii_console [] in
      main nfc_letters py_int load w = (w, Raised cannot_encode)
      /\ stdout (fst (main nfc_letters py_int load w)) = []).
Proof.
  split.
  - vm_compute. repeat split. discriminate.
  - vm_compute. repeat split.
Qed.

(** ** The macro step *)

Lemma first_match_app (t1 t2 : list (str * str)) (s : str) :
  first_match (t1 ++ t2) s
  = match first_match t1 s with
    | Some r => Some r
    | None => first_match t2 s
    end.
Proof.
  induction t1 as [| [old new] t1 IH]; simpl; [reflexivity |].
  destruct (starts_with old s); [reflexivity | exact IH].
Qed.

Lemma scan_cons (table : list (str * str)) (c : Z) (t : str) :
  scan table (c :: t)
  = match first_match table (c :: t) with
    | Some (r, n) => r ++ scan table (skipn (Nat.pred n) t)
    | None => c :: scan table t
    end.
Proof.
  unfold scan. cbn [rewrite_from].
  destruct (first_match table (c :: t)) as [[r n] |]; [| reflexivity].
  now rewrite rewrite_from_skip.
Qed.

Lemma starts_with_length (p s : str) :
  starts_with p s = true -> (length p <= length s)%nat.
Proof.
  intros H. apply starts_with_prefix in H. destruct H as [r ->].
  rewrite length_app. lia.
Qed.

(** What a match of a table of macros looks like. *)
Lemma first_match_macro (table : list (str * str)) (s r : str) (n : nat) :
  forallb macro_entry table = true ->
  first_match table s = Some (r, n) ->
  exists w rest x r',
    s = BACKSLASH :: w ++ rest /\ n = S (length w)
    /\ forallb is_letter w = true
    /\ r = x :: r' /\ is_letter x = false /\ x <> BACKSLASH
    /\ forallb (fun c => negb (c =? BACKSLASH)) r = true.
Proof.
  induction table as [| [old new] table IH]; simpl; [discriminate |].
  intros Hwf. apply andb_true_iff in Hwf. destruct Hwf as [He Hwf].
  destruct (starts_with old s) eqn:Hs; [| now apply IH].
  intros [= <- <-]. unfold macro_entry in He. simpl in He.
  apply andb_true_iff in He. destruct He as [Hold Hnew].
  destruct old as [| b w]; [discriminate |].
  apply andb_true_iff in Hold. destruct Hold as [Hb Hw]. apply Z.eqb_eq in Hb. subst b.
  apply starts_with_prefix in Hs. destruct Hs as [rest ->].
  destruct new as [| x r']; [discriminate |].
  change (forallb (fun c => negb (is_letter c) && negb (c =? BACKSLASH)) (x :: r') = true)
    in Hnew.
  rewrite forallb_forall in Hnew.
  assert (Hx : negb (is_letter x) && negb (x =? BACKSLASH) = true)
    by (apply Hnew; now left).
  apply andb_true_iff in Hx. destruct Hx as [Hx1 Hx2].
  exists w, rest, x, r'. repeat split; try assumption.
  - now apply negb_true_iff in Hx1.
  - apply negb_true_iff, Z.eqb_neq in Hx2. exact Hx2.
  - rewrite forallb_forall. intros c Hc. specialize (Hnew c Hc).
    apply andb_true_iff in Hnew. tauto.
Qed.

Lemma first_match_needs_backslash (table : list (str * str)) (c : Z) (t : str) :
  forallb macro_entry table = true -> c <> BACKSLASH ->
  first_match table (c :: t) = None.
Proof.
  intros Hwf Hc. destruct (first_match table (c :: t)) as [[r n] |] eqn:E; [| reflexivity].
  destruct (first_match_macro _ _ _ _ Hwf E) as (w & rest & x & r' & Hs & _).
  congruence.
Qed.

Lemma is_letter_not_backslash (x : Z) : is_letter x = true -> x <> BACKSLASH.
Proof. rewrite is_letter_bounds. unfold BACKSLASH. lia. Qed.

(** The scan copies letters. *)
Lemma scan_letters (table : list (str * str)) (w s : str) :
  forallb macro_entry table = true -> forallb is_letter w = true ->
  scan table (w ++ s) = w ++ scan table s.
Proof.
  intros Hwf. induction w as [| x w IH]; intros Hw; [reflexivity |].
  simpl in Hw. apply andb_true_iff in Hw. destruct Hw as [Hx Hw].
  cbn [app]. rewrite scan_cons, first_match_needs_backslash;
    [| assumption | now apply is_letter_not_backslash].
  now rewrite IH.
Qed.

(** Whether letters stand at the start is the same before and after the
    scan. *)
Lemma starts_with_letters_scan (table : list (str * str)) (w t : str) :
  forallb macro_entry table = true -> forallb is_letter w = true ->
  starts_with w (scan table t) = starts_with w t.
Proof.
  intros Hwf. revert t. induction w as [| x w IH]; intros t Hw; [reflexivity |].
  simpl in Hw. apply andb_true_iff in Hw. destruct Hw as [Hx Hw].
  destruct t as [| y t]; [reflexivity |].
  rewrite scan_cons. destruct (first_match table (y :: t)) as [[r n] |] eqn:E.
  - destruct (first_match_macro _ _ _ _ Hwf E) as (w' & rest & x' & r' & Hs & _ & _ & -> & Hx' & _).
    injection Hs as -> _. cbn [app starts_with].
    replace (x =? x') with false by (symmetry; apply Z.eqb_neq; congruence).
    replace (x =? BACKSLASH) with false
      by (symmetry; apply Z.eqb_neq; now apply is_letter_not_backslash).
    reflexivity.
  - simpl. now rewrite IH.
Qed.

Lemma replace_nonempty (old new s : str) :
  old <> [] -> replace old new s = rewrite_from (literal old new) O s.
Proof. destruct old; [congruence | reflexivity]. Qed.

(** Replacing one more macro after the scan of a table is the scan of the
    table with that macro added at its end. *)
Lemma scan_then_replace (table : list (str * str)) (old new : str) :
  forallb macro_entry (table ++ [(old, new)]) = true ->
  forall (n : nat) (s : str), (length s <= n)%nat ->
  replace old new (scan table s) = scan (table ++ [(old, new)]) s.
Proof.
  intros Hall. rewrite forallb_app in Hall. apply andb_true_iff in Hall.
  destruct Hall as [Hwf He]. simpl in He. rewrite andb_true_r in He.
  assert (Hold : exists w, old = BACKSLASH :: w /\ forallb is_letter w = true).
  { unfold macro_entry in He. simpl in He. apply andb_true_iff in He. destruct He as [He _].
    destruct old as [| b w]; [discriminate |]. apply andb_true_iff in He.
    destruct He as [Hb Hw]. apply Z.eqb_eq in Hb. subst b. now exists w. }
  destruct Hold as (w & -> & Hw).
  assert (Hne : BACKSLASH :: w <> []) by discriminate.
  induction n as [| n IH]; intros s Hlen.
  - destruct s; [reflexivity | simpl in Hlen; lia].
  - destruct s as [| c t]; [reflexivity |].
    rewrite !scan_cons, first_match_app.
    destruct (first_match table (c :: t)) as [[r k] |] eqn:E.
    + destruct (first_match_macro _ _ _ _ Hwf E)
        as (w' & rest & x & r' & Hs & Hk & _ & Hr & _ & _ & Hfree).
      rewrite replace_nonempty by assumption. rewrite rewrite_literal_before.
      * rewrite <- replace_nonempty by assumption. f_equal. apply IH.
        rewrite length_skipn. simpl in Hlen. lia.
      * intros i Hi.
        destruct (skipn i (r ++ scan table (skipn (Nat.pred k) t))) as [| y u] eqn:Ed;
          [reflexivity |].
        assert (Hy : In y r).
        { assert (Hl : (r ++ scan table (skipn (Nat.pred k) t)) !! i = Some y).
          { rewrite <- (take_drop i (r ++ _)) at 1. rewrite Ed.
            rewrite lookup_app_r by (rewrite length_take; lia).
            rewrite length_take.
            replace (i - i `min` length (r ++ scan table (skipn (Nat.pred k) t)))%nat
              with O; [reflexivity |].
            rewrite length_app. lia. }
          rewrite lookup_app_l in Hl by assumption.
          apply list_elem_of_In. eapply list_elem_of_lookup_2. exact Hl. }
        rewrite forallb_forall in Hfree. specialize (Hfree y Hy).
        apply negb_true_iff in Hfree. cbn [starts_with].
        rewrite Z.eqb_sym, Hfree. reflexivity.
    + cbn [first_match]. destruct (starts_with (BACKSLASH :: w) (c :: t)) eqn:Es.
      * apply starts_with_prefix in Es. destruct Es as [rest Hs].
        injection Hs as -> ->.
        cbn [length Nat.pred]. rewrite drop_app_length.
        rewrite scan_letters by assumption.
        rewrite replace_nonempty by assumption.
        change (BACKSLASH :: w ++ scan table rest) with ((BACKSLASH :: w) ++ scan table rest).
        rewrite rewrite_literal_here by assumption.
        rewrite <- replace_nonempty by assumption. f_equal. apply IH.
        simpl in Hlen. rewrite length_app in Hlen. lia.
      * rewrite replace_nonempty by assumption. cbn [rewrite_from].
        unfold literal at 1.
        assert (Eq : starts_with (BACKSLASH :: w) (c :: scan table t) = false).
        { cbn [starts_with] in Es |- *. now rewrite starts_with_letters_scan. }
        rewrite Eq. rewrite <- replace_nonempty by assumption. f_equal. apply IH.
        simpl in Hlen. lia.
Qed.

Lemma scan_nil (s : str) : scan [] s = s.
Proof.
  induction s as [| c t IH]; [reflexivity |].
  rewrite scan_cons. cbn [first_match]. now rewrite IH.
Qed.

(** Replacing the macros of a table one after the other, in its order, is
    one scan of the text. *)
Lemma replace_each_scan (t2 t1 : list (str * str)) (s : str) :
  forallb macro_entry (t1 ++ t2) = true ->
  replace_each t2 (scan t1 s) = scan (t1 ++ t2) s.
Proof.
  revert t1. induction t2 as [| [old new] t2 IH]; intros t1 Hwf.
  - now rewrite app_nil_r.
  - unfold replace_each. cbn [fold_left]. fold (replace_each t2).
    replace (t1 ++ (old, new) :: t2) with ((t1 ++ [(old, new)]) ++ t2) in *
      by now rewrite <- app_assoc.
    rewrite (scan_then_replace t1 old new) with (n := length s); [| | lia].
    + now apply IH.
    + rewrite forallb_app in Hwf. apply andb_true_iff in Hwf. tauto.
Qed.

Lemma special_macros_scan (s : str) : special_macros s = macro_scan s.
Proof.
  unfold special_macros, macro_scan. rewrite <- (scan_nil s) at 1.
  now rewrite replace_each_scan.
Qed.

Lemma starts_with_letters_before_backslash (w p r : str) :
  forallb is_letter w = true ->
  starts_with w (p ++ BACKSLASH :: r) = starts_with w p.
Proof.
  revert p. induction w as [| x w IH]; intros p Hw; [reflexivity |].
  simpl in Hw. apply andb_true_iff in Hw. destruct Hw as [Hx Hw].
  destruct p as [| y p]; cbn [app starts_with].
  - replace (x =? BACKSLASH) with false
      by (symmetry; apply Z.eqb_neq; now apply is_letter_not_backslash).
    reflexivity.
  - now rewrite IH.
Qed.

Lemma first_match_before_backslash (table : list (str * str)) (c : Z) (p r : str) :
  forallb macro_entry table = true ->
  first_match table (c :: p ++ BACKSLASH :: r) = first_match table (c :: p).
Proof.
  induction table as [| [old new] table IH]; intros Hwf; [reflexivity |].
  cbn [forallb] in Hwf. apply andb_true_iff in Hwf. destruct Hwf as [He Hwf].
  cbn [first_match]. rewrite (IH Hwf).
  unfold macro_entry in He. cbn [fst snd] in He.
  apply andb_true_iff in He. destruct He as [Hold _].
  destruct old as [| b w]; [discriminate |].
  apply andb_true_iff in Hold. destruct Hold as [_ Hw].
  cbn [starts_with]. now rewrite starts_with_letters_before_backslash.
Qed.

(** A backslash starts afresh: what stands before it is scanned on its
    own. *)
Lemma scan_before_backslash (table : list (str * str)) (r : str) :
  forallb macro_entry table = true ->
  forall (n : nat) (p : str), (length p <= n)%nat ->
  scan table (p ++ BACKSLASH :: r) = scan table p ++ scan table (BACKSLASH :: r).
Proof.
  intros Hwf. induction n as [| n IH]; intros p Hlen.
  - destruct p; [reflexivity | simpl in Hlen; lia].
  - destruct p as [| c p]; [reflexivity |].
    cbn [app]. rewrite (scan_cons table c (p ++ BACKSLASH :: r)), (scan_cons table c p).
    rewrite first_match_before_backslash by assumption.
    destruct (first_match table (c :: p)) as [[x k] |] eqn:E.
    + destruct (first_match_macro _ _ _ _ Hwf E) as (w & rest & _ & _ & Hs & -> & _).
      injection Hs as -> ->. cbn [Nat.pred].
      rewrite <- app_assoc, !drop_app_length.
      rewrite IH; [now rewrite app_assoc |].
      simpl in Hlen. rewrite length_app in Hlen. lia.
    + cbn [app]. f_equal. apply IH. simpl in Hlen. lia.
Qed.

Lemma macro_scan_plain (s : str) :
  Forall (fun c => c <> BACKSLASH) s -> macro_scan s = s.
Proof.
  unfold macro_scan. induction 1 as [| c s Hc Hs IH]; [reflexivity |].
  rewrite scan_cons, first_match_needs_backslash by (reflexivity || assumption).
  now rewrite IH.
Qed.

Lemma starts_with_shorter (a b s : str) :
  starts_with a s = true -> starts_with b s = true ->
  (length a <= length b)%nat -> starts_with a b = true.
Proof.
  revert b s. induction a as [| x a IH]; intros b s Ha Hb Hlen; [reflexivity |].
  destruct s as [| z s]; [discriminate |].
  destruct b as [| y b]; [simpl in Hlen; lia |].
  cbn [starts_with] in *.
  apply andb_true_iff in Ha. destruct Ha as [Hx Ha].
  apply andb_true_iff in Hb. destruct Hb as [Hy Hb].
  apply Z.eqb_eq in Hx. apply Z.eqb_eq in Hy. subst.
  rewrite Z.eqb_refl. cbn [andb]. apply (IH b s Ha Hb). simpl in Hlen. lia.
Qed.

(** In a table without shadowing the entry replaced at a position is the
    longest entry that occurs there. *)
Lemma first_match_longest (table : list (str * str)) (s new : str) (n : nat) :
  no_shadowing table = true ->
  first_match table s = Some (new, n) ->
  forall e, In e table -> starts_with (fst e) s = true -> (length (fst e) <= n)%nat.
Proof.
  induction table as [| [old new0] table IH]; intros Hns Hm e He Hs; [destruct He |].
  cbn [no_shadowing] in Hns. apply andb_true_iff in Hns. destruct Hns as [Hold Hns].
  cbn [first_match] in Hm. destruct (starts_with old s) eqn:Eo.
  - injection Hm as <- <-. destruct He as [<- | He]; [reflexivity |].
    rewrite forallb_forall in Hold. specialize (Hold e He).
    apply negb_true_iff in Hold.
    destruct (Nat.le_gt_cases (length (fst e)) (length old)) as [Hle | Hgt]; [exact Hle |].
    rewrite (starts_with_shorter old (fst e) s Eo Hs) in Hold by lia. discriminate.
  - destruct He as [<- | He]; [cbn [fst] in Hs; congruence |].
    now apply (IH Hns Hm e He).
Qed.

(** C6, as the program has it: the macro step is one scan of the text from
    left to right that replaces, at each position, the first table entry
    that occurs there, whatever follows it, and copies every other code
    point.  The table puts no entry after a prefix of it, so the entry
    replaced is the longest one: the oe ligature macro, wherever it stands,
    gives the ligature and never the slashed o followed by e.  The slashed
    o macro followed by anything but e gives the slashed o, and text
    without a backslash is left as it is. *)
Theorem macros_one_scan (p s : str) :
  special_macros s = macro_scan s
  /\ forallb macro_entry _SPECIAL_MACROS = true
  /\ no_shadowing _SPECIAL_MACROS = true
  /\ (forall new n e,
        first_match _SPECIAL_MACROS s = Some (new, n) ->
        In e _SPECIAL_MACROS -> starts_with (fst e) s = true ->
        (length (fst e) <= n)%nat)
  /\ special_macros (p ++ lit "\oe" ++ s) = special_macros p ++ [339] ++ special_macros s
  /\ special_macros (p ++ lit "\OE" ++ s) = special_macros p ++ [338] ++ special_macros s
  /\ (starts_with (lit "e") s = false ->
      special_macros (p ++ lit "\o" ++ s) = special_macros p ++ [248] ++ special_macros s)
  /\ (Forall (fun c => c <> BACKSLASH) s -> special_macros s = s).
Proof.
  rewrite !special_macros_scan. unfold macro_scan.
  assert (Hwf : forallb macro_entry _SPECIAL_MACROS = true) by reflexivity.
  split; [reflexivity |]. split; [exact Hwf |]. split; [reflexivity |].
  split; [intros new n e Hm; now apply (first_match_longest _ s new n) |].
  split; [| split; [| split]].
  - change (lit "\oe" ++ s) with (BACKSLASH :: lit "oe" ++ s).
    rewrite (scan_before_backslash _ _ Hwf (length p) p (le_n _)). reflexivity.
  - change (lit "\OE" ++ s) with (BACKSLASH :: lit "OE" ++ s).
    rewrite (scan_before_backslash _ _ Hwf (length p) p (le_n _)). reflexivity.
  - intros He.
    change (lit "\o" ++ s) with (BACKSLASH :: lit "o" ++ s).
    rewrite (scan_before_backslash _ _ Hwf (length p) p (le_n _)). f_equal.
    destruct s as [| c t]; [reflexivity |].
    cbn [starts_with lit list_ascii_of_string List.map] in He.
    rewrite andb_true_r in He.
    rewrite scan_cons.
    assert (Hm : first_match _SPECIAL_MACROS (BACKSLASH :: lit "o" ++ c :: t)
                 = Some ([248], 2%nat)).
    { simpl in He |- *. rewrite He. reflexivity. }
    rewrite Hm. reflexivity.
  - apply macro_scan_plain.
Qed.

(** C6 as stated fails: a backslash word that begins like a macro and goes
    on with letters has its beginning replaced. *)
Lemma macros_one_scan_counterexample :
  special_macros (lit "\omega") = 248 :: lit "mega"
  /\ special_macros (lit "\omega") <> lit "\omega"
  /\ latex_to_unicode nfc_letters (lit "\lambda") = 322 :: lit "ambda".
Proof.
  vm_compute. repeat split; discriminate.
Qed.

(** ** Patterns that do not match *)

Lemma rewrite_from_none (m : matcher) (c : Z) (t : str) :
  m (c :: t) = None -> rewrite_from m O (c :: t) = c :: rewrite_from m O t.
Proof. intros H. cbn [rewrite_from]. now rewrite H. Qed.

Lemma braced_pattern_unknown (b a : Z) (r : str) :
  member a accent_class = false -> braced_pattern (b :: a :: r) = None.
Proof.
  intros Ha. unfold braced_pattern. destruct r as [| o [| l [| c r]]]; try reflexivity.
  rewrite Ha, andb_false_r. reflexivity.
Qed.

Lemma unbraced_pattern_unknown (b a : Z) (r : str) :
  member a accent_class = false -> unbraced_pattern (b :: a :: r) = None.
Proof.
  intros Ha. unfold unbraced_pattern. destruct r as [| l r]; try reflexivity.
  rewrite Ha, andb_false_r. reflexivity.
Qed.

Lemma braced_pattern_start (b : Z) (r : str) :
  b <> BACKSLASH -> braced_pattern (b :: r) = None.
Proof.
  intros Hb. unfold braced_pattern. destruct r as [| a [| o [| l [| c r]]]]; try reflexivity.
  apply Z.eqb_neq in Hb. rewrite Hb. reflexivity.
Qed.

Lemma unbraced_pattern_start (b : Z) (r : str) :
  b <> BACKSLASH -> unbraced_pattern (b :: r) = None.
Proof.
  intros Hb. unfold unbraced_pattern. destruct r as [| a [| l r]]; try reflexivity.
  apply Z.eqb_neq in Hb. rewrite Hb. reflexivity.
Qed.

(** Taking out every occurrence of one code point. *)
Lemma replace_one (k : Z) (s : str) :
  replace [k] [] s = List.filter (fun x => negb (k =? x)) s.
Proof.
  unfold replace. induction s as [| x s IH]; [reflexivity |].
  cbn [rewrite_from List.filter]. unfold literal at 1. cbn [starts_with length Nat.pred].
  rewrite andb_true_r. destruct (k =? x); cbn [negb app Nat.pred]; now rewrite IH.
Qed.

Lemma replace_each_absent (table : list (str * str)) (s : str) :
  forallb (fun e => negb (contains (fst e) s)) table = true ->
  replace_each table s = s.
Proof.
  unfold replace_each. induction table as [| [old new] table IH]; [reflexivity |].
  cbn [forallb fst fold_left]. intros H. apply andb_true_iff in H. destruct H as [Ho Ht].
  apply negb_true_iff in Ho.
  assert (E : replace old new s = s).
  { unfold replace. destruct old as [| c old']; [destruct s; discriminate |].
    apply rewrite_literal_absent. now apply contains_false. }
  rewrite E. now apply IH.
Qed.

(** ** Text around the commands *)

(** A pattern that matches at none of the code points of [p] copies [p]. *)
Lemma rewrite_from_copy (m : matcher) (ok : Z -> Prop) (p r : str) :
  (forall c t, ok c -> m (c :: t) = None) ->
  Forall ok p ->
  rewrite_from m O (p ++ r) = p ++ rewrite_from m O r.
Proof.
  intros Hm Hp. induction Hp as [| c p Hc Hp IH]; [reflexivity |].
  cbn [app]. rewrite rewrite_from_none by now apply Hm. now rewrite IH.
Qed.

Lemma rewrite_from_copy_all (m : matcher) (ok : Z -> Prop) (p : str) :
  (forall c t, ok c -> m (c :: t) = None) ->
  Forall ok p ->
  rewrite_from m O p = p.
Proof.
  intros Hm Hp. rewrite <- (app_nil_r p) at 1.
  rewrite (rewrite_from_copy m ok) by assumption. apply app_nil_r.
Qed.

Lemma literal_start (old new : str) (h c : Z) (old' t : str) :
  old = h :: old' -> c <> h -> literal old new (c :: t) = None.
Proof.
  intros -> Hc. unfold literal. cbn [starts_with].
  replace (h =? c) with false by (symmetry; apply Z.eqb_neq; congruence).
  reflexivity.
Qed.

Lemma quiet_spec (c : Z) :
  quiet c = true <-> c <> BACKSLASH /\ c <> 45 /\ c <> 96 /\ c <> 39.
Proof. unfold quiet, BACKSLASH. lia. Qed.

Lemma unbrace_spec (s : str) :
  strip_braces s = unbrace s.
Proof.
  unfold strip_braces, unbrace. rewrite !replace_one.
  induction s as [| c s IH]; [reflexivity |].
  cbn [List.filter]. rewrite (Z.eqb_sym c LBRACE), (Z.eqb_sym c RBRACE).
  destruct (LBRACE =? c) eqn:E1; cbn [negb orb].
  - exact IH.
  - cbn [List.filter].
    destruct (RBRACE =? c); cbn [negb]; now rewrite IH.
Qed.

Lemma unbrace_app (a b : str) : unbrace (a ++ b) = unbrace a ++ unbrace b.
Proof. unfold unbrace. apply List.filter_app. Qed.

Lemma unbrace_no_brace (s : str) :
  ~ In LBRACE (unbrace s) /\ ~ In RBRACE (unbrace s).
Proof.
  unfold unbrace. split; intros H; apply List.filter_In in H; destruct H as [_ H];
    rewrite Z.eqb_refl in H; [| rewrite orb_true_r in H]; discriminate.
Qed.

Lemma unbrace_quiet (s : str) :
  Forall (fun c => quiet c = true) s -> Forall (fun c => quiet c = true) (unbrace s).
Proof.
  intros H. apply List.Forall_forall. intros c Hc.
  apply List.filter_In in Hc. rewrite List.Forall_forall in H. now apply H.
Qed.

Lemma contains_needs_head (h : Z) (old' s : str) :
  ~ In h s -> contains (h :: old') s = false.
Proof.
  induction s as [| c s IH]; intros Hs; [reflexivity |].
  cbn [contains starts_with].
  replace (h =? c) with false
    by (symmetry; apply Z.eqb_neq; intros ->; apply Hs; now left).
  cbn [andb orb]. apply IH. intros Hin. apply Hs. now right.
Qed.

(** Text without hyphen, backtick and apostrophe has no dash or quote to
    replace. *)
Lemma dash_quotes_quiet (s : str) :
  Forall (fun c => quiet c = true) s -> dash_quotes s = s.
Proof.
  intros Hs. apply replace_each_absent.
  assert (H : forall h, (h = 45 \/ h = 96 \/ h = 39) -> ~ In h s).
  { intros h Hh Hin. rewrite List.Forall_forall in Hs. specialize (Hs h Hin).
    apply quiet_spec in Hs. lia. }
  unfold _DASH_QUOTES. cbn [forallb fst].
  change (lit "---") with (45 :: lit "--"). change (lit "--") with (45 :: lit "-").
  change (lit "``") with (96 :: lit "`"). change (lit "''") with (39 :: lit "'").
  rewrite !contains_needs_head by (apply H; lia). reflexivity.
Qed.

Lemma quiet_not_backslash (s : str) :
  Forall (fun c => quiet c = true) s -> Forall (fun c => c <> BACKSLASH) s.
Proof.
  apply List.Forall_impl. intros c Hc. apply quiet_spec in Hc. tauto.
Qed.

Lemma accents_braced_plain (s : str) :
  Forall (fun c => c <> BACKSLASH) s -> accents_braced s = s.
Proof.
  apply rewrite_from_copy_all. intros c t Hc. now apply braced_pattern_start.
Qed.

Lemma accents_unbraced_plain (s : str) :
  Forall (fun c => c <> BACKSLASH) s -> accents_unbraced s = s.
Proof.
  apply rewrite_from_copy_all. intros c t Hc. now apply unbraced_pattern_start.
Qed.

Lemma markup_steps_quiet (s : str) :
  Forall (fun c => quiet c = true) s -> markup_steps s = unbrace s.
Proof.
  intros Hs. pose proof (quiet_not_backslash s Hs) as Hb.
  unfold markup_steps.
  rewrite special_macros_scan, macro_scan_plain by assumption.
  rewrite accents_braced_plain, accents_unbraced_plain by assumption.
  rewrite unbrace_spec. apply dash_quotes_quiet. now apply unbrace_quiet.
Qed.

(** X1: text that holds no backslash, hyphen, backtick or apostrophe goes
    through the steps before the normalisation with one change only: its
    braces are taken out.  So [latex_to_unicode] gives the normal form of
    the text without braces. *)
Theorem quiet_text_unbraced (nfc : str -> str) (s : str) :
  Forall (fun c => quiet c = true) s ->
  markup_steps s = unbrace s
  /\ (s <> [] -> latex_to_unicode nfc s = nfc (unbrace s)).
Proof.
  intros Hs. pose proof (markup_steps_quiet s Hs) as H.
  split; [exact H |]. intros Hne. destruct s as [| c t]; [congruence |].
  unfold latex_to_unicode. now rewrite H.
Qed.

Lemma quiet_text_unbraced_witness :
  markup_steps (lit "{B}ayesian {SLAM}") = unbrace (lit "{B}ayesian {SLAM}")
  /\ (lit "{B}ayesian {SLAM}" <> [] ->
      latex_to_unicode nfc_letters (lit "{B}ayesian {SLAM}")
      = nfc_letters (unbrace (lit "{B}ayesian {SLAM}"))).
Proof.
  apply (quiet_text_unbraced nfc_letters (lit "{B}ayesian {SLAM}")).
  vm_compute. repeat constructor.
Defined.

Lemma accent_not_macro (a : Z) (rest : str) :
  member a accent_class = true ->
  first_match _SPECIAL_MACROS (BACKSLASH :: a :: rest) = None.
Proof.
  rewrite member_In. intros H.
  repeat (destruct H as [<- | H]; [reflexivity |]). destruct H.
Qed.

Lemma accent_command_macros (a : Z) (p r : str) :
  member a accent_class = true ->
  Forall (fun c => c <> BACKSLASH) p -> Forall (fun c => c <> BACKSLASH) r ->
  special_macros (p ++ BACKSLASH :: a :: r) = p ++ BACKSLASH :: a :: r.
Proof.
  intros Ha Hp Hr. rewrite special_macros_scan. unfold macro_scan.
  rewrite (scan_before_backslash _SPECIAL_MACROS (a :: r) eq_refl (length p) p (le_n _)).
  fold (macro_scan p). rewrite macro_scan_plain by assumption. f_equal.
  rewrite scan_cons, accent_not_macro by assumption. f_equal.
  apply macro_scan_plain. constructor; [| assumption].
  intros ->. discriminate.
Qed.

Lemma braced_pattern_no_brace (b a o : Z) (r : str) :
  o <> LBRACE -> braced_pattern (b :: a :: o :: r) = None.
Proof.
  intros Ho. unfold braced_pattern. destruct r as [| l [| c r]]; try reflexivity.
  replace (o =? LBRACE) with false by (symmetry; now apply Z.eqb_neq).
  rewrite andb_false_r. reflexivity.
Qed.

Lemma mark_quiet (a m : Z) :
  table_get a _ACCENT_COMBINING = Some m ->
  quiet m = true /\ m <> LBRACE /\ m <> RBRACE.
Proof.
  intros H. assert (Hin : In m (List.map snd _ACCENT_COMBINING)).
  { revert H. generalize _ACCENT_COMBINING. intros t.
    induction t as [| [k v] t IH]; cbn [table_get]; [discriminate |].
    destruct (a =? k); [intros [= ->]; now left | intros H; right; now apply IH]. }
  cbn in Hin. repeat (destruct Hin as [<- | Hin]; [repeat split; discriminate |]).
  destruct Hin.
Qed.

Lemma letter_quiet (l : Z) :
  is_letter l = true -> quiet l = true /\ l <> LBRACE /\ l <> RBRACE.
Proof.
  rewrite is_letter_bounds, quiet_spec. unfold BACKSLASH, LBRACE, RBRACE. lia.
Qed.

Lemma unbrace_keep (c : Z) (s : str) :
  c <> LBRACE -> c <> RBRACE -> unbrace (c :: s) = c :: unbrace s.
Proof.
  intros H1 H2. unfold unbrace. cbn [List.filter].
  apply Z.eqb_neq in H1, H2. now rewrite H1, H2.
Qed.

(** The accent passes on a command that stands in text without
    backslash. *)
Lemma accent_passes_in_text (a l m : Z) (p s : str) :
  member a accent_class = true -> is_letter l = true ->
  table_get a _ACCENT_COMBINING = Some m ->
  Forall (fun c => c <> BACKSLASH) p -> Forall (fun c => c <> BACKSLASH) s ->
  accents_braced (p ++ braced_form a l ++ s) = p ++ [l; m] ++ s
  /\ accents_braced (p ++ unbraced_form a l ++ s) = p ++ unbraced_form a l ++ s
  /\ accents_unbraced (p ++ unbraced_form a l ++ s) = p ++ [l; m] ++ s.
Proof.
  intros Ha Hl Hm Hp Hs.
  pose proof (is_letter_not_backslash l Hl) as Hlb.
  destruct (letter_quiet l Hl) as (_ & Hlo & _).
  assert (Hab : a <> BACKSLASH).
  { intros ->. discriminate. }
  unfold accents_braced, accents_unbraced, braced_form, unbraced_form.
  split; [| split].
  - rewrite (rewrite_from_copy braced_pattern (fun c => c <> BACKSLASH))
      by (assumption || (intros c t Hc; now apply braced_pattern_start)).
    f_equal. cbn [app rewrite_from]. unfold braced_pattern at 1.
    rewrite Ha, Hl, !Z.eqb_refl. cbn [andb Nat.pred].
    unfold _accent_braced. rewrite Hm. cbn [app]. do 2 f_equal.
    apply (rewrite_from_copy_all braced_pattern (fun c => c <> BACKSLASH));
      [intros c t Hc; now apply braced_pattern_start | assumption].
  - rewrite (rewrite_from_copy braced_pattern (fun c => c <> BACKSLASH))
      by (assumption || (intros c t Hc; now apply braced_pattern_start)).
    f_equal. cbn [app]. rewrite rewrite_from_none by now apply braced_pattern_no_brace.
    f_equal.
    apply (rewrite_from_copy_all braced_pattern (fun c => c <> BACKSLASH));
      [intros c t Hc; now apply braced_pattern_start |].
    repeat constructor; assumption.
  - rewrite (rewrite_from_copy unbraced_pattern (fun c => c <> BACKSLASH))
      by (assumption || (intros c t Hc; now apply unbraced_pattern_start)).
    f_equal. cbn [app rewrite_from]. unfold unbraced_pattern at 1.
    rewrite Ha, Hl, !Z.eqb_refl. cbn [andb Nat.pred].
    unfold _accent_braced. rewrite Hm. cbn [app]. do 2 f_equal.
    apply (rewrite_from_copy_all unbraced_pattern (fun c => c <> BACKSLASH));
      [intros c t Hc; now apply unbraced_pattern_start | assumption].
Qed.

(** X2: an accent command of the supported set, braced or not, that stands
    between texts without backslash, hyphen, backtick and apostrophe is
    replaced where it stands by its letter and its mark; the texts around
    it only lose their braces. *)
Theorem accent_in_text (nfc : str -> str) (a l : Z) (p s : str) :
  member a accent_class = true -> is_letter l = true ->
  Forall (fun c => quiet c = true) p -> Forall (fun c => quiet c = true) s ->
  exists m,
    table_get a _ACCENT_COMBINING = Some m
    /\ markup_steps (p ++ braced_form a l ++ s) = unbrace p ++ [l; m] ++ unbrace s
    /\ markup_steps (p ++ unbraced_form a l ++ s) = unbrace p ++ [l; m] ++ unbrace s
    /\ latex_to_unicode nfc (p ++ braced_form a l ++ s)
       = nfc (unbrace p ++ [l; m] ++ unbrace s)
    /\ latex_to_unicode nfc (p ++ unbraced_form a l ++ s)
       = nfc (unbrace p ++ [l; m] ++ unbrace s).
Proof.
  intros Ha Hl Hp Hs.
  destruct (accent_class_has_mark a Ha) as (m & Hm & _). exists m.
  pose proof (quiet_not_backslash p Hp) as Hpb.
  pose proof (quiet_not_backslash s Hs) as Hsb.
  pose proof (is_letter_not_backslash l Hl) as Hlb.
  destruct (letter_quiet l Hl) as (Hlq & Hlo & Hlc).
  destruct (mark_quiet a m Hm) as (Hmq & Hmo & Hmc).
  destruct (accent_passes_in_text a l m p s Ha Hl Hm Hpb Hsb) as (A1 & A2 & A3).
  assert (Hmb : m <> BACKSLASH) by (apply quiet_spec in Hmq; tauto).
  assert (Hafter : forall t, t = p ++ [l; m] ++ s ->
            dash_quotes (strip_braces (accents_unbraced t))
            = unbrace p ++ [l; m] ++ unbrace s).
  { intros t ->. rewrite accents_unbraced_plain.
    - rewrite unbrace_spec, unbrace_app. cbn [app].
      rewrite !unbrace_keep by assumption.
      apply dash_quotes_quiet. apply Forall_app. split; [now apply unbrace_quiet |].
      repeat constructor; try assumption. now apply unbrace_quiet.
    - apply Forall_app. split; [assumption |]. repeat constructor; assumption. }
  assert (B : markup_steps (p ++ braced_form a l ++ s) = unbrace p ++ [l; m] ++ unbrace s).
  { unfold markup_steps. unfold braced_form at 1. cbn [app].
    rewrite accent_command_macros; [| assumption | assumption |].
    - change (p ++ BACKSLASH :: a :: LBRACE :: l :: RBRACE :: s)
        with (p ++ braced_form a l ++ s).
      rewrite A1. now apply Hafter.
    - repeat constructor; try assumption; discriminate. }
  assert (U : markup_steps (p ++ unbraced_form a l ++ s) = unbrace p ++ [l; m] ++ unbrace s).
  { unfold markup_steps. unfold unbraced_form at 1. cbn [app].
    rewrite accent_command_macros; [| assumption | assumption |].
    - change (p ++ BACKSLASH :: a :: l :: s) with (p ++ unbraced_form a l ++ s).
      rewrite A2.
      change (dash_quotes (strip_braces (accents_unbraced (p ++ unbraced_form a l ++ s))))
        with (dash_quotes (strip_braces (rewrite_from unbraced_pattern O
                                           (p ++ unbraced_form a l ++ s)))).
      fold (accents_unbraced (p ++ unbraced_form a l ++ s)). rewrite A3.
      rewrite <- (accents_unbraced_plain (p ++ [l; m] ++ s)) at 1.
      + now apply Hafter.
      + apply Forall_app. split; [assumption |]. repeat constructor; assumption.
    - repeat constructor; assumption. }
  repeat split; try assumption.
  - unfold latex_to_unicode. destruct (p ++ braced_form a l ++ s) eqn:E.
    + destruct p; discriminate.
    + now rewrite B.
  - unfold latex_to_unicode. destruct (p ++ unbraced_form a l ++ s) eqn:E.
    + destruct p; discriminate.
    + now rewrite U.
Qed.

Lemma accent_in_text_witness :
  exists m,
    table_get DQUOTE _ACCENT_COMBINING = Some m
    /\ markup_steps (lit "M" ++ braced_form DQUOTE 117 ++ lit "ller")
       = unbrace (lit "M") ++ [117; m] ++ unbrace (lit "ller")
    /\ markup_steps (lit "M" ++ unbraced_form DQUOTE 117 ++ lit "ller")
       = unbrace (lit "M") ++ [117; m] ++ unbrace (lit "ller")
    /\ latex_to_unicode nfc_letters (lit "M" ++ braced_form DQUOTE 117 ++ lit "ller")
       = nfc_letters (unbrace (lit "M") ++ [117; m] ++ unbrace (lit "ller"))
    /\ latex_to_unicode nfc_letters (lit "M" ++ unbraced_form DQUOTE 117 ++ lit "ller")
       = nfc_letters (unbrace (lit "M") ++ [117; m] ++ unbrace (lit "ller")).
Proof.
  apply (accent_in_text nfc_letters DQUOTE 117 (lit "M") (lit "ller")).
  - reflexivity.
  - reflexivity.
  - vm_compute. repeat constructor.
  - vm_compute. repeat constructor.
Defined.

(** ** Braces and dashes *)

(** A rewriting puts into the text only what its replacements hold. *)
Lemma rewrite_from_Forall (m : matcher) (P : Z -> Prop) :
  (forall t r n, m t = Some (r, n) -> Forall P r) ->
  forall (s : str) (k : nat), Forall P s -> Forall P (rewrite_from m k s).
Proof.
  intros Hm. induction s as [| c s IH]; intros k Hs; [constructor |].
  apply Forall_cons in Hs. destruct Hs as [Hc Hs].
  cbn [rewrite_from]. destruct k as [| k]; [| now apply IH].
  destruct (m (c :: s)) as [[r n] |] eqn:E.
  - apply Forall_app. split; [now apply (Hm _ _ _ E) | now apply IH].
  - constructor; [assumption | now apply IH].
Qed.

Lemma replace_Forall (P : Z -> Prop) (old new s : str) :
  Forall P new -> Forall P s -> Forall P (replace old new s).
Proof.
  intros Hn Hs. unfold replace. destruct old as [| h old'].
  - apply Forall_app. split; [assumption |].
    induction Hs as [| c s Hc Hs IH]; cbn [flat_map]; [constructor |].
    constructor; [assumption |]. apply Forall_app. now split.
  - apply rewrite_from_Forall; [| assumption].
    intros t r n. unfold literal. destruct (starts_with _ t); [| discriminate].
    now intros [= <- _].
Qed.

Lemma replace_each_Forall (P : Z -> Prop) (table : list (str * str)) (s : str) :
  Forall (fun e => Forall P (snd e)) table -> Forall P s ->
  Forall P (replace_each table s).
Proof.
  unfold replace_each. intros Ht. revert s.
  induction Ht as [| [old new] table He Ht IH]; intros s Hs; [exact Hs |].
  cbn [fold_left]. apply IH. now apply replace_Forall.
Qed.

(** X3: whatever the text, no brace is left after the steps before the
    normalisation. *)
Theorem no_brace_left (s : str) :
  ~ In LBRACE (markup_steps s) /\ ~ In RBRACE (markup_steps s).
Proof.
  assert (H : Forall (fun c => c <> LBRACE /\ c <> RBRACE) (markup_steps s)).
  { unfold markup_steps. apply replace_each_Forall.
    - repeat constructor; discriminate.
    - rewrite unbrace_spec. apply List.Forall_forall. intros c Hc.
      destruct (unbrace_no_brace (accents_unbraced (accents_braced (special_macros s))))
        as [H1 H2].
      split; intros ->; [now apply H1 | now apply H2]. }
  rewrite List.Forall_forall in H.
  split; intros Hin; destruct (H _ Hin) as [H1 H2]; congruence.
Qed.

Lemma replace_copy (old' new q r : str) (h : Z) :
  ~ In h q ->
  replace (h :: old') new (q ++ r) = q ++ replace (h :: old') new r.
Proof.
  intros Hq. unfold replace.
  apply (rewrite_from_copy _ (fun c => c <> h)).
  - intros c t Hc. now apply (literal_start _ _ h c old').
  - apply List.Forall_forall. intros c Hc ->. now apply Hq.
Qed.

Lemma replace_copy_all (old' new q : str) (h : Z) :
  ~ In h q -> replace (h :: old') new q = q.
Proof.
  intros Hq. rewrite <- (app_nil_r q) at 1. rewrite replace_copy by assumption.
  cbn. apply app_nil_r.
Qed.

Lemma not_in_repeat (x y : Z) (n : nat) : x <> y -> ~ In x (repeat y n).
Proof. intros Hxy Hin. apply repeat_spec in Hin. congruence. Qed.

Lemma literal_short (old new t : str) (h c : Z) :
  ~ In h t ->
  literal (h :: h :: old) new (c :: t) = None.
Proof.
  intros Ht. unfold literal. cbn [starts_with].
  destruct t as [| x t]; [now rewrite andb_false_r |].
  replace (h =? x) with false
    by (symmetry; apply Z.eqb_neq; intros ->; apply Ht; now left).
  cbn [andb]. now rewrite andb_false_r.
Qed.

(** The em dash rule on a run of hyphens. *)
Lemma triple_hyphens (q r : nat) (t : str) :
  (r < 3)%nat -> ~ In 45 t ->
  replace (lit "---") [8212] (repeat 45 (3 * q + r) ++ t)
  = repeat 8212 q ++ repeat 45 r ++ t.
Proof.
  intros Hr Ht. induction q as [| q IH].
  - cbn [Nat.mul Nat.add repeat app].
    change (lit "---") with (45 :: 45 :: lit "-").
    destruct r as [| [| [| r]]]; [| | | lia]; cbn [repeat app]; unfold replace.
    + now apply replace_copy_all.
    + rewrite rewrite_from_none by now apply literal_short.
      f_equal. now apply replace_copy_all.
    + rewrite rewrite_from_none.
      * f_equal. rewrite rewrite_from_none by now apply literal_short.
        f_equal. now apply replace_copy_all.
      * unfold literal. cbn [starts_with lit list_ascii_of_string List.map].
        destruct t as [| x t]; [reflexivity |].
        replace (Z.of_N (N_of_ascii "-") =? x) with false
          by (symmetry; apply Z.eqb_neq; intros <-; apply Ht; now left).
        now rewrite !andb_false_r.
  - replace (3 * S q + r)%nat with (3 + (3 * q + r))%nat by lia.
    rewrite repeat_app, <- app_assoc.
    change (repeat 45 3) with (lit "---").
    unfold replace at 1. change (lit "---") with (45 :: lit "--") at 1.
    change (45 :: lit "--") with (lit "---").
    rewrite rewrite_literal_here by discriminate.
    change (rewrite_from (literal (lit "---") [8212]) 0 (repeat 45 (3 * q + r) ++ t))
      with (replace (lit "---") [8212] (repeat 45 (3 * q + r) ++ t)).
    rewrite IH. reflexivity.
Qed.

(** The en dash rule on what the em dash rule leaves of a run. *)
Lemma double_hyphens (r : nat) (t : str) :
  (r < 3)%nat -> ~ In 45 t ->
  replace (lit "--") [8211] (repeat 45 r ++ t)
  = match r with O => [] | S O => [45] | _ => [8211] end ++ t.
Proof.
  intros Hr Ht. change (lit "--") with (45 :: lit "-").
  destruct r as [| [| [| r]]]; [| | | lia]; cbn [repeat app].
  - now apply replace_copy_all.
  - unfold replace. rewrite rewrite_from_none.
    + f_equal. now apply replace_copy_all.
    + unfold literal. cbn [starts_with lit list_ascii_of_string List.map].
      destruct t as [| x t]; [reflexivity |].
      replace (Z.of_N (N_of_ascii "-") =? x) with false
        by (symmetry; apply Z.eqb_neq; intros <-; apply Ht; now left).
      now rewrite !andb_false_r.
  - unfold replace.
    change (45 :: 45 :: t) with ((45 :: lit "-") ++ t).
    rewrite rewrite_literal_here by discriminate.
    f_equal. now apply replace_copy_all.
Qed.

Lemma quiet_no_mark (s : str) (h : Z) :
  Forall (fun c => quiet c = true) s -> (h = 45 \/ h = 96 \/ h = 39) -> ~ In h s.
Proof.
  intros Hs Hh Hin. rewrite List.Forall_forall in Hs. specialize (Hs h Hin).
  apply quiet_spec in Hs. lia.
Qed.

(** The dash and quote step on a run of hyphens between texts without
    hyphen, backtick and apostrophe. *)
Lemma dash_quotes_run (n : nat) (q t : str) :
  Forall (fun c => quiet c = true) q -> Forall (fun c => quiet c = true) t ->
  dash_quotes (q ++ repeat 45 n ++ t) = q ++ dashes n ++ t.
Proof.
  intros Hq Ht. unfold dash_quotes, replace_each, _DASH_QUOTES. cbn [fold_left].
  pose proof (fun h => quiet_no_mark q h Hq) as Nq.
  pose proof (fun h => quiet_no_mark t h Ht) as Nt.
  change (lit "---") with (45 :: lit "--") at 1.
  rewrite replace_copy by (apply Nq; lia).
  change (45 :: lit "--") with (lit "---").
  rewrite (Nat.div_mod_eq n 3) at 1.
  assert (Hmod : (n mod 3 < 3)%nat) by (apply Nat.mod_upper_bound; lia).
  rewrite triple_hyphens by (assumption || (apply Nt; lia)).
  change (lit "--") with (45 :: lit "-") at 1.
  rewrite replace_copy by (apply Nq; lia).
  rewrite (replace_copy (lit "-") [8211] (repeat 8212 (n / 3))) by
    (apply not_in_repeat; discriminate).
  change (45 :: lit "-") with (lit "--").
  rewrite double_hyphens by (assumption || (apply Nt; lia)).
  rewrite (app_assoc (repeat 8212 (n / 3))). fold (dashes n).
  assert (Hd : forall h, h = 96 \/ h = 39 -> ~ In h (q ++ dashes n ++ t)).
  { intros h Hh Hin. rewrite !in_app_iff in Hin.
    destruct Hin as [Hin | [Hin | Hin]].
    - revert Hin. apply Nq. lia.
    - unfold dashes in Hin. rewrite in_app_iff in Hin. destruct Hin as [Hin | Hin].
      + apply repeat_spec in Hin. lia.
      + destruct (n mod 3)%nat as [| [| k]]; cbn in Hin; lia.
    - revert Hin. apply Nt. lia. }
  change (lit "``") with (96 :: lit "`"). change (lit "''") with (39 :: lit "'").
  rewrite (replace_copy_all (lit "`") [8220] (q ++ dashes n ++ t) 96) by (apply Hd; lia).
  rewrite replace_copy_all by (apply Hd; lia). reflexivity.
Qed.

(** X4: a run of hyphens between texts without backslash, hyphen, backtick
    and apostrophe becomes an em dash for every three hyphens, counted from
    the left, followed by an en dash when two are left over and by the
    hyphen when one is: the rule for three hyphens is applied before the
    rule for two.  The texts around the run only lose their braces. *)
Theorem hyphen_runs (nfc : str -> str) (n : nat) (p s : str) :
  Forall (fun c => quiet c = true) p -> Forall (fun c => quiet c = true) s ->
  markup_steps (p ++ repeat 45 n ++ s) = unbrace p ++ dashes n ++ unbrace s
  /\ (p ++ repeat 45 n ++ s <> [] ->
      latex_to_unicode nfc (p ++ repeat 45 n ++ s)
      = nfc (unbrace p ++ dashes n ++ unbrace s)).
Proof.
  intros Hp Hs.
  assert (H : markup_steps (p ++ repeat 45 n ++ s) = unbrace p ++ dashes n ++ unbrace s).
  { assert (Hb : Forall (fun c => c <> BACKSLASH) (p ++ repeat 45 n ++ s)).
    { rewrite !Forall_app. repeat split; try now apply quiet_not_backslash.
      apply List.Forall_forall. intros c Hc. apply repeat_spec in Hc. subst c. discriminate. }
    unfold markup_steps.
    rewrite special_macros_scan, macro_scan_plain by assumption.
    rewrite accents_braced_plain, accents_unbraced_plain by assumption.
    rewrite unbrace_spec, !unbrace_app.
    replace (unbrace (repeat 45 n)) with (repeat 45 n).
    - apply dash_quotes_run; now apply unbrace_quiet.
    - clear. induction n as [| n IH]; [reflexivity |].
      cbn [repeat]. rewrite unbrace_keep by discriminate. now rewrite <- IH. }
  split; [exact H |]. intros Hne.
  unfold latex_to_unicode. destruct (p ++ repeat 45 n ++ s); [congruence |].
  now rewrite H.
Qed.

Lemma hyphen_runs_witness :
  markup_steps (lit "pp. 1" ++ repeat 45 5 ++ lit "9")
  = unbrace (lit "pp. 1") ++ dashes 5 ++ unbrace (lit "9")
  /\ (lit "pp. 1" ++ repeat 45 5 ++ lit "9" <> [] ->
      latex_to_unicode nfc_letters (lit "pp. 1" ++ repeat 45 5 ++ lit "9")
      = nfc_letters (unbrace (lit "pp. 1") ++ dashes 5 ++ unbrace (lit "9"))).
Proof.
  apply (hyphen_runs nfc_letters 5 (lit "pp. 1") (lit "9"));
    vm_compute; repeat constructor.
Defined.

(** ** Authors *)

Lemma lstrip_all (drop : Z -> bool) (s : str) :
  Forall (fun c => drop c = true) s -> lstrip drop s = [].
Proof.
  induction 1 as [| c s Hc Hs IH]; [reflexivity |]. cbn [lstrip]. now rewrite Hc.
Qed.

Lemma strip_all (drop : Z -> bool) (s : str) :
  Forall (fun c => drop c = true) s -> strip drop s = [].
Proof. intros H. unfold strip, rstrip. rewrite (lstrip_all drop s H). reflexivity. Qed.

(** X5: an author field that is empty or holds whitespace only gives the
    fallback text. *)
Theorem blank_authors_fallback (nfc : str -> str) (raw : str) :
  Forall (fun c => is_space c = true) raw ->
  format_authors nfc raw = NO_AUTHOR.
Proof.
  intros H. unfold format_authors. destruct raw as [| c t] eqn:E; [reflexivity |].
  rewrite <- E in *. unfold norm_parts. rewrite strip_all by exact H. reflexivity.
Qed.

Lemma blank_authors_fallback_witness :
  format_authors nfc_letters [32; 10; 9] = NO_AUTHOR.
Proof.
  apply (blank_authors_fallback nfc_letters [32; 10; 9]).
  repeat constructor.
Defined.

Lemma escape_char_safe (c : Z) : Forall no_markup (escape_char c).
Proof.
  unfold escape_char, DQUOTE.
  repeat match goal with
         | |- context [if ?a =? ?b then _ else _] => destruct (Z.eqb_spec a b)
         end;
    try (repeat constructor; discriminate).
  repeat constructor; unfold DQUOTE; congruence.
Qed.

(** What [html.escape] gives holds no angle bracket and no quote. *)
Lemma html_escape_safe (s : str) : Forall no_markup (html_escape s).
Proof.
  unfold html_escape. induction s as [| c s IH]; cbn [flat_map]; [constructor |].
  apply Forall_app. split; [apply escape_char_safe | exact IH].
Qed.

Lemma join_Forall (P : Z -> Prop) (sep : str) (parts : list str) :
  Forall P sep -> Forall (Forall P) parts -> Forall P (join sep parts).
Proof.
  intros Hsep. induction 1 as [| p parts Hp Hps IH]; [constructor |].
  cbn [join]. destruct parts as [| p' parts]; [exact Hp |].
  apply Forall_app. split; [exact Hp |]. apply Forall_app. now split.
Qed.

Lemma join_escaped_safe (names : list str) :
  Forall no_markup (join (lit ", ") (List.map html_escape names)).
Proof.
  apply join_Forall.
  - vm_compute. repeat constructor; discriminate.
  - apply List.Forall_forall. intros x Hx. apply in_map_iff in Hx.
    destruct Hx as (y & <- & _). apply html_escape_safe.
Qed.

Lemma fallback_safe : Forall no_markup NO_AUTHOR.
Proof. vm_compute. repeat constructor; discriminate. Qed.

Lemma format_authors_safe (nfc : str -> str) (raw : str) :
  Forall no_markup (format_authors nfc raw).
Proof.
  unfold format_authors. destruct raw as [| c t]; [exact fallback_safe |].
  destruct (norm_parts nfc (c :: t)) as [| n names]; [exact fallback_safe |].
  apply join_escaped_safe.
Qed.

(** X7: whatever the author field holds, the text [format_authors] gives
    holds no less-than sign, no greater-than sign and no quote of either
    kind. *)
Theorem authors_html_safe (nfc : str -> str) (raw : str) :
  Forall no_markup (format_authors nfc raw)
  /\ (forall c, In c (format_authors nfc raw) ->
        c <> 60 /\ c <> 62 /\ c <> DQUOTE /\ c <> 39).
Proof.
  pose proof (format_authors_safe nfc raw) as H.
  split; [exact H |]. intros c Hc.
  rewrite List.Forall_forall in H. exact (H c Hc).
Qed.

Lemma run_app (f : Z -> bool) (w rest : str) :
  Forall (fun c => f c = true) w ->
  match rest with [] => True | c :: _ => f c = false end ->
  run f (w ++ rest) = length w /\ skipn (length w) (w ++ rest) = rest.
Proof.
  intros Hw Hr. induction Hw as [| c w Hc Hw IH]; cbn [app run length skipn].
  - split; [| reflexivity]. destruct rest as [| c t]; [reflexivity |].
    cbn [run]. now rewrite Hr.
  - rewrite Hc. destruct IH as [IH1 IH2]. split; [now rewrite IH1 | exact IH2].
Qed.

Lemma lower_char_ci (c x : Z) :
  97 <= c <= 122 -> lower_char x = c -> ci c x = true.
Proof.
  unfold ci, lower_char. intros Hc H.
  destruct ((65 <=? x) && (x <=? 90)) eqn:E; lia.
Qed.

Lemma ci_not_space (c x : Z) :
  97 <= c <= 122 -> ci c x = true -> is_space x = false.
Proof. unfold ci, is_space. lia. Qed.

(** The pattern matches a separator that stands at the start of the text,
    all of it, when no whitespace follows. *)
Lemma and_separator_here (sep rest : str) :
  name_separator sep ->
  match rest with [] => True | c :: _ => is_space c = false end ->
  and_separator (sep ++ rest) = Some (length sep).
Proof.
  intros (w1 & w & w2 & -> & Hn1 & Hn2 & Hw1 & Hw2 & Hw) Hrest.
  destruct w as [| x [| y [| z [| ? ?]]]]; try discriminate.
  change (lit "and") with [97; 110; 100] in Hw.
  injection Hw as Hx Hy Hz.
  apply lower_char_ci in Hx, Hy, Hz; try lia.
  pose proof (ci_not_space 97 x ltac:(lia) Hx) as Hxs.
  unfold and_separator. cbv zeta. rewrite <- !app_assoc.
  destruct (run_app is_space w1 ([x; y; z] ++ w2 ++ rest) Hw1 Hxs) as [R1 S1].
  rewrite R1. destruct (length w1) as [| k1] eqn:E1.
  { destruct w1; [congruence | discriminate]. }
  rewrite S1. cbn [app].
  destruct (run_app is_space w2 rest Hw2 Hrest) as [R2 _].
  rewrite R2. destruct (length w2) as [| k2] eqn:E2.
  { destruct w2; [congruence | discriminate]. }
  rewrite Hx, Hy, Hz. cbn [andb]. f_equal.
  rewrite !length_app, E1. cbn [length]. lia.
Qed.

Lemma split_from_copy (m : str -> option nat) (ok : Z -> Prop) (a r cur : str) :
  (forall c t, ok c -> m (c :: t) = None) -> Forall ok a ->
  split_from m O cur (a ++ r) = split_from m O (rev a ++ cur) r.
Proof.
  intros Hm Ha. revert cur. induction Ha as [| c a Hc Ha IH]; intros cur; [reflexivity |].
  cbn [app split_from]. rewrite (Hm c _ Hc), IH. cbn [rev]. now rewrite <- app_assoc.
Qed.

Lemma and_separator_no_space (s : str) :
  Forall (fun c => is_space c = false) s ->
  forall t, t `suffix_of` s -> and_separator t = None.
Proof.
  intros Hs t [u ->]. apply and_separator_needs_space.
  destruct t as [| c t]; [exact I |].
  apply Forall_app in Hs. destruct Hs as [_ Hs]. now inversion Hs.
Qed.

Lemma split_at_separator (a sep rest : str) :
  Forall (fun c => is_space c = false) a ->
  name_separator sep ->
  match rest with [] => True | c :: _ => is_space c = false end ->
  re_split and_separator (a ++ sep ++ rest) = a :: re_split and_separator rest.
Proof.
  intros Ha Hsep Hrest. unfold re_split.
  rewrite (split_from_copy and_separator (fun c => is_space c = false));
    [| intros c t Hc; now apply and_separator_needs_space | assumption].
  pose proof (and_separator_here sep rest Hsep Hrest) as Hm.
  assert (Hne : sep <> []).
  { destruct Hsep as (w1 & w & w2 & -> & Hn1 & _). destruct w1; [congruence | discriminate]. }
  destruct sep as [| c sep']; [congruence |].
  cbn [app split_from]. cbn [app] in Hm. rewrite Hm.
  cbn [length Nat.pred]. rewrite split_from_skip, drop_app_length.
  now rewrite app_nil_r, rev_involutive.
Qed.

(** X9: names without whitespace, joined by the word and in any case
    between whitespace of any kind and length, are split into exactly
    those names: splitting undoes the joining. *)
Theorem names_split (names : list str) (sep : str) :
  names <> [] ->
  Forall (fun n => n <> [] /\ Forall (fun c => is_space c = false) n) names ->
  name_separator sep ->
  re_split and_separator (join sep names) = names.
Proof.
  intros Hne Hnames Hsep. induction Hnames as [| a names [Ha Sa] Hnames IH]; [congruence |].
  destruct names as [| b names].
  - cbn [join]. unfold re_split. rewrite split_from_no_match; [reflexivity |].
    now apply and_separator_no_space.
  - change (join sep (a :: b :: names)) with (a ++ sep ++ join sep (b :: names)).
    rewrite split_at_separator; try assumption.
    + f_equal. apply IH. discriminate.
    + apply Forall_cons in Hnames. destruct Hnames as [[Hb Sb] _].
      destruct b as [| c b]; [congruence |].
      assert (Hc : is_space c = false) by now inversion Sb.
      cbn [join]. destruct names; cbn [app]; exact Hc.
Qed.

Lemma names_split_witness :
  re_split and_separator (join [32; 10; 65; 78; 68; 9] [lit "Doe"; lit "Lee"; lit "Kim"])
  = [lit "Doe"; lit "Lee"; lit "Kim"].
Proof.
  apply (names_split [lit "Doe"; lit "Lee"; lit "Kim"] [32; 10; 65; 78; 68; 9]).
  - discriminate.
  - repeat constructor; discriminate.
  - exists [32; 10], [65; 78; 68], [9].
    repeat split; try discriminate; repeat constructor.
Defined.

Lemma lstrip_fixed (drop : Z -> bool) (s : str) :
  match s with [] => True | c :: _ => drop c = false end -> lstrip drop s = s.
Proof. destruct s as [| c t]; [reflexivity |]. cbn [lstrip]. now intros ->. Qed.

Lemma strip_fixed (drop : Z -> bool) (s : str) :
  match s with [] => True | c :: _ => drop c = false end ->
  match rev s with [] => True | c :: _ => drop c = false end ->
  strip drop s = s.
Proof.
  intros H1 H2. unfold strip, rstrip.
  rewrite (lstrip_fixed drop s H1), (lstrip_fixed drop (rev s) H2).
  apply rev_involutive.
Qed.

Lemma letter_not_space (c : Z) : is_letter c = true -> is_space c = false.
Proof. unfold is_letter, is_space. lia. Qed.

Lemma word_ends (P : Z -> Prop) (a b : str) (mid : str) :
  Forall P a -> Forall P b -> a <> [] -> b <> [] ->
  match a ++ mid ++ b with [] => True | c :: _ => P c end
  /\ match rev (a ++ mid ++ b) with [] => True | c :: _ => P c end.
Proof.
  intros Ha Hb Na Nb. split.
  - destruct Ha as [| c a Hc Ha]; [congruence | exact Hc].
  - rewrite !rev_app_distr. apply Forall_rev in Hb.
    destruct (rev b) as [| c rb] eqn:E.
    + apply (f_equal (@rev Z)) in E. rewrite rev_involutive in E. now subst b.
    + cbn [app]. now inversion Hb.
Qed.

Lemma whitespace_run_start (c : Z) (t : str) :
  is_space c = false -> whitespace_run (c :: t) = None.
Proof. intros H. unfold whitespace_run. cbn [run]. now rewrite H. Qed.

Lemma split_once_first (c : Z) (a r : str) :
  ~ In c a -> split_once c (a ++ c :: r) = Some (a, r).
Proof.
  induction a as [| x a IH]; intros Ha; cbn [app split_once].
  - now rewrite Z.eqb_refl.
  - replace (x =? c) with false
      by (symmetry; apply Z.eqb_neq; intros ->; apply Ha; now left).
    rewrite IH; [reflexivity |]. intros Hin. apply Ha. now right.
Qed.

Lemma html_escape_plain (s : str) :
  Forall (fun c => no_markup c /\ c <> 38) s -> html_escape s = s.
Proof.
  unfold html_escape. induction 1 as [| c s [(H1 & H2 & H3 & H4) H5] Hs IH]; [reflexivity |].
  cbn [flat_map]. rewrite IH. unfold escape_char.
  apply Z.eqb_neq in H1, H2, H3, H4, H5. now rewrite H1, H2, H3, H4, H5.
Qed.

(** A family name, a comma, a space and a given name, both names made of
    letters: what every step does to the text. *)
Lemma family_given_steps (family given : str) :
  forallb is_letter family = true -> forallb is_letter given = true ->
  family <> [] -> given <> [] ->
  let p := family ++ lit ", " ++ given in
  strip is_space p = p
  /\ markup_steps p = p
  /\ collapse_whitespace p = p
  /\ split_once 44 p = Some (family, 32 :: given)
  /\ strip is_space family = family
  /\ strip is_space (32 :: given) = given
  /\ re_split and_separator p = [p]
  /\ html_escape (given ++ [32] ++ family) = given ++ [32] ++ family.
Proof.
  intros Hf Hg Nf Ng p.
  rewrite forallb_forall in Hf, Hg. rewrite <- List.Forall_forall in Hf, Hg.
  assert (Sf : Forall (fun c => is_space c = false) family)
    by (eapply List.Forall_impl; [| exact Hf]; apply letter_not_space).
  assert (Sg : Forall (fun c => is_space c = false) given)
    by (eapply List.Forall_impl; [| exact Hg]; apply letter_not_space).
  destruct (word_ends (fun c => is_space c = false) family given (lit ", ") Sf Sg Nf Ng)
    as [E1 E2].
  assert (Hstrip : strip is_space p = p) by now apply strip_fixed.
  assert (Qf : Forall (fun c => quiet c = true) family)
    by (eapply List.Forall_impl; [| exact Hf]; intros c Hc; now apply letter_quiet).
  assert (Qg : Forall (fun c => quiet c = true) given)
    by (eapply List.Forall_impl; [| exact Hg]; intros c Hc; now apply letter_quiet).
  assert (Bf : Forall (fun c => c <> LBRACE /\ c <> RBRACE) family)
    by (eapply List.Forall_impl; [| exact Hf]; intros c Hc; now apply letter_quiet).
  assert (Bg : Forall (fun c => c <> LBRACE /\ c <> RBRACE) given)
    by (eapply List.Forall_impl; [| exact Hg]; intros c Hc; now apply letter_quiet).
  assert (Hunbrace : forall s, Forall (fun c => c <> LBRACE /\ c <> RBRACE) s -> unbrace s = s).
  { induction 1 as [| c s [H1 H2] Hs IH]; [reflexivity |].
    rewrite unbrace_keep by assumption. now rewrite IH. }
  split; [exact Hstrip |]. split; [| split; [| split; [| split; [| split; [| split]]]]].
  - rewrite markup_steps_quiet.
    2: { subst p. rewrite !Forall_app. repeat split; try assumption. repeat constructor. }
    apply Hunbrace. subst p. rewrite !Forall_app.
    repeat split; try assumption; repeat constructor; discriminate.
  - subst p. unfold collapse_whitespace.
    rewrite (rewrite_from_copy whitespace_run (fun c => is_space c = false));
      [| intros c t Hc; now apply whitespace_run_start | assumption].
    f_equal. change (lit ", " ++ given) with (44 :: 32 :: given).
    rewrite rewrite_from_none by reflexivity. f_equal.
    cbn [rewrite_from]. unfold whitespace_run at 1. cbn [run].
    change (is_space 32) with true. cbn iota.
    assert (R : run is_space given = O).
    { destruct Sg as [| c g Hc _]; [reflexivity |]. cbn [run]. now rewrite Hc. }
    rewrite R. cbn [Nat.pred app]. f_equal.
    apply (rewrite_from_copy_all whitespace_run (fun c => is_space c = false));
      [intros c t Hc; now apply whitespace_run_start | assumption].
  - subst p. change (lit ", " ++ given) with (44 :: 32 :: given).
    apply split_once_first. intros Hin.
    rewrite List.Forall_forall in Hf. specialize (Hf _ Hin). discriminate.
  - apply strip_fixed.
    + destruct Sf; [congruence | assumption].
    + apply Forall_rev in Sf. destruct (rev family) eqn:E; [exact I | now inversion Sf].
  - unfold strip. cbn [lstrip]. change (is_space 32) with true. cbn iota.
    fold (strip is_space given). apply strip_fixed.
    + destruct Sg; [congruence | assumption].
    + apply Forall_rev in Sg. destruct (rev given) eqn:E; [exact I | now inversion Sg].
  - subst p. unfold re_split.
    rewrite (split_from_copy and_separator (fun c => is_space c = false));
      [| intros c t Hc; now apply and_separator_needs_space | assumption].
    change (lit ", " ++ given) with (44 :: 32 :: given).
    cbn [split_from]. rewrite and_separator_needs_space by reflexivity.
    assert (Hsp : and_separator (32 :: given) = None).
    { unfold and_separator. cbv zeta. cbn [run]. change (is_space 32) with true. cbn iota.
      assert (R : forall s, Forall (fun c => is_space c = false) s -> run is_space s = O).
      { intros s Hs. destruct Hs as [| c g Hc _]; [reflexivity |]. cbn [run]. now rewrite Hc. }
      rewrite (R given Sg). cbn [skipn].
      destruct given as [| a [| n [| d s']]]; try reflexivity.
      cbn [skipn]. rewrite (R s'); [reflexivity |].
      now inversion Sg as [| ? ? _ [| ? ? _ [| ? ? _ H]]]. }
    rewrite Hsp. rewrite split_from_no_match by now apply and_separator_no_space.
    rewrite app_nil_r. cbn [rev]. rewrite rev_involutive, <- !app_assoc. reflexivity.
  - apply html_escape_plain. rewrite !Forall_app.
    assert (L : forall c, is_letter c = true -> no_markup c /\ c <> 38).
    { intros c Hc. apply is_letter_bounds in Hc. unfold no_markup, DQUOTE. lia. }
    repeat split.
    + eapply List.Forall_impl; [| exact Hg]. exact L.
    + repeat constructor; discriminate.
    + eapply List.Forall_impl; [| exact Hf]. exact L.
Qed.

Lemma format_name_nonempty (nfc : str -> str) (p : str) (c : Z) (t : str) :
  strip is_space p = c :: t ->
  format_name nfc p
  = Some (let p2 := strip is_space (collapse_whitespace (nfc (markup_steps (c :: t)))) in
          match split_once 44 p2 with
          | Some (l, r) =>
              match strip is_space l, strip is_space r with
              | _ :: _, _ :: _ => strip is_space r ++ [32] ++ strip is_space l
              | _, _ => p2
              end
          | None => p2
          end).
Proof. intros H. unfold format_name. rewrite H. reflexivity. Qed.

Lemma format_authors_nonempty (nfc : str -> str) (raw : str) :
  raw <> [] ->
  format_authors nfc raw
  = match norm_parts nfc raw with
    | [] => NO_AUTHOR
    | names => join (lit ", ") (List.map html_escape names)
    end.
Proof. destruct raw; [congruence | reflexivity]. Qed.

(** X6: a name written as family name, comma, space, given name, both made
    of ASCII letters, comes out as given name, space, family name, when
    the final normalisation leaves that text as it is (as NFC does for
    ASCII text). *)
Theorem family_given_reordered (nfc : str -> str) (family given : str) :
  forallb is_letter family = true -> forallb is_letter given = true ->
  family <> [] -> given <> [] ->
  nfc (family ++ lit ", " ++ given) = family ++ lit ", " ++ given ->
  format_name nfc (family ++ lit ", " ++ given) = Some (given ++ [32] ++ family)
  /\ format_authors nfc (family ++ lit ", " ++ given) = given ++ [32] ++ family.
Proof.
  intros Hf Hg Nf Ng Hnfc.
  destruct (family_given_steps family given Hf Hg Nf Ng)
    as (S1 & M & C & Sp & S2 & S3 & R & E).
  cbv zeta in *.
  assert (Hne : exists c t, family ++ lit ", " ++ given = c :: t).
  { destruct family as [| c t]; [congruence |]. now exists c, (t ++ lit ", " ++ given). }
  destruct Hne as (c & t & Hp).
  assert (Hname : format_name nfc (family ++ lit ", " ++ given)
                  = Some (given ++ [32] ++ family)).
  { rewrite (format_name_nonempty nfc _ c t) by (now rewrite S1).
    rewrite <- Hp. cbv zeta. rewrite M, Hnfc, C, S1, Sp, S2, S3.
    destruct family; [congruence |]. destruct given; [congruence |]. reflexivity. }
  split; [exact Hname |].
  rewrite format_authors_nonempty by (rewrite Hp; discriminate).
  unfold norm_parts. rewrite S1, R. cbn [omap list_omap]. rewrite Hname.
  cbn [List.map join]. exact E.
Qed.

Lemma family_given_reordered_witness :
  format_name nfc_letters (lit "Smith" ++ lit ", " ++ lit "John")
  = Some (lit "John" ++ [32] ++ lit "Smith")
  /\ format_authors nfc_letters (lit "Smith" ++ lit ", " ++ lit "John")
     = lit "John" ++ [32] ++ lit "Smith".
Proof.
  apply (family_given_reordered nfc_letters (lit "Smith") (lit "John"));
    first [reflexivity | discriminate].
Defined.

(** ** Records on the page *)

Lemma group_add_Permutation (y : str) (e : entry) (g : groups) :
  Permutation (flat_map snd (group_add y e g)) (flat_map snd g ++ [e]).
Proof.
  induction g as [| [k es] g IH]; cbn [group_add flat_map snd]; [reflexivity |].
  destruct (decide (k = y)); cbn [flat_map snd].
  - rewrite <- !app_assoc. apply Permutation_app_head. apply Permutation_app_comm.
  - rewrite <- app_assoc. now apply Permutation_app_head.
Qed.

Lemma grouped_by_year_Permutation (entries : list entry) :
  Permutation (flat_map snd (grouped_by_year entries)) entries.
Proof.
  unfold grouped_by_year.
  assert (H : forall g, Permutation
                (flat_map snd (fold_left (fun g e => group_add (year_of e) e g) entries g))
                (flat_map snd g ++ entries)).
  { induction entries as [| e entries IH]; intros g; cbn [fold_left].
    - now rewrite app_nil_r.
    - rewrite IH, group_add_Permutation, <- app_assoc. reflexivity. }
  apply (H []).
Qed.

Lemma group_get_keys (g : groups) :
  NoDup (List.map fst g) ->
  flat_map (fun y => group_get y g) (List.map fst g) = flat_map snd g.
Proof.
  induction g as [| [k es] g IH]; [reflexivity |].
  cbn [List.map fst flat_map snd group_get]. intros Hnd.
  apply NoDup_cons in Hnd. destruct Hnd as [Hk Hnd].
  rewrite decide_True by reflexivity. f_equal. rewrite <- (IH Hnd).
  clear IH Hnd. induction (List.map fst g) as [| y ys IHy]; [reflexivity |].
  cbn [flat_map]. rewrite decide_False by (intros ->; apply Hk; apply list_elem_of_here).
  rewrite IHy; [reflexivity |]. intros Hin. apply Hk. now apply list_elem_of_further.
Qed.

Lemma flat_map_Permutation_pointwise {A B} (f h : A -> list B) (l : list A) :
  (forall x, Permutation (f x) (h x)) ->
  Permutation (flat_map f l) (flat_map h l).
Proof.
  intros H. induction l as [| x l IH]; cbn [flat_map]; [reflexivity |].
  now apply Permutation_app.
Qed.

Lemma year_blocks_items (nfc : str -> str) (g : groups) (years : list str) (c : Z) :
  flat_map block_items (year_blocks nfc g years c)
  = List.map (render_entry nfc) (flat_map (papers_in_year g) years).
Proof.
  revert c. induction years as [| y years IH]; intros c; [reflexivity |].
  cbn [year_blocks flat_map block_items]. now rewrite IH, List.map_app.
Qed.

(** The records under the headings, read down the page, are the records
    that were read, in another order. *)
Lemma papers_Permutation (int_of_str : str -> option Z) (entries : list entry) :
  let g := grouped_by_year entries in
  Permutation (flat_map (papers_in_year g) (sorted_years int_of_str (List.map fst g)))
              entries.
Proof.
  intros g.
  rewrite (flat_map_Permutation_pointwise (papers_in_year g) (fun y => group_get y g)).
  - unfold sorted_years. rewrite <- sorted_by_Permutation.
    subst g. rewrite group_get_keys by apply grouped_by_year_total.
    apply grouped_by_year_Permutation.
  - intros y. unfold papers_in_year. symmetry. apply sorted_by_Permutation.
Qed.

Lemma blocks_items_Permutation (nfc : str -> str) (int_of_str : str -> option Z)
    (entries : list entry) :
  Permutation (flat_map block_items (blocks_of nfc int_of_str entries))
              (List.map (render_entry nfc) entries).
Proof.
  unfold blocks_of. rewrite year_blocks_items.
  apply Permutation_map. apply papers_Permutation.
Qed.

(** X10: the list items of the page are the rendered records: every record
    that was read gives one item, a record read twice gives two, and
    nothing else is an item. *)
Theorem items_are_records (nfc : str -> str) (int_of_str : str -> option Z)
    (entries : list entry) :
  Permutation (flat_map block_items (blocks_of nfc int_of_str entries))
              (List.map (render_entry nfc) entries)
  /\ length (flat_map block_items (blocks_of nfc int_of_str entries)) = length entries
  /\ (forall item, In item (flat_map block_items (blocks_of nfc int_of_str entries))
                   <-> exists e, In e entries /\ item = render_entry nfc e).
Proof.
  pose proof (blocks_items_Permutation nfc int_of_str entries) as H.
  split; [exact H |]. split.
  - rewrite (Permutation_length H). apply length_map.
  - intros item. split.
    + intros Hin. apply (Permutation_in _ H) in Hin. apply in_map_iff in Hin.
      destruct Hin as (e & <- & He). now exists e.
    + intros (e & He & ->). apply (Permutation_in _ (Permutation_sym H)).
      now apply in_map.
Qed.

Lemma group_add_years (y : str) (e : entry) (g : groups) :
  year_of e = y ->
  Forall (fun kv => snd kv <> [] /\ Forall (fun x => year_of x = fst kv) (snd kv)) g ->
  Forall (fun kv => snd kv <> [] /\ Forall (fun x => year_of x = fst kv) (snd kv))
         (group_add y e g).
Proof.
  intros Hy. induction 1 as [| [k es] g [Hne Hk] Hg IH]; cbn [group_add].
  - repeat constructor; [discriminate | assumption].
  - destruct (decide (k = y)) as [-> | Hky].
    + constructor; [| assumption]. cbn [fst snd] in *. split.
      * destruct es; discriminate.
      * apply Forall_app. split; [assumption | now repeat constructor].
    + constructor; [now split | assumption].
Qed.

Lemma grouped_by_year_years (entries : list entry) :
  Forall (fun kv => snd kv <> [] /\ Forall (fun x => year_of x = fst kv) (snd kv))
         (grouped_by_year entries).
Proof.
  unfold grouped_by_year.
  assert (H : forall g,
    Forall (fun kv => snd kv <> [] /\ Forall (fun x => year_of x = fst kv) (snd kv)) g ->
    Forall (fun kv => snd kv <> [] /\ Forall (fun x => year_of x = fst kv) (snd kv))
           (fold_left (fun g e => group_add (year_of e) e g) entries g)).
  { induction entries as [| e entries IH]; intros g Hg; [exact Hg |].
    cbn [fold_left]. apply IH. now apply group_add_years. }
  apply H. constructor.
Qed.

Lemma group_get_key (g : groups) (y : str) :
  In y (List.map fst g) ->
  exists es, In (y, es) g /\ group_get y g = es.
Proof.
  induction g as [| [k es] g IH]; cbn [List.map fst In group_get]; [tauto |].
  intros H. destruct (decide (k = y)) as [-> | Hky].
  - exists es. split; [now left | reflexivity].
  - destruct H as [H | H]; [congruence |].
    destruct (IH H) as (es' & Hin & Hget). exists es'. split; [now right | exact Hget].
Qed.

Lemma group_get_add (y y' : str) (e : entry) (g : groups) :
  group_get y (group_add y' e g)
  = if decide (y' = y) then group_get y g ++ [e] else group_get y g.
Proof.
  induction g as [| [k es] g IH]; cbn [group_add group_get].
  - destruct (decide (y' = y)); reflexivity.
  - destruct (decide (k = y')) as [-> | Hk]; cbn [group_get].
    + destruct (decide (y' = y)); reflexivity.
    + rewrite IH. destruct (decide (k = y)) as [-> | Hky]; [| reflexivity].
      now rewrite decide_False.
Qed.

(** The group of a year holds the records of that year, in the order in
    which they were read. *)
Lemma group_get_filter (entries : list entry) (y : str) :
  group_get y (grouped_by_year entries)
  = List.filter (fun e => bool_decide (year_of e = y)) entries.
Proof.
  unfold grouped_by_year.
  assert (H : forall g,
    group_get y (fold_left (fun g e => group_add (year_of e) e g) entries g)
    = group_get y g ++ List.filter (fun e => bool_decide (year_of e = y)) entries).
  { induction entries as [| e entries IH]; intros g; cbn [fold_left List.filter].
    - now rewrite app_nil_r.
    - rewrite IH, group_get_add. destruct (decide (year_of e = y)) as [E | E].
      + rewrite (bool_decide_eq_true_2 _ E). now rewrite <- app_assoc.
      + now rewrite (bool_decide_eq_false_2 _ E). }
  apply (H []).
Qed.

Lemma year_keys (entries : list entry) (y : str) :
  In y (List.map fst (grouped_by_year entries))
  <-> exists e, In e entries /\ year_of e = y.
Proof.
  split.
  - intros Hkey. destruct (group_get_key _ y Hkey) as (es & Hin & Hget).
    pose proof (grouped_by_year_years entries) as Hg.
    rewrite List.Forall_forall in Hg. destruct (Hg _ Hin) as [Hne _]. cbn [snd] in Hne.
    rewrite <- Hget, group_get_filter in Hne.
    destruct (List.filter _ entries) as [| e es'] eqn:E; [congruence |].
    assert (He : In e (List.filter (fun e => bool_decide (year_of e = y)) entries))
      by (rewrite E; now left).
    apply List.filter_In in He. destruct He as [He1 He2].
    exists e. split; [assumption | exact (bool_decide_eq_true_1 _ He2)].
  - intros (e & He & Hy).
    assert (Hin : In e (flat_map snd (grouped_by_year entries))).
    { eapply Permutation_in; [| exact He]. symmetry. apply grouped_by_year_Permutation. }
    apply in_flat_map in Hin. destruct Hin as ([k es] & Hk & Hes). cbn [snd] in Hes.
    pose proof (grouped_by_year_years entries) as Hg.
    rewrite List.Forall_forall in Hg. destruct (Hg _ Hk) as [_ Hyear]. cbn [fst snd] in Hyear.
    rewrite List.Forall_forall in Hyear. rewrite (Hyear e Hes) in Hy. subst k.
    apply in_map_iff. now exists (y, es).
Qed.

(** X11: the headings of the page are the years of the records that were
    read (the year Undated for a record without year).  Under a heading
    stand the records of that year and no others, at least one, in the
    order in which they were read but stably sorted by their raw author
    field, in the order of Python on strings. *)
Theorem year_lists (int_of_str : str -> option Z) (entries : list entry) (y : str) :
  let g := grouped_by_year entries in
  let author := fun x : entry => get_default x "author" [] in
  papers_in_year g y
  = sorted_by str_leb author (List.filter (fun e => bool_decide (year_of e = y)) entries)
  /\ Forall (fun e => In e entries /\ year_of e = y) (papers_in_year g y)
  /\ StronglySorted (ordered_by str_leb author) (papers_in_year g y)
  /\ (In y (sorted_years int_of_str (List.map fst g))
      <-> exists e, In e entries /\ year_of e = y)
  /\ (In y (sorted_years int_of_str (List.map fst g)) -> papers_in_year g y <> []).
Proof.
  intros g author.
  assert (Heq : papers_in_year g y
                = sorted_by str_leb author
                    (List.filter (fun e => bool_decide (year_of e = y)) entries)).
  { unfold papers_in_year. subst g. now rewrite group_get_filter. }
  assert (Hkeys : In y (sorted_years int_of_str (List.map fst g))
                  <-> exists e, In e entries /\ year_of e = y).
  { rewrite <- year_keys. fold g. split; intros H.
    - eapply Permutation_in; [| exact H]. symmetry. apply sorted_by_Permutation.
    - eapply Permutation_in; [| exact H]. apply sorted_by_Permutation. }
  split; [exact Heq |]. split; [| split; [| split; [exact Hkeys |]]].
  - rewrite Heq. apply List.Forall_forall. intros e He.
    assert (He' : In e (List.filter (fun e => bool_decide (year_of e = y)) entries)).
    { eapply Permutation_in; [| exact He]. symmetry. apply sorted_by_Permutation. }
    apply List.filter_In in He'. destruct He' as [H1 H2].
    split; [assumption | exact (bool_decide_eq_true_1 _ H2)].
  - apply sorted_by_sorted; [apply str_leb_total | apply str_leb_trans].
  - intros Hy. apply Hkeys in Hy. destruct Hy as (e & He & Hye).
    rewrite Heq. intros E.
    assert (Hin : In e (List.filter (fun e => bool_decide (year_of e = y)) entries)).
    { apply List.filter_In. split; [assumption | exact (bool_decide_eq_true_2 _ Hye)]. }
    assert (Hin' : In e (sorted_by str_leb author
                           (List.filter (fun e => bool_decide (year_of e = y)) entries))).
    { eapply Permutation_in; [| exact Hin]. apply sorted_by_Permutation. }
    rewrite E in Hin'. destruct Hin'.
Qed.

(** ** The page *)

Lemma year_blocks_length (nfc : str -> str) (g : groups) (years : list str) (c : Z) :
  length (year_blocks nfc g years c) = length years.
Proof.
  revert c. induction years as [| y years IH]; intros c; [reflexivity |].
  cbn [year_blocks length]. now rewrite IH.
Qed.

Lemma block_lines_length (bs : list block) :
  length (flat_map block_lines bs)
  = (3 * length bs + length (flat_map block_items bs))%nat.
Proof.
  induction bs as [| b bs IH]; [reflexivity |].
  cbn [flat_map]. rewrite !length_app, IH. unfold block_lines.
  rewrite !length_app. cbn [length]. lia.
Qed.

Lemma split_from_line (piece cur rest : str) :
  ~ In 10 piece ->
  split_from line_feed O cur (piece ++ rest)
  = split_from line_feed O (rev piece ++ cur) rest.
Proof.
  revert cur. induction piece as [| c piece IH]; intros cur Hno; [reflexivity |].
  cbn [app split_from].
  assert (Hc : c <> 10) by (intros ->; apply Hno; now left).
  assert (E : line_feed (c :: piece ++ rest) = None).
  { unfold line_feed. destruct c as [| p | p]; try reflexivity.
    do 4 (destruct p as [p | p |]; try reflexivity). congruence. }
  rewrite E, IH by (intros H; apply Hno; now right).
  cbn [rev]. now rewrite <- app_assoc.
Qed.

(** Pieces without a line feed, joined by line feeds, are the lines of the
    joined text. *)
Lemma lines_join (pieces : list str) :
  pieces <> [] -> Forall (fun piece => ~ In 10 piece) pieces ->
  lines (join [10] pieces) = pieces.
Proof.
  unfold lines, re_split. intros Hne Hall.
  destruct pieces as [| piece pieces]; [congruence |]. clear Hne.
  revert piece Hall. induction pieces as [| next pieces IH]; intros piece Hall.
  - apply Forall_cons in Hall. destruct Hall as [Hp _].
    cbn [join]. rewrite <- (app_nil_r piece) at 1.
    rewrite split_from_line by assumption.
    cbn [split_from]. now rewrite app_nil_r, rev_involutive.
  - apply Forall_cons in Hall. destruct Hall as [Hp Hall].
    change (join [10] (piece :: next :: pieces))
      with (piece ++ 10 :: join [10] (next :: pieces)).
    rewrite split_from_line by assumption.
    cbn [split_from line_feed Nat.pred]. rewrite app_nil_r, rev_involutive.
    f_equal. apply IH. exact Hall.
Qed.

(** X12: the page is the pieces of the loop joined by line feeds: three
    pieces for every year (heading, start of list, end of list) and one
    piece for every record.  Every record has its list item among the
    pieces, and the heading of its year, which holds the year as it was
    read, without escaping.  When no piece holds a line feed, the pieces
    are the lines of the page. *)
Theorem page_lines (nfc : str -> str) (int_of_str : str -> option Z)
    (entries : list entry) :
  generated_content nfc int_of_str entries = join [10] (html_lines nfc int_of_str entries)
  /\ length (html_lines nfc int_of_str entries)
     = (3 * length (grouped_by_year entries) + length entries)%nat
  /\ (forall e, In e entries ->
        In (render_entry nfc e) (html_lines nfc int_of_str entries)
        /\ In (lit "<h3 class=" ++ quoted (lit "year-header") ++ lit ">"
               ++ year_of e ++ lit "</h3>")
              (html_lines nfc int_of_str entries))
  /\ (entries <> [] ->
      Forall (fun piece => ~ In 10 piece) (html_lines nfc int_of_str entries) ->
      lines (generated_content nfc int_of_str entries) = html_lines nfc int_of_str entries).
Proof.
  pose proof (blocks_items_Permutation nfc int_of_str entries) as Hperm.
  assert (Hlen : length (html_lines nfc int_of_str entries)
                 = (3 * length (grouped_by_year entries) + length entries)%nat).
  { unfold html_lines.
    rewrite block_lines_length. rewrite (Permutation_length Hperm), length_map.
    unfold blocks_of. rewrite year_blocks_length.
    unfold sorted_years. rewrite sorted_by_length, length_map. reflexivity. }
  split; [reflexivity |]. split; [exact Hlen |]. split.
  - unfold html_lines. intros e He. split.
    + assert (Hin : In (render_entry nfc e)
                       (flat_map block_items (blocks_of nfc int_of_str entries))).
      { eapply Permutation_in; [symmetry; exact Hperm |]. now apply in_map. }
      apply in_flat_map in Hin. destruct Hin as (b & Hb & Hitem).
      apply in_flat_map. exists b. split; [assumption |].
      unfold block_lines. rewrite !in_app_iff. right. now left.
    + assert (Hy : In (year_of e) (List.map block_year (blocks_of nfc int_of_str entries))).
      { unfold blocks_of. rewrite year_blocks_years.
        eapply Permutation_in; [apply sorted_by_Permutation |].
        apply year_keys. now exists e. }
      apply in_map_iff in Hy. destruct Hy as (b & Hby & Hb).
      apply in_flat_map. exists b. split; [assumption |].
      unfold block_lines. rewrite <- Hby. now left.
  - intros Hne Hall. unfold generated_content. apply lines_join; [| assumption].
    intros E. rewrite E in Hlen. cbn [length] in Hlen.
    destruct entries; [congruence | cbn [length] in Hlen; lia].
Qed.

Lemma no_line_feed_checked (pieces : list str) :
  forallb (fun piece => negb (member 10 piece)) pieces = true ->
  Forall (fun piece => ~ In 10 piece) pieces.
Proof.
  intros H. apply List.Forall_forall. intros piece Hp.
  rewrite forallb_forall in H. specialize (H piece Hp).
  apply negb_true_iff in H. intros Hin. apply member_In in Hin. congruence.
Qed.

Lemma page_lines_witness :
  let entries : list entry := [ {[ "year" := lit "2024"; "title" := lit "T" ]} ] in
  lines (generated_content nfc_letters py_int entries) = html_lines nfc_letters py_int entries.
Proof.
  intros entries.
  destruct (page_lines nfc_letters py_int entries) as (_ & _ & _ & H).
  apply H; [discriminate |].
  apply no_line_feed_checked. vm_compute. reflexivity.
Defined.

(** X8: a list item is fixed markup around four texts of the record: the
    link, the title (normalised and escaped), the authors (formatted) and
    the venue (as rendered).  The title, the authors, the venue and the
    link as written in the href hold no less-than sign, no greater-than
    sign and no quote, and a link, when there is one, is not empty. *)
Theorem item_texts_escaped (nfc : str -> str) (e : entry) :
  let title := html_escape (latex_to_unicode nfc (get_default e "title" NO_TITLE)) in
  let authors := format_authors nfc (get_default e "author" NO_AUTHOR) in
  let venue := rendered_venue nfc e in
  let rest :=
    lit "<div class=" ++ quoted (lit "pub-authors") ++ lit ">" ++ authors ++ lit "</div>"
    ++ lit "<div class=" ++ quoted (lit "pub-venue") ++ lit ">" ++ venue
    ++ lit "</div></li>" in
  Forall no_markup title
  /\ Forall no_markup authors
  /\ Forall no_markup venue
  /\ (forall url, link_url e = Some url ->
        url <> []
        /\ Forall no_markup (html_escape url)
        /\ render_entry nfc e
           = lit "<li>"
             ++ (lit "<a class=" ++ quoted (lit "pub-title") ++ lit " href="
                 ++ quoted (html_escape url) ++ lit " target=" ++ quoted (lit "_blank")
                 ++ lit " rel=" ++ quoted (lit "noopener noreferrer") ++ lit ">"
                 ++ title ++ lit "</a>")
             ++ rest)
  /\ (link_url e = None ->
        render_entry nfc e
        = lit "<li>"
          ++ (lit "<span class=" ++ quoted (lit "pub-title") ++ lit ">" ++ title
              ++ lit "</span>")
          ++ rest).
Proof.
  intros title authors venue rest.
  split; [apply html_escape_safe |].
  split; [apply format_authors_safe |]. split; [apply html_escape_safe |].
  split.
  - intros url Hurl.
    assert (Hne : url <> []).
    { unfold link_url in Hurl.
      destruct (nonempty (e !! "doi")) as [d |] eqn:Ed.
      - assert (d <> []) by (destruct (e !! "doi") as [[| ? ?] |]; cbn in Ed; congruence).
        destruct (negb _); injection Hurl as <-; [discriminate | assumption].
      - destruct (e !! "url") as [[| ? ?] |]; cbn in Hurl; congruence. }
    split; [exact Hne |]. split; [apply html_escape_safe |].
    unfold render_entry. rewrite Hurl. destruct url; [congruence | reflexivity].
  - intros Hnone. unfold render_entry. rewrite Hnone. reflexivity.
Qed.

(** ** Files of the run *)

Section Files.
Variable nfc : str -> str.
Variable int_of_str : str -> option Z.
Variable load : str -> outcome (list entry).

(** What the run leaves of the machine, stage by stage: the files, with
    the output file written or not, and all else but the console as it
    was. *)
Lemma main_leaves (w : World) :
  let w' := fst (main nfc int_of_str load w) in
  files w' =
    match files w !! BIBTEX_FILE, read_error w BIBTEX_FILE with
    | Some stored_bib, None =>
        match load (universal_newlines stored_bib),
              files w !! TEMPLATE_FILE, read_error w TEMPLATE_FILE with
        | Returned entries, Some stored_template, None =>
            let data :=
              replace [10] (linesep w)
                (output_html nfc int_of_str entries (universal_newlines stored_template)) in
            if can_write w OUTPUT_FILE then
              match room w with
              | None => <[OUTPUT_FILE := data]> (files w)
              | Some k =>
                  if (length data <=? k)%nat
                  then <[OUTPUT_FILE := data]> (files w)
                  else <[OUTPUT_FILE := take k data]> (files w)
              end
            else files w
        | _, _, _ => files w
        end
    | _, _ => files w
    end
  /\ read_error w' = read_error w
  /\ can_write w' = can_write w
  /\ room w' = room w
  /\ linesep w' = linesep w.
Proof.
  cbn zeta. rewrite main_stages.
  pose proof (fun e w0 => reported_spec e w0) as R.
  pose proof (fun w0 => completed_spec w0) as C.
  destruct (files w !! BIBTEX_FILE) as [stored_bib |];
    [| destruct (R (NO_SUCH_FILE BIBTEX_FILE) w) as (? & ? & ? & ? & ? & _);
       repeat split; assumption].
  destruct (read_error w BIBTEX_FILE) as [e |];
    [destruct (R e w) as (? & ? & ? & ? & ? & _); repeat split; assumption |].
  destruct (load (universal_newlines stored_bib)) as [entries | e];
    [| destruct (R e w) as (? & ? & ? & ? & ? & _); repeat split; assumption].
  destruct (files w !! TEMPLATE_FILE) as [stored_template |];
    [| destruct (R (NO_SUCH_FILE TEMPLATE_FILE) w) as (? & ? & ? & ? & ? & _);
       repeat split; assumption].
  destruct (read_error w TEMPLATE_FILE) as [e |];
    [destruct (R e w) as (? & ? & ? & ? & ? & _); repeat split; assumption |].
  cbn zeta. destruct (can_write w OUTPUT_FILE);
    [| destruct (R (PERMISSION_DENIED OUTPUT_FILE) w) as (? & ? & ? & ? & ? & _);
       repeat split; assumption].
  destruct (room w) as [k |] eqn:Er; [destruct (length _ <=? k)%nat |].
  - match goal with
    | |- context [completed ?w0] =>
        destruct (C w0) as (H1 & H2 & H3 & H4 & H5 & _)
    end.
    rewrite H1, H2, H3, H4, H5. repeat split. exact Er.
  - match goal with
    | |- context [reported ?e ?w0] =>
        destruct (R e w0) as (H1 & H2 & H3 & H4 & H5 & _)
    end.
    rewrite H1, H2, H3, H4, H5. repeat split. exact Er.
  - match goal with
    | |- context [completed ?w0] =>
        destruct (C w0) as (H1 & H2 & H3 & H4 & H5 & _)
    end.
    rewrite H1, H2, H3, H4, H5. repeat split. exact Er.
Qed.

Lemma main_keeps (w : World) (path : string) :
  path <> OUTPUT_FILE ->
  files (fst (main nfc int_of_str load w)) !! path = files w !! path
  /\ can_write (fst (main nfc int_of_str load w)) = can_write w
  /\ room (fst (main nfc int_of_str load w)) = room w.
Proof.
  intros Hp. destruct (main_leaves w) as (Hf & _ & Hc & Hr & _). cbn zeta in *.
  split; [| split; assumption].
  rewrite Hf.
  repeat match goal with
         | |- context [match ?x with _ => _ end] => destruct x
         end;
    first [reflexivity | apply lookup_insert_ne; congruence].
Qed.

(** X13: the run writes to the output file only: every other file, what
    can be written and the room on the device are after the run what they
    were before it. *)
Theorem main_writes_output_only (w : World) (path : string) :
  path <> OUTPUT_FILE ->
  let w' := fst (main nfc int_of_str load w) in
  files w' !! path = files w !! path
  /\ can_write w' = can_write w
  /\ room w' = room w.
Proof. intros Hp w'. now apply main_keeps. Qed.

(** X14: running the program again on the files it left changes no file:
    the second run reads the same bibliography and template and writes the
    same text. *)
Theorem main_twice (w : World) :
  files (fst (main nfc int_of_str load (fst (main nfc int_of_str load w))))
  = files (fst (main nfc int_of_str load w)).
Proof.
  set (w1 := fst (main nfc int_of_str load w)).
  destruct (main_keeps w BIBTEX_FILE ltac:(discriminate)) as (Hb & _ & _).
  destruct (main_keeps w TEMPLATE_FILE ltac:(discriminate)) as (Ht & _ & _).
  destruct (main_leaves w) as (Hf & He & Hc & Hr & Hl).
  destruct (main_leaves w1) as (Hf1 & _).
  cbn zeta in *. fold w1 in Hb, Ht, Hf, He, Hc, Hr, Hl.
  rewrite Hf1, Hb, Ht, He, Hc, Hr, Hl. rewrite Hf.
  destruct (files w !! BIBTEX_FILE) as [stored_bib |]; [| reflexivity].
  destruct (read_error w BIBTEX_FILE) as [e |]; [reflexivity |].
  destruct (load (universal_newlines stored_bib)) as [entries | e]; [| reflexivity].
  destruct (files w !! TEMPLATE_FILE) as [stored_template |]; [| reflexivity].
  destruct (read_error w TEMPLATE_FILE) as [e |]; [reflexivity |].
  destruct (can_write w OUTPUT_FILE); [| reflexivity].
  destruct (room w) as [k |]; [destruct (length _ <=? k)%nat |];
    apply insert_insert_eq.
Qed.

End Files.

(** X15: a template in which the placeholder does not occur is written
    back as it is: the generated page is dropped without an error. *)
Theorem template_without_placeholder (nfc : str -> str) (int_of_str : str -> option Z)
    (entries : list entry) (template_html : str) :
  contains PLACEHOLDER template_html = false ->
  output_html nfc int_of_str entries template_html = template_html.
Proof.
  intros H. unfold output_html, replace.
  change PLACEHOLDER with (80 :: lit "LACEHOLDER") in *.
  apply rewrite_literal_absent. now apply contains_false.
Qed.

Lemma template_without_placeholder_witness :
  output_html nfc_letters py_int [ ({[ "year" := lit "2024" ]} : entry) ]
    (lit "<html>placeholder</html>")
  = lit "<html>placeholder</html>".
Proof.
  apply (template_without_placeholder nfc_letters py_int).
  vm_compute. reflexivity.
Defined.

(** X16: a placeholder that stands after text without the letter P is
    replaced by the generated page, which is not searched again, and the
    text after the placeholder is treated in the same way, so that every
    further placeholder is replaced as well. *)
Theorem placeholder_replaced (nfc : str -> str) (int_of_str : str -> option Z)
    (entries : list entry) (before after : str) :
  ~ In 80 before ->
  output_html nfc int_of_str entries (before ++ PLACEHOLDER ++ after)
  = before ++ generated_content nfc int_of_str entries
    ++ output_html nfc int_of_str entries after.
Proof.
  intros H. unfold output_html.
  change PLACEHOLDER with (80 :: lit "LACEHOLDER").
  rewrite replace_copy by assumption. reflexivity.
Qed.

Lemma placeholder_replaced_witness :
  output_html nfc_letters py_int [] (lit "<a>" ++ PLACEHOLDER ++ lit "<b>PLACEHOLDER")
  = lit "<a>" ++ generated_content nfc_letters py_int []
    ++ output_html nfc_letters py_int [] (lit "<b>PLACEHOLDER").
Proof.
  apply (placeholder_replaced nfc_letters py_int [] (lit "<a>") (lit "<b>PLACEHOLDER")).
  vm_compute. intuition discriminate.
Defined.

Lemma main_writes_output_only_witness :
  let w := mkWorld {[ BIBTEX_FILE := lit "@misc{a, year = {2024}}";
                      TEMPLATE_FILE := lit "<x>PLACEHOLDER</x>" ]}
                   (fun _ => None) (fun _ => true) None [10] (fun _ => None) [] in
  let load := fun _ : str => Returned [ ({[ "year" := lit "2024" ]} : entry) ] in
  let w' := fst (main nfc_letters py_int load w) in
  files w' !! TEMPLATE_FILE = files w !! TEMPLATE_FILE
  /\ can_write w' = can_write w
  /\ room w' = room w.
Proof.
  intros w load.
  apply (main_writes_output_only nfc_letters py_int load w TEMPLATE_FILE).
  discriminate.
Defined.

(** ** Unknown accent codes *)

(** A pattern that never reaches past a backslash treats the text before a
    backslash on its own. *)
Lemma rewrite_before_backslash (m : matcher) (r : str) :
  (forall c p, m (c :: p ++ BACKSLASH :: r) = m (c :: p)) ->
  (forall c p out k, m (c :: p) = Some (out, k) -> (Nat.pred k <= length p)%nat) ->
  forall (n : nat) (p : str), (length p <= n)%nat ->
  rewrite_from m O (p ++ BACKSLASH :: r)
  = rewrite_from m O p ++ rewrite_from m O (BACKSLASH :: r).
Proof.
  intros Hsee Hlen. induction n as [| n IH]; intros p Hp.
  - destruct p; [reflexivity | simpl in Hp; lia].
  - destruct p as [| c p]; [reflexivity |].
    cbn [app rewrite_from]. rewrite Hsee.
    destruct (m (c :: p)) as [[out k] |] eqn:E.
    + pose proof (Hlen _ _ _ _ E) as Hk.
      rewrite !(rewrite_from_skip m (Nat.pred k)).
      rewrite skipn_app.
      replace (Nat.pred k - length p)%nat with O by lia. cbn [skipn].
      rewrite IH; [now rewrite app_assoc |].
      rewrite length_skipn. simpl in Hp. lia.
    + cbn [app]. f_equal. apply IH. simpl in Hp. lia.
Qed.

Lemma braced_pattern_before_backslash (c : Z) (p r : str) :
  braced_pattern (c :: p ++ BACKSLASH :: r) = braced_pattern (c :: p).
Proof.
  destruct p as [| a [| o [| l [| e p]]]]; try reflexivity; cbn [app].
  - unfold braced_pattern. destruct r as [| x [| y [| z r]]]; try reflexivity.
    change (member BACKSLASH accent_class) with false.
    now rewrite andb_false_r.
  - unfold braced_pattern. destruct r as [| x [| y r]]; try reflexivity.
    change (BACKSLASH =? LBRACE) with false. now rewrite andb_false_r.
  - unfold braced_pattern. destruct r as [| x r]; try reflexivity.
    change (is_letter BACKSLASH) with false. now rewrite andb_false_r.
  - unfold braced_pattern. change (BACKSLASH =? RBRACE) with false.
    now rewrite andb_false_r.
Qed.

Lemma braced_pattern_length (c : Z) (p out : str) (k : nat) :
  braced_pattern (c :: p) = Some (out, k) -> (Nat.pred k <= length p)%nat.
Proof.
  unfold braced_pattern. destruct p as [| a [| o [| l [| e p]]]]; try discriminate.
  destruct (_ && _); [| discriminate]. intros [= _ <-]. simpl. lia.
Qed.

Lemma unbraced_pattern_before_backslash (c : Z) (p r : str) :
  unbraced_pattern (c :: p ++ BACKSLASH :: r) = unbraced_pattern (c :: p).
Proof.
  destruct p as [| a [| l p]]; try reflexivity; cbn [app].
  - unfold unbraced_pattern. destruct r as [| x r]; try reflexivity.
    change (member BACKSLASH accent_class) with false.
    now rewrite andb_false_r.
  - unfold unbraced_pattern. change (is_letter BACKSLASH) with false.
    now rewrite andb_false_r.
Qed.

Lemma unbraced_pattern_length (c : Z) (p out : str) (k : nat) :
  unbraced_pattern (c :: p) = Some (out, k) -> (Nat.pred k <= length p)%nat.
Proof.
  unfold unbraced_pattern. destruct p as [| a [| l p]]; try discriminate.
  destruct (_ && _); [| discriminate]. intros [= _ <-]. simpl. lia.
Qed.

Lemma starts_with_before_backslash (old p r : str) :
  Forall (fun x => x <> BACKSLASH) old ->
  starts_with old (p ++ BACKSLASH :: r) = starts_with old p.
Proof.
  intros Hold. revert p. induction Hold as [| x old Hx Hold IH]; intros p; [reflexivity |].
  destruct p as [| y p]; cbn [app starts_with].
  - replace (x =? BACKSLASH) with false by (symmetry; now apply Z.eqb_neq).
    reflexivity.
  - now rewrite IH.
Qed.

Lemma replace_before_backslash (old new p r : str) :
  old <> [] -> Forall (fun x => x <> BACKSLASH) old ->
  replace old new (p ++ BACKSLASH :: r)
  = replace old new p ++ replace old new (BACKSLASH :: r).
Proof.
  intros Hne Hold. rewrite !replace_nonempty by assumption.
  apply (rewrite_before_backslash (literal old new) r) with (n := length p); [| | lia].
  - intros c q. unfold literal. change (c :: q ++ BACKSLASH :: r) with ((c :: q) ++ BACKSLASH :: r).
    now rewrite starts_with_before_backslash.
  - intros c q out k. unfold literal.
    destruct (starts_with old (c :: q)) eqn:E; [| discriminate].
    intros [= _ <-]. apply starts_with_length in E. simpl in E. lia.
Qed.

(** The accent passes leave a backslash and a code outside the class where
    they are, with the text that follows as long as it holds no
    backslash. *)
Lemma accents_braced_keeps (c : Z) (w p s : str) :
  member c accent_class = false -> c <> BACKSLASH ->
  Forall (fun x => x <> BACKSLASH) w ->
  accents_braced (p ++ BACKSLASH :: c :: w ++ s)
  = accents_braced p ++ BACKSLASH :: c :: w ++ accents_braced s.
Proof.
  intros Hc Hb Hw. unfold accents_braced.
  rewrite (rewrite_before_backslash braced_pattern (c :: w ++ s)) with (n := length p);
    [| intros; apply braced_pattern_before_backslash
     | intros ? ? ? ?; apply braced_pattern_length | lia].
  f_equal. rewrite rewrite_from_none by now apply braced_pattern_unknown.
  f_equal. change (c :: w ++ s) with ((c :: w) ++ s).
  apply (rewrite_from_copy braced_pattern (fun x => x <> BACKSLASH)).
  - intros x t Hx. now apply braced_pattern_start.
  - now constructor.
Qed.

Lemma accents_unbraced_keeps (c : Z) (w p s : str) :
  member c accent_class = false -> c <> BACKSLASH ->
  Forall (fun x => x <> BACKSLASH) w ->
  accents_unbraced (p ++ BACKSLASH :: c :: w ++ s)
  = accents_unbraced p ++ BACKSLASH :: c :: w ++ accents_unbraced s.
Proof.
  intros Hc Hb Hw. unfold accents_unbraced.
  rewrite (rewrite_before_backslash unbraced_pattern (c :: w ++ s)) with (n := length p);
    [| intros; apply unbraced_pattern_before_backslash
     | intros ? ? ? ?; apply unbraced_pattern_length | lia].
  f_equal. rewrite rewrite_from_none by now apply unbraced_pattern_unknown.
  f_equal. change (c :: w ++ s) with ((c :: w) ++ s).
  apply (rewrite_from_copy unbraced_pattern (fun x => x <> BACKSLASH)).
  - intros x t Hx. now apply unbraced_pattern_start.
  - now constructor.
Qed.

(** Whether a macro stands at a position depends on the three code points
    there: no macro is longer. *)
Lemma first_match_three (a b c : Z) (t t' : str) :
  first_match _SPECIAL_MACROS (a :: b :: c :: t)
  = first_match _SPECIAL_MACROS (a :: b :: c :: t').
Proof. reflexivity. Qed.

Lemma special_macros_keeps (c : Z) (w p s : str) :
  first_match _SPECIAL_MACROS (BACKSLASH :: c :: w ++ s) = None -> c <> BACKSLASH ->
  Forall (fun x => x <> BACKSLASH) w ->
  special_macros (p ++ BACKSLASH :: c :: w ++ s)
  = special_macros p ++ BACKSLASH :: c :: w ++ special_macros s.
Proof.
  intros Hm Hb Hw. rewrite !special_macros_scan. unfold macro_scan.
  rewrite (scan_before_backslash _SPECIAL_MACROS (c :: w ++ s) eq_refl (length p)) by lia.
  f_equal. rewrite scan_cons, Hm. f_equal.
  change (c :: w ++ s) with ((c :: w) ++ s).
  apply (rewrite_from_copy (first_match _SPECIAL_MACROS) (fun x => x <> BACKSLASH)).
  - intros x t Hx. now apply first_match_needs_backslash.
  - now constructor.
Qed.

(** A dash or a quote rule (two code points or more, none of them a letter
    or a backslash) leaves a backslash, a code and a letter where they
    are. *)
Lemma replace_each_keeps (table : list (str * str)) (c l : Z) :
  is_letter l = true ->
  forallb (fun e => match fst e with
                    | h :: h2 :: _ =>
                        negb (is_letter h) && negb (is_letter h2)
                        && forallb (fun x => negb (x =? BACKSLASH)) (fst e)
                    | _ => false
                    end) table = true ->
  forall p s,
  replace_each table (p ++ BACKSLASH :: c :: l :: s)
  = replace_each table p ++ BACKSLASH :: c :: l :: replace_each table s.
Proof.
  intros Hl. unfold replace_each.
  induction table as [| [old new] table IH]; intros Hwf p s; [reflexivity |].
  cbn [forallb fst] in Hwf. apply andb_true_iff in Hwf. destruct Hwf as [Ho Hwf].
  cbn [fold_left].
  destruct old as [| h [| h2 old']]; try discriminate.
  apply andb_true_iff in Ho. destruct Ho as [Ho Hnb].
  apply andb_true_iff in Ho. destruct Ho as [Hh Hh2].
  apply negb_true_iff in Hh, Hh2.
  assert (Hold : Forall (fun x => x <> BACKSLASH) (h :: h2 :: old')).
  { apply List.Forall_forall. intros x Hx.
    rewrite forallb_forall in Hnb. specialize (Hnb x Hx).
    now apply negb_true_iff, Z.eqb_neq in Hnb. }
  assert (Hhb : BACKSLASH <> h) by (inversion Hold; congruence).
  assert (Hhl : l <> h) by congruence.
  assert (Hh2l : h2 <> l) by congruence.
  rewrite replace_before_backslash by (assumption || discriminate).
  rewrite (replace_nonempty (h :: h2 :: old') new (BACKSLASH :: c :: l :: s)) by discriminate.
  rewrite rewrite_from_none by (now apply (literal_start _ _ h _ (h2 :: old'))).
  rewrite rewrite_from_none.
  2:{ unfold literal. cbn [starts_with].
      replace (h2 =? l) with false by (symmetry; now apply Z.eqb_neq).
      cbn [andb]. now rewrite andb_false_r. }
  rewrite rewrite_from_none by (now apply (literal_start _ _ h _ (h2 :: old'))).
  rewrite <- (replace_nonempty (h :: h2 :: old') new s) by discriminate.
  apply IH. exact Hwf.
Qed.

Lemma dash_quotes_keeps (c l : Z) (p s : str) :
  is_letter l = true ->
  dash_quotes (p ++ BACKSLASH :: c :: l :: s)
  = dash_quotes p ++ BACKSLASH :: c :: l :: dash_quotes s.
Proof. intros Hl. unfold dash_quotes. now apply replace_each_keeps. Qed.

Lemma letter_no_brace (l : Z) :
  is_letter l = true -> l <> BACKSLASH /\ l <> LBRACE /\ l <> RBRACE.
Proof. rewrite is_letter_bounds. unfold BACKSLASH, LBRACE, RBRACE. lia. Qed.

Lemma unbrace_command (c l : Z) :
  c <> LBRACE -> c <> RBRACE -> is_letter l = true ->
  unbrace (unbraced_form c l) = unbraced_form c l
  /\ unbrace (braced_form c l) = unbraced_form c l.
Proof.
  intros Ho Hc Hl. destruct (letter_no_brace l Hl) as (_ & Hlo & Hlc).
  unfold unbrace, unbraced_form, braced_form. cbn [List.filter].
  change (BACKSLASH =? LBRACE) with false. change (BACKSLASH =? RBRACE) with false.
  rewrite Z.eqb_refl, (Z.eqb_refl RBRACE).
  replace (c =? LBRACE) with false by (symmetry; now apply Z.eqb_neq).
  replace (c =? RBRACE) with false by (symmetry; now apply Z.eqb_neq).
  replace (l =? LBRACE) with false by (symmetry; now apply Z.eqb_neq).
  replace (l =? RBRACE) with false by (symmetry; now apply Z.eqb_neq).
  cbn [orb negb]. rewrite orb_true_r. cbn [negb]. split; reflexivity.
Qed.

(** C7, as the program has it.  For every code outside the supported set,
    neither accent pattern matches at a backslash followed by the code,
    whatever comes after; when the code is no backslash, both accent
    passes leave the backslash and the code where they are, whatever text
    stands before and after them.  When moreover the code is no brace and
    no special macro stands at the start of the command, then wherever the
    command stands in the input, the text before it and the text after it
    are treated as they are on their own, and between them the unbraced
    command is kept as it is, while the braced command keeps its
    backslash, its code and its letter and loses its braces to the step
    that removes braces.  The final normalisation is applied to this
    text. *)
Theorem unknown_accent_kept (nfc : str -> str) (c l : Z) (p s : str) :
  member c accent_class = false ->
  is_letter l = true ->
  (forall rest, braced_pattern (BACKSLASH :: c :: rest) = None
                /\ unbraced_pattern (BACKSLASH :: c :: rest) = None)
  /\ (c <> BACKSLASH ->
        accents_braced (p ++ BACKSLASH :: c :: s)
        = accents_braced p ++ BACKSLASH :: c :: accents_braced s
        /\ accents_unbraced (p ++ BACKSLASH :: c :: s)
           = accents_unbraced p ++ BACKSLASH :: c :: accents_unbraced s)
  /\ (c <> BACKSLASH -> c <> LBRACE -> c <> RBRACE ->
        (first_match _SPECIAL_MACROS (unbraced_form c l) = None ->
           markup_steps (p ++ unbraced_form c l ++ s)
           = markup_steps p ++ unbraced_form c l ++ markup_steps s
           /\ latex_to_unicode nfc (p ++ unbraced_form c l ++ s)
              = nfc (markup_steps p ++ unbraced_form c l ++ markup_steps s))
        /\ (first_match _SPECIAL_MACROS (braced_form c l) = None ->
              markup_steps (p ++ braced_form c l ++ s)
              = markup_steps p ++ unbraced_form c l ++ markup_steps s
              /\ latex_to_unicode nfc (p ++ braced_form c l ++ s)
                 = nfc (markup_steps p ++ unbraced_form c l ++ markup_steps s))).
Proof.
  intros Hc Hl.
  destruct (letter_no_brace l Hl) as (Hlb & Hlo & Hlc).
  split; [intros rest; split;
          [now apply braced_pattern_unknown | now apply unbraced_pattern_unknown] |].
  split.
  { intros Hb. split.
    - apply (accents_braced_keeps c [] p s); [assumption | assumption | constructor].
    - apply (accents_unbraced_keeps c [] p s); [assumption | assumption | constructor]. }
  intros Hb Ho Hr.
  destruct (unbrace_command c l Ho Hr Hl) as [Uu Ub].
  assert (Nonempty : forall k t,
            latex_to_unicode nfc (p ++ k :: t) = nfc (markup_steps (p ++ k :: t))).
  { intros k t. unfold latex_to_unicode. destruct (p ++ k :: t) eqn:E; [| reflexivity].
    destruct p; discriminate. }
  split.
  - intros Hm.
    assert (M : markup_steps (p ++ unbraced_form c l ++ s)
                = markup_steps p ++ unbraced_form c l ++ markup_steps s).
    { unfold markup_steps.
      change (unbraced_form c l ++ ?t) with (BACKSLASH :: c :: [l] ++ t).
      rewrite (special_macros_keeps c [l] p s);
        [| transitivity (first_match _SPECIAL_MACROS (unbraced_form c l));
           [apply (first_match_three BACKSLASH c l s []) | exact Hm] | assumption
         | repeat constructor; assumption].
      rewrite (accents_braced_keeps c [l]) by (repeat constructor; assumption).
      rewrite (accents_unbraced_keeps c [l]) by (repeat constructor; assumption).
      rewrite !unbrace_spec, unbrace_app.
      change (BACKSLASH :: c :: [l] ++ ?t) with (unbraced_form c l ++ t).
      rewrite unbrace_app, Uu.
      change (unbraced_form c l ++ ?t) with (BACKSLASH :: c :: l :: t).
      rewrite dash_quotes_keeps by assumption. reflexivity. }
    split; [exact M |].
    change (unbraced_form c l ++ s) with (BACKSLASH :: c :: l :: s) in *.
    rewrite Nonempty. now rewrite M.
  - intros Hm.
    assert (M : markup_steps (p ++ braced_form c l ++ s)
                = markup_steps p ++ unbraced_form c l ++ markup_steps s).
    { unfold markup_steps.
      change (braced_form c l ++ ?t) with (BACKSLASH :: c :: [LBRACE; l; RBRACE] ++ t).
      rewrite (special_macros_keeps c [LBRACE; l; RBRACE] p s);
        [| transitivity (first_match _SPECIAL_MACROS (braced_form c l));
           [apply (first_match_three BACKSLASH c LBRACE (l :: RBRACE :: s) [l; RBRACE])
           | exact Hm] | assumption
         | repeat constructor; (assumption || discriminate)].
      rewrite (accents_braced_keeps c [LBRACE; l; RBRACE])
        by (repeat constructor; (assumption || discriminate)).
      rewrite (accents_unbraced_keeps c [LBRACE; l; RBRACE])
        by (repeat constructor; (assumption || discriminate)).
      rewrite !unbrace_spec, unbrace_app.
      change (BACKSLASH :: c :: [LBRACE; l; RBRACE] ++ ?t) with (braced_form c l ++ t).
      rewrite unbrace_app, Ub.
      change (unbraced_form c l ++ ?t) with (BACKSLASH :: c :: l :: t).
      rewrite dash_quotes_keeps by assumption. reflexivity. }
    split; [exact M |].
    change (braced_form c l ++ s) with (BACKSLASH :: c :: LBRACE :: l :: RBRACE :: s) in *.
    rewrite Nonempty. now rewrite M.
Qed.

Lemma unknown_accent_kept_witness :
  (forall rest, braced_pattern (BACKSLASH :: 116 :: rest) = None
                /\ unbraced_pattern (BACKSLASH :: 116 :: rest) = None)
  /\ markup_steps (lit "caf{\'e} " ++ unbraced_form 116 111 ++ lit " --- x")
     = markup_steps (lit "caf{\'e} ") ++ unbraced_form 116 111 ++ markup_steps (lit " --- x")
  /\ markup_steps (lit "caf{\'e} " ++ braced_form 116 111 ++ lit " --- x")
     = markup_steps (lit "caf{\'e} ") ++ unbraced_form 116 111 ++ markup_steps (lit " --- x").
Proof.
  destruct (unknown_accent_kept nfc_letters 116 111 (lit "caf{\'e} ") (lit " --- x")
              eq_refl eq_refl) as (H1 & _ & H3).
  destruct H3 as (Hu & Hb); try discriminate.
  split; [exact H1 |]. split; [apply Hu | apply Hb]; reflexivity.
Defined.

(** C7 as stated fails: the braced command with the unknown code t loses
    its braces, and a command whose code begins a special macro is
    rewritten by the macro step, backslash and code included.  A brace
    taken as the code is removed with all braces, and a backslash taken
    as the code can begin a command of its own with the text that
    follows. *)
Lemma unknown_accent_kept_counterexample :
  member 116 accent_class = false
  /\ latex_to_unicode nfc_letters (braced_form 116 111) = lit "\to"
  /\ latex_to_unicode nfc_letters (braced_form 116 111) <> braced_form 116 111
  /\ member 111 accent_class = false
  /\ latex_to_unicode nfc_letters (braced_form 111 101) = [248; 101]
  /\ member 108 accent_class = false
  /\ latex_to_unicode nfc_letters (unbraced_form 108 97) = [322; 97]
  /\ member LBRACE accent_class = false
  /\ latex_to_unicode nfc_letters (unbraced_form LBRACE 120) = lit "\x"
  /\ member BACKSLASH accent_class = false
  /\ latex_to_unicode nfc_letters (unbraced_form BACKSLASH 99 ++ lit "a") = [BACKSLASH; 97; 807].
Proof.
  vm_compute. repeat split; discriminate.
Qed.
